(** * International draughts engine: a shallow embedding of the move
    generator, the transposition table, the move-ordering tables, the
    safety analysis, the evaluation and the search driver, with the
    properties the specification states about them.

    Squares are pairs of JS numbers (integers here, [Z]); a grid is an
    array of rows (a list of lists); maps and sets with string keys are
    [gmap string _] and [gset string]; scores that mix in decimal weights
    are exact rationals. *)

From Stdlib Require Import ZArith QArith Qabs Lia Lqa Permutation Sorted.
From stdpp Require Import gmap strings list fin_maps pretty.

Open Scope Z_scope.

(** ** constants.js

    The file is not among the sources; the engine only imports
    [BOARD_SIZE], [PIECE], [PLAYER], [DIRECTIONS] and [isDarkSquare] from
    it.  The two enumerations are inductive types.  [isDarkSquare] is a
    parameter of every definition that reads it. *)

Inductive Piece := NONE | WHITE | BLACK | WHITE_KING | BLACK_KING.

Inductive Player := PWHITE | PBLACK.

Global Instance Piece_eq_dec : EqDecision Piece.
Proof. solve_decision. Defined.

Global Instance Player_eq_dec : EqDecision Player.
Proof. solve_decision. Defined.

(** Modelled from the spec: BOARD_SIZE, the side of the 10x10 grid. *)
Definition BOARD_SIZE : Z := 10.

Record Dir := mkDir { dy : Z; dx : Z }.

(** Modelled from the spec: DIRECTIONS.  Kings (and capturing men) use the
    four diagonals; white men step towards row 0, where [shouldPromote]
    crowns them, black men towards row 9. *)
Definition KING_MOVES : list Dir :=
  [mkDir (-1) (-1); mkDir (-1) 1; mkDir 1 (-1); mkDir 1 1].
Definition WHITE_MOVES : list Dir := [mkDir (-1) (-1); mkDir (-1) 1].
Definition BLACK_MOVES : list Dir := [mkDir 1 (-1); mkDir 1 1].

(** ** The data model *)

Record Pos := mkPos { row : Z; col : Z }.

Global Instance Pos_eq_dec : EqDecision Pos.
Proof. solve_decision. Defined.

Record Move := mkMove { from : Pos; to : Pos; captures : list Pos }.

Global Instance Move_eq_dec : EqDecision Move.
Proof. solve_decision. Defined.

Abbreviation Grid := (list (list Piece)).

Record Position := mkPosition {
  pieces : Grid;
  currentPlayer : Player;
  history : list string
}.

Definition otherPlayer (p : Player) : Player :=
  match p with PWHITE => PBLACK | PBLACK => PWHITE end.

(** [pieces[r][c]] for a square of the grid.  The engine guards its reads
    by [isValidSquare].  Outside the stored rows the code has no piece to
    read: an off-grid column reads [undefined] and an off-grid row throws
    a TypeError.  [NONE] stands for such a read here, so the embedding
    agrees with the code on the squares of the grid only; the properties
    of [makeMove] are stated for moves whose squares are on the board. *)
Definition pieceAt (g : Grid) (p : Pos) : Piece :=
  if bool_decide (0 <= row p) && bool_decide (0 <= col p)
  then match g !! Z.to_nat (row p) with
       | Some r => default NONE (r !! Z.to_nat (col p))
       | None => NONE
       end
  else NONE.

(** [pieces[r][c] = v] for a square of the grid.  Outside the stored rows
    the code throws a TypeError (off-grid row) or extends the row array
    (off-grid column); here nothing is written, so the embedding agrees
    with the code on the squares of the grid only. *)
Definition setPiece (g : Grid) (p : Pos) (v : Piece) : Grid :=
  if bool_decide (0 <= row p) && bool_decide (0 <= col p)
  then match g !! Z.to_nat (row p) with
       | Some r => <[Z.to_nat (row p) := <[Z.to_nat (col p) := v]> r]> g
       | None => g
       end
  else g.

(** [pieces.map(row => [...row])]: a fresh array of fresh rows. *)
Definition copyGrid (g : Grid) : Grid := map (fun r => r) g.

Definition step (p : Pos) (d : Dir) : Pos :=
  mkPos (row p + dy d) (col p + dx d).

(** ** ai.utils.js *)

Definition isValidSquare (r c : Z) : bool :=
  bool_decide (0 <= r) && bool_decide (r < BOARD_SIZE) &&
  bool_decide (0 <= c) && bool_decide (c < BOARD_SIZE).

Definition validPos (p : Pos) : bool := isValidSquare (row p) (col p).

Definition isPlayerPiece (piece : Piece) (player : Player) : bool :=
  match player with
  | PWHITE => bool_decide (piece = WHITE) || bool_decide (piece = WHITE_KING)
  | PBLACK => bool_decide (piece = BLACK) || bool_decide (piece = BLACK_KING)
  end.

Definition isPieceOfCurrentPlayer (piece : Piece) (currentPlayer : Player) : bool :=
  match currentPlayer with
  | PWHITE => bool_decide (piece = WHITE) || bool_decide (piece = WHITE_KING)
  | PBLACK => bool_decide (piece = BLACK) || bool_decide (piece = BLACK_KING)
  end.

Definition isOpponentPiece (piece : Piece) (currentPlayer : Player) : bool :=
  match currentPlayer with
  | PWHITE => bool_decide (piece = BLACK) || bool_decide (piece = BLACK_KING)
  | PBLACK => bool_decide (piece = WHITE) || bool_decide (piece = WHITE_KING)
  end.

Definition isKingPiece (piece : Piece) : bool :=
  bool_decide (piece = WHITE_KING) || bool_decide (piece = BLACK_KING).

Definition shouldPromote (piece : Piece) (r : Z) : bool :=
  (bool_decide (piece = WHITE) && bool_decide (r = 0)) ||
  (bool_decide (piece = BLACK) && bool_decide (r = BOARD_SIZE - 1)).

(** The squares of the board in the order of the nested [r], [c] loops. *)
Definition allSquares : list Pos :=
  r ← seqZ 0 BOARD_SIZE; c ← seqZ 0 BOARD_SIZE; [mkPos r c].

(** *** makeMove *)

Definition makeMove (position : Position) (move : Move) : Position :=
  let g0 := copyGrid (pieces position) in
  let piece := pieceAt g0 (from move) in
  let g1 := setPiece g0 (from move) NONE in
  let g2 := setPiece g1 (to move) piece in
  let g3 := foldl (fun g cap => setPiece g cap NONE) g2 (captures move) in
  let g4 :=
    if shouldPromote piece (row (to move))
    then setPiece g3 (to move)
           (if bool_decide (piece = WHITE) then WHITE_KING else BLACK_KING)
    else g3 in
  mkPosition g4 (otherPlayer (currentPlayer position)) (history position).

(** *** findCaptureSequences

    [visitedPositions] is a [Set] of the keys [`${row},${col}`]. *)

Definition posKey (p : Pos) : string :=
  pretty (row p) +:+ "," +:+ pretty (col p).

(** The flying king's first loop: walk from [p] along [d] while the square
    is on the board; stop at the first piece, which is the enemy to jump
    if it is the opponent's and blocks the diagonal otherwise. *)
Fixpoint scanEnemy (n : nat) (g : Grid) (player : Player) (p : Pos) (d : Dir)
  : option Pos :=
  match n with
  | O => None
  | S k =>
    if validPos p then
      if bool_decide (pieceAt g p ≠ NONE) then
        if isOpponentPiece (pieceAt g p) player then Some p else None
      else scanEnemy k g player (step p d) d
    else None
  end.

(** The flying king's second loop: the empty squares behind the enemy. *)
Fixpoint landingSquares (n : nat) (g : Grid) (p : Pos) (d : Dir) : list Pos :=
  match n with
  | O => []
  | S k =>
    if validPos p && bool_decide (pieceAt g p = NONE)
    then p :: landingSquares k g (step p d) d
    else []
  end.

(** No diagonal of the board has more than [BOARD_SIZE] squares. *)
Definition SCAN : nat := Z.to_nat BOARD_SIZE.

Definition containsPos (l : list Pos) (p : Pos) : bool :=
  existsb (fun q => bool_decide (row q = row p) && bool_decide (col q = col p)) l.

(** The jumps the body of [for (const dir of dirs)] finds in one direction:
    the jumped square and the landing square of each. *)
Definition dirJumps (g : Grid) (currentPos : Pos) (capturedSoFar : list Pos)
    (player : Player) (d : Dir) : list (Pos * Pos) :=
  if isKingPiece (pieceAt g currentPos) then
    match scanEnemy SCAN g player (step currentPos d) d with
    | Some enemyPos =>
      if negb (containsPos capturedSoFar enemyPos)
      then map (fun land => (enemyPos, land))
               (landingSquares SCAN g (step enemyPos d) d)
      else []
    | None => []
    end
  else
    let jumpOverPos := step currentPos d in
    let landPos := step jumpOverPos d in
    if validPos landPos && bool_decide (pieceAt g landPos = NONE) &&
       isOpponentPiece (pieceAt g jumpOverPos) player
    then if negb (containsPos capturedSoFar jumpOverPos)
         then [(jumpOverPos, landPos)] else []
    else [].

(** "Make the capture on a copy". *)
Definition applyJump (g : Grid) (currentPos enemyPos landPos : Pos) : Grid :=
  let piece := pieceAt g currentPos in
  let newPieces := copyGrid g in
  setPiece (setPiece (setPiece newPieces currentPos NONE) enemyPos NONE)
           landPos piece.

(** What a recorded sequence is built from: [path], [currentPos] and
    [capturedSoFar] at the moment of the [push]. *)
Record Trail := mkTrail {
  t_path : list Pos;
  t_pos : Pos;
  t_captured : list Pos
}.

(** [{ from: path[0] || currentPos, to: currentPos, captures: capturedSoFar }] *)
Definition recordSequence (t : Trail) : Move :=
  mkMove (hd (t_pos t) (t_path t)) (t_pos t) (t_captured t).

(** The recursion of [findCaptureSequences].  It returns what the call
    pushes onto [sequences], in order.  Every call works on its own copy of
    [visitedPositions], so the final [delete] is seen by nobody and the set
    is passed down only.  [fuel] bounds the depth of the recursion; the
    source bounds it by [recursionDepth > 20]. *)
Fixpoint findCaptureTrails (fuel : nat) (g : Grid) (currentPos : Pos)
    (path capturedSoFar : list Pos) (visitedPositions : gset string)
    (currentPlayer : Player) (recursionDepth : nat) : list Trail :=
  match fuel with
  | O => []
  | S fuel' =>
    if bool_decide (20 < recursionDepth)%nat then []
    else if bool_decide (posKey currentPos ∈ visitedPositions) then []
    else
      let visited := visitedPositions ∪ {[ posKey currentPos ]} in
      let jumps :=
        d ← KING_MOVES; dirJumps g currentPos capturedSoFar currentPlayer d in
      let foundJump := negb (bool_decide (jumps = [])) in
      (j ← jumps;
         findCaptureTrails fuel' (applyJump g currentPos j.1 j.2) j.2
           (path ++ [currentPos]) (capturedSoFar ++ [j.1]) visited
           currentPlayer (S recursionDepth))
      ++ (if negb foundJump && bool_decide (0 < length capturedSoFar)%nat
          then [mkTrail path currentPos capturedSoFar] else [])
  end.

(** Depth 21 is the last one that is entered. *)
Definition FUEL : nat := 22.

Definition findCaptureSequences (g : Grid) (currentPos : Pos)
    (currentPlayer : Player) : list Move :=
  map recordSequence
      (findCaptureTrails FUEL g currentPos [] [] ∅ currentPlayer 0).

(** [getPieceCapturesFrom] *)
Definition getPieceCapturesFrom (position : Position) (piecePos : Pos) : list Move :=
  let player :=
    if bool_decide (pieceAt (pieces position) piecePos = WHITE) ||
       bool_decide (pieceAt (pieces position) piecePos = WHITE_KING)
    then PWHITE else PBLACK in
  findCaptureSequences (pieces position) piecePos player.

(** *** getAvailableCaptures *)

(** [Array.prototype.sort] with a comparator: stable, [x] goes before [y]
    when [cmp x y < 0]. *)
Fixpoint sortInsert {A} (cmp : A -> A -> Z) (x : A) (l : list A) : list A :=
  match l with
  | [] => [x]
  | y :: l' => if bool_decide (cmp x y <= 0) then x :: l
               else y :: sortInsert cmp x l'
  end.

Definition sortBy {A} (cmp : A -> A -> Z) (l : list A) : list A :=
  foldr (sortInsert cmp) [] l.

Definition nCaptures (m : Move) : Z := Z.of_nat (length (captures m)).

(** [allCaptures] after the two loops over the board. *)
Definition allCaptureTrails (position : Position) : list Trail :=
  sq ← allSquares;
  if isPieceOfCurrentPlayer (pieceAt (pieces position) sq) (currentPlayer position)
  then findCaptureTrails FUEL (pieces position) sq [] [] ∅
         (currentPlayer position) 0
  else [].

Definition allCaptures (position : Position) : list Move :=
  map recordSequence (allCaptureTrails position).

Definition getAvailableCaptures (position : Position) : list Move :=
  let sorted := sortBy (fun a b => nCaptures b - nCaptures a) (allCaptures position) in
  match sorted with
  | first :: _ =>
    let maxLength := nCaptures first in
    filter (fun move => nCaptures move = maxLength) sorted
  | [] => []
  end.

Definition hasCaptures (position : Position) : bool :=
  bool_decide (0 < length (getAvailableCaptures position))%nat.

(** *** Normal moves and generateMoves *)

Section MoveGenerator.

(** [isDarkSquare] of constants.js. *)
Variable isDarkSquare : Z -> Z -> bool.

(** The king's sliding loop: push while the square is on the board, empty
    and dark. *)
Fixpoint slideSquares (n : nat) (g : Grid) (p : Pos) (d : Dir) : list Pos :=
  match n with
  | O => []
  | S k =>
    if validPos p && bool_decide (pieceAt g p = NONE) &&
       isDarkSquare (row p) (col p)
    then p :: slideSquares k g (step p d) d
    else []
  end.

(** What [addNormalMovesForPiece] pushes onto [moves]. *)
Definition addNormalMovesForPiece (position : Position) (r c : Z) : list Move :=
  let piece := pieceAt (pieces position) (mkPos r c) in
  if isKingPiece piece then
    d ← KING_MOVES;
    map (fun sq => mkMove (mkPos r c) sq [])
        (slideSquares SCAN (pieces position) (step (mkPos r c) d) d)
  else
    let dirs := if bool_decide (currentPlayer position = PWHITE)
                then WHITE_MOVES else BLACK_MOVES in
    d ← dirs;
    let n := step (mkPos r c) d in
    if validPos n && bool_decide (pieceAt (pieces position) n = NONE) &&
       isDarkSquare (row n) (col n)
    then [mkMove (mkPos r c) n []]
    else [].

Definition normalMoves (position : Position) : list Move :=
  sq ← allSquares;
  if isPieceOfCurrentPlayer (pieceAt (pieces position) sq) (currentPlayer position)
  then addNormalMovesForPiece position (row sq) (col sq)
  else [].

Definition generateMoves (position : Position) : list Move :=
  let captures := getAvailableCaptures position in
  if bool_decide (0 < length captures)%nat then captures
  else normalMoves position.

End MoveGenerator.

(** *** Piece counts and game phase *)

Definition countTotalPieces (position : Position) : nat :=
  length (filter (fun sq => pieceAt (pieces position) sq ≠ NONE) allSquares).

Inductive Phase := opening | middlegame | endgame.

Global Instance Phase_eq_dec : EqDecision Phase.
Proof. solve_decision. Defined.

Definition getGamePhase (position : Position) : Phase :=
  let totalPieces := countTotalPieces position in
  if bool_decide (16 < totalPieces)%nat then opening
  else if bool_decide (10 < totalPieces)%nat then middlegame
  else endgame.

(** ** Boards used in the examples *)

Definition emptyGrid : Grid :=
  replicate (Z.to_nat BOARD_SIZE) (replicate (Z.to_nat BOARD_SIZE) NONE).

Definition place (g : Grid) (l : list (Z * Z * Piece)) : Grid :=
  foldl (fun g x => setPiece g (mkPos x.1.1 x.1.2) x.2) g l.

(** Both parities of the playable squares. *)
Definition darkOdd (r c : Z) : bool := bool_decide ((r + c) mod 2 = 1).
Definition darkEven (r c : Z) : bool := bool_decide ((r + c) mod 2 = 0).

(** White to move; the man on (6,1) can take two men, the man on (6,7) one. *)
Definition twoChainsPosition : Position :=
  mkPosition
    (place emptyGrid [(6, 1, WHITE); (6, 7, WHITE);
                      (5, 2, BLACK); (3, 4, BLACK); (5, 8, BLACK)])
    PWHITE [].

(** White to move with a king on (6, [shift]) and four black men around a
    square of diagonals.  [shift] is 0 or 1: the same position on either
    colouring of the board. *)
Definition loopPosition (shift : Z) : Position :=
  mkPosition
    (place emptyGrid [(6, 0 + shift, WHITE_KING); (5, 1 + shift, BLACK);
                      (4, 4 + shift, BLACK); (7, 5 + shift, BLACK);
                      (7, 3 + shift, BLACK)])
    PWHITE [].

(** The king takes all four men and lands on the square of the first. *)
Definition loopMove (shift : Z) : Move :=
  mkMove (mkPos 6 (0 + shift)) (mkPos 5 (1 + shift))
         [mkPos 5 (1 + shift); mkPos 4 (4 + shift); mkPos 7 (5 + shift);
          mkPos 7 (3 + shift)].

(** White to move with a man on (6, 3 + [shift]) inside a ring of four
    black men, and a second man on row 9.  The man can jump round the
    ring; the fourth jump would bring it back to the square it left. *)
Definition ringPosition (shift : Z) : Position :=
  mkPosition
    (place emptyGrid [(6, 3 + shift, WHITE); (9, 0 + shift, WHITE);
                      (5, 4 + shift, BLACK); (3, 4 + shift, BLACK);
                      (3, 2 + shift, BLACK); (5, 2 + shift, BLACK)])
    PWHITE [].

(** ** Well-formed grids and moves *)

(** A square that the stored rows hold. *)
Definition inGrid (g : Grid) (p : Pos) : Prop :=
  0 <= row p ∧ 0 <= col p ∧
  match g !! Z.to_nat (row p) with
  | Some r => (Z.to_nat (col p) < length r)%nat
  | None => False
  end.

Global Instance inGrid_dec g p : Decision (inGrid g p).
Proof. unfold inGrid. destruct (g !! Z.to_nat (row p)); apply _. Defined.

(** The 10x10 grid of a Position. *)
Definition wfGrid (g : Grid) : Prop :=
  length g = Z.to_nat BOARD_SIZE ∧
  Forall (fun r => length r = Z.to_nat BOARD_SIZE) g.

(** ** JS numbers that may be infinite

    Scores are JS numbers: the evaluation multiplies by decimal weights, so
    a finite score is an exact rational here, and alpha and beta start at
    [-Infinity] and [Infinity]. *)

Inductive Score := NegInfinity | Finite (q : Q) | Infinity.

Definition score_leb (a b : Score) : bool :=
  match a, b with
  | NegInfinity, _ => true
  | _, Infinity => true
  | Finite x, Finite y => Qle_bool x y
  | _, _ => false
  end.

Definition score_geb (a b : Score) : bool := score_leb b a.

Definition ofZ (z : Z) : Score := Finite (inject_Z z).

(** ** A [Map] in insertion order *)

Section JSMap.
Context {V : Type}.

Fixpoint mapGet (k : string) (m : list (string * V)) : option V :=
  match m with
  | [] => None
  | (k', v) :: m' => if bool_decide (k' = k) then Some v else mapGet k m'
  end.

(** [set] keeps the place of a key that is present and appends a new one. *)
Fixpoint mapSet (k : string) (v : V) (m : list (string * V)) : list (string * V) :=
  match m with
  | [] => [(k, v)]
  | (k', v') :: m' =>
    if bool_decide (k' = k) then (k, v) :: m' else (k', v') :: mapSet k v m'
  end.

Definition mapDelete (k : string) (m : list (string * V)) : list (string * V) :=
  filter (fun kv => kv.1 ≠ k) m.

End JSMap.

(** ** ai.tt.js: the transposition table *)

Module TT.

(** [AI_PARAMS.CACHE.ENTRY_TYPES] *)
Inductive EntryType := EXACT | LOWER_BOUND | UPPER_BOUND.

Global Instance EntryType_eq_dec : EqDecision EntryType.
Proof. solve_decision. Defined.

Record Entry := mkEntry {
  depth : Z;
  value : Score;
  type : EntryType;
  bestMove : option Move;
  accessTime : Z;
  age : Z
}.

(** The variables the closure of [createTranspositionTable] holds. *)
Record Table := mkTable {
  maxSize : Z;
  table : list (string * Entry);
  accessCount : Z;
  hits : Z;
  stores : Z
}.

Definition create (maxSize : Z) : Table := mkTable maxSize [] 0 0 0.

(** A sort with a comparator into the rationals, stable as [sort] is. *)
Fixpoint sortInsertQ {A} (cmp : A -> A -> Q) (x : A) (l : list A) : list A :=
  match l with
  | [] => [x]
  | y :: l' => if Qle_bool (cmp x y) 0 then x :: l
               else y :: sortInsertQ cmp x l'
  end.

Definition sortByQ {A} (cmp : A -> A -> Q) (l : list A) : list A :=
  foldr (sortInsertQ cmp) [] l.

Definition cleanupScore (e : Entry) : Q :=
  (inject_Z (accessTime e) / 1000 + inject_Z (depth e) * 10 - inject_Z (age e) * 5)%Q.

Definition ageEntry (e : Entry) : Entry :=
  mkEntry (depth e) (value e) (type e) (bestMove e) (accessTime e) (age e + 1).

(** [cleanup]: age every entry, rank them, delete the lowest 30%.
    [Math.floor(entries.length * 0.3)] is the floor of the exact product;
    the rounding of the double product never crosses an integer. *)
Definition cleanup (t : Table) : Table :=
  let aged := map (fun kv => (kv.1, ageEntry kv.2)) (table t) in
  let entries :=
    sortByQ (fun a b => (cleanupScore a.2 - cleanupScore b.2)%Q) aged in
  let toDelete := Z.to_nat (3 * Z.of_nat (length entries) / 10) in
  let remaining :=
    foldl (fun m kv => mapDelete kv.1 m) aged (take toDelete entries) in
  mkTable (maxSize t) remaining (accessCount t) (hits t) (stores t).

Definition store (t : Table) (key : string) (depth : Z) (value : Score)
    (type : EntryType) (bestMove : option Move) : Table :=
  let t := if bool_decide (maxSize t <= Z.of_nat (length (table t))) then cleanup t else t in
  let replace :=
    match mapGet key (table t) with
    | None => true
    | Some existingEntry =>
      bool_decide (TT.depth existingEntry < depth) ||
      (bool_decide (TT.depth existingEntry = depth) && bool_decide (type = EXACT))
    end in
  if replace then
    mkTable (maxSize t)
      (mapSet key (mkEntry depth value type bestMove (accessCount t) 0) (table t))
      (accessCount t + 1) (hits t) (stores t + 1)
  else t.

(** What [lookup] returns: [null], the entry itself, or a copy of the
    entry with [useful: false]. *)
Inductive LookupResult :=
| Null
| Hit (entry : Entry)
| NotUseful (entry : Entry).

(** [cached && cached.useful !== false], the test of [negamax]. *)
Definition usable (r : LookupResult) : bool :=
  match r with Hit _ => true | _ => false end.

Definition lookup (t : Table) (key : string) (depth : Z) (alpha beta : Score)
  : LookupResult * Table :=
  match mapGet key (table t) with
  | None => (Null, t)
  | Some entry =>
    if bool_decide (TT.depth entry < depth) then (Null, t)
    else
      let entry :=
        mkEntry (TT.depth entry) (value entry) (type entry) (bestMove entry)
                (accessCount t) 0 in
      let t := mkTable (maxSize t) (mapSet key entry (table t))
                       (accessCount t + 1) (hits t + 1) (stores t) in
      if bool_decide (type entry = EXACT) then (Hit entry, t)
      else if bool_decide (type entry = LOWER_BOUND) && score_geb (value entry) beta
      then (Hit entry, t)
      else if bool_decide (type entry = UPPER_BOUND) && score_leb (value entry) alpha
      then (Hit entry, t)
      else (NotUseful entry, t)
  end.

End TT.

(** ** ai.move-ordering.js: the history table *)

Definition getMoveKey (move : Move) : string :=
  pretty (row (from move)) +:+ "," +:+ pretty (col (from move)) +:+ "-" +:+
  pretty (row (to move)) +:+ "," +:+ pretty (col (to move)).

(** [historyTable] is a [Map] from move keys to integers. *)
Definition updateHistory (move : Move) (depth : Z) (historyTable : gmap string Z)
  : gmap string Z :=
  let key := getMoveKey move in
  let current := default 0 (historyTable !! key) in
  let increment := depth * depth in
  let historyTable :=
    if bool_decide (10000 < current)
    then (fun v => v `div` 2) <$> historyTable
    else historyTable in
  <[key := current + increment]> historyTable.

(** ** ai.evaluation.js: mobility *)

Section Mobility.
Variable isDarkSquare : Z -> Z -> bool.

Definition evaluateMobilityDifferential (position : Position) : Z :=
  let ourMoves := Z.of_nat (length (generateMoves isDarkSquare position)) in
  let oppPosition :=
    mkPosition (pieces position) (otherPlayer (currentPlayer position)) [] in
  let theirMoves := Z.of_nat (length (generateMoves isDarkSquare oppPosition)) in
  let score := (ourMoves - theirMoves) * 5 in
  let score := if bool_decide (theirMoves <= 3) then score + 30 else score in
  let score := if bool_decide (theirMoves <= 1) then score + 70 else score in
  let score := if bool_decide (theirMoves = 0) then score + 200 else score in
  score.

End Mobility.

(** ** ai.safety.js *)

Definition getPieceValue (piece : Piece) : Z :=
  match piece with
  | WHITE | BLACK => 100
  | WHITE_KING | BLACK_KING => 450
  | NONE => 0
  end.

(** [afterMove.currentPlayer = ...] on the fresh object [makeMove] returned. *)
Definition setCurrentPlayer (position : Position) (player : Player) : Position :=
  mkPosition (pieces position) player (history position).

(** [recap.captures.some(cap => cap.row === sq.row && cap.col === sq.col)] *)
Definition capturesSquare (sq : Pos) (recap : Move) : bool :=
  containsPos (captures recap) sq.

(** The value of everything a move captures, read off the position. *)
Definition captureGain (position : Position) (move : Move) : Z :=
  foldl (fun gain cap => gain + getPieceValue (pieceAt (pieces position) cap))
        0 (captures move).

(** "Find the least valuable attacker": the first recapture whose piece is
    worth strictly less than every one before it; [bestRecaptureValue]
    starts at [Infinity], here [None]. *)
Definition leastValuableAttacker (afterMove : Position) (recaptures : list Move)
  : option Move :=
  (foldl (fun (best : option Move * option Z) recap =>
            let attackerValue :=
              getPieceValue (pieceAt (pieces afterMove) (from recap)) in
            match best.2 with
            | Some bestRecaptureValue =>
              if bool_decide (attackerValue < bestRecaptureValue)
              then (Some recap, Some attackerValue) else best
            | None => (Some recap, Some attackerValue)
            end)
         (None, None) recaptures).1.

(** [staticExchangeEvaluation]; [fuel] bounds the recursion on the
    continuation, [None] is "out of fuel". *)
Fixpoint seeFuel (fuel : nat) (position : Position) (move : Move) : option Z :=
  match fuel with
  | O => None
  | S fuel' =>
    if bool_decide (captures move = []) then Some 0
    else
      let gain := captureGain position move in
      let afterMove :=
        setCurrentPlayer (makeMove position move) (currentPlayer position) in
      let recaptures :=
        filter (fun recap => capturesSquare (to move) recap = true)
               (getAvailableCaptures afterMove) in
      if bool_decide (recaptures = []) then Some gain
      else
        match leastValuableAttacker afterMove recaptures with
        | Some bestRecapture =>
          let ourPieceValue := getPieceValue (pieceAt (pieces position) (from move)) in
          continuation ← seeFuel fuel' afterMove bestRecapture;
          Some (gain - ourPieceValue - continuation)
        | None => Some gain
        end
  end.

(** A capture removes a piece, so the recursion is no deeper than the
    number of squares. *)
Definition SEE_FUEL : nat := 101.

Definition staticExchangeEvaluation (position : Position) (move : Move) : Z :=
  default 0 (seeFuel SEE_FUEL position move).

(** The first piece met from [p] along [d] within [n] squares of the board. *)
Fixpoint firstPiece (n : nat) (g : Grid) (p : Pos) (d : Dir) : option Pos :=
  match n with
  | O => None
  | S k =>
    if validPos p then
      if bool_decide (pieceAt g p ≠ NONE) then Some p
      else firstPiece k g (step p d) d
    else None
  end.

Definition isKingOf (player : Player) (piece : Piece) : bool :=
  match player with
  | PWHITE => bool_decide (piece = WHITE_KING)
  | PBLACK => bool_decide (piece = BLACK_KING)
  end.

(** [countLongRangeAttackers]: the walk stops after 8 squares. *)
Definition countLongRangeAttackers (position : Position) (r c : Z)
    (attackingPlayer : Player) : nat :=
  length (filter
    (fun d =>
       match firstPiece 8 (pieces position) (step (mkPos r c) d) d with
       | Some p =>
         isKingOf attackingPlayer (pieceAt (pieces position) p) &&
         (let land := mkPos (r - dy d) (c - dx d) in
          validPos land && bool_decide (pieceAt (pieces position) land = NONE))
       | None => false
       end = true)
    KING_MOVES).

Definition countLongRangeDefenders (position : Position) (r c : Z)
    (player : Player) : nat :=
  length (filter
    (fun d =>
       match firstPiece SCAN (pieces position) (step (mkPos r c) d) d with
       | Some p => isKingOf player (pieceAt (pieces position) p)
       | None => false
       end = true)
    KING_MOVES).

Definition isProtected (position : Position) (r c : Z) (player : Player) : bool :=
  let opponent := otherPlayer player in
  let sq := mkPos r c in
  let protectors :=
    length (filter (fun d =>
      validPos (step sq d) &&
      isPlayerPiece (pieceAt (pieces position) (step sq d)) player = true)
      KING_MOVES) in
  let attackers :=
    length (filter (fun d =>
      validPos (step sq d) &&
      negb (isPlayerPiece (pieceAt (pieces position) (step sq d)) player) &&
      isPlayerPiece (pieceAt (pieces position) (step sq d)) opponent &&
      existsb (capturesSquare sq)
        (getPieceCapturesFrom (setCurrentPlayer position opponent) (step sq d)) = true)
      KING_MOVES) in
  let attackers := (attackers + countLongRangeAttackers position r c opponent)%nat in
  bool_decide (attackers ≤ protectors)%nat && bool_decide (0 < protectors)%nat.

Definition canDefend (defender target : Pos) : bool :=
  bool_decide (Z.abs (row defender - row target) = 1) &&
  bool_decide (Z.abs (col defender - col target) = 1).

Definition countDefenders (position : Position) (r c : Z) (player : Player) : nat :=
  let sq := mkPos r c in
  (length (filter (fun d =>
     validPos (step sq d) &&
     isPlayerPiece (pieceAt (pieces position) (step sq d)) player &&
     canDefend (step sq d) sq = true) KING_MOVES)
   + countLongRangeDefenders position r c player)%nat.

(** [countAttackers] as a function of the grid it is given: the captures
    of the attacker that take a dummy piece put on the square.  The write
    to the shared grid and its undoing are modelled in [Shared] below. *)
Definition countAttackers (position : Position) (r c : Z)
    (attackingPlayer : Player) : nat :=
  let dummyPiece := if bool_decide (attackingPlayer = PWHITE) then BLACK else WHITE in
  let testPosition :=
    mkPosition (setPiece (pieces position) (mkPos r c) dummyPiece)
               attackingPlayer (history position) in
  length (filter (fun move => capturesSquare (mkPos r c) move = true)
                 (getAvailableCaptures testPosition)).

Definition pieceOwner (piece : Piece) : Player :=
  if bool_decide (piece = WHITE) || bool_decide (piece = WHITE_KING)
  then PWHITE else PBLACK.

Definition evaluateExchange (position : Position) (r c : Z) : Z :=
  let piece := pieceAt (pieces position) (mkPos r c) in
  if bool_decide (piece = NONE) then 0
  else
    let player := pieceOwner piece in
    let opponent := otherPlayer player in
    let ourValue := getPieceValue piece in
    let defenders := countDefenders position r c player in
    let attackers := countAttackers position r c opponent in
    if bool_decide (attackers = 0%nat) then 0
    else if bool_decide (attackers ≤ defenders)%nat then 0
    else - ourValue.

Definition evaluateBestRecapture (position : Position) (r c : Z) : Z :=
  let opponent := otherPlayer (currentPlayer position) in
  let recapturePos := setCurrentPlayer position opponent in
  foldl (fun maxGain recap => Z.max maxGain (captureGain position recap))
        0 (getAvailableCaptures recapturePos).

Definition isMoveReallySafe (position : Position) (move : Move) : bool :=
  if negb (bool_decide (captures move = [])) then
    bool_decide (0 <= staticExchangeEvaluation position move)
  else
    let afterMove :=
      setCurrentPlayer (makeMove position move) (currentPlayer position) in
    let responses := getAvailableCaptures afterMove in
    if bool_decide (responses = []) then true
    else
      let movingPieceCanBeCaptured := existsb (capturesSquare (to move)) responses in
      if negb movingPieceCanBeCaptured then true
      else
        let ourPiece := pieceAt (pieces position) (from move) in
        let pieceValue := getPieceValue ourPiece in
        if isProtected afterMove (row (to move)) (col (to move)) (currentPlayer position)
        then
          let exchangeValue := evaluateExchange afterMove (row (to move)) (col (to move)) in
          Qle_bool (- inject_Z pieceValue / 2) (inject_Z exchangeValue)
        else
          let maxRecaptureGain :=
            evaluateBestRecapture afterMove (row (to move)) (col (to move)) in
          Qle_bool (inject_Z pieceValue * 0.8) (inject_Z maxRecaptureGain).

(** White to move: the man on (5,6) takes the man on (4,7) and lands on
    (3,8), where the man on (2,9) takes it back; nothing follows. *)
Definition evenTradePosition : Position :=
  mkPosition (place emptyGrid [(5, 6, WHITE); (4, 7, BLACK); (2, 9, BLACK)])
             PWHITE [].

Definition evenTradeMove : Move := mkMove (mkPos 5 6) (mkPos 3 8) [mkPos 4 7].

(** ** Positions as objects that share their grid

    [{...position}] and [{ pieces: position.pieces, ... }] make a new
    Position object around the same grid object; [makeMove] builds a new
    grid.  A store of grids, addressed by reference, tells the two apart.
    Rows are never shared between grids, so a grid is one cell of the
    store. *)

Module Shared.

Abbreviation Heap := (list (list (list Piece))).

Record PositionObj := mkObj {
  piecesRef : nat;
  player : Player;
  hist : list string
}.

Definition gridOf (h : Heap) (ref : nat) : Grid := default [] (h !! ref).

(** The position as the pure functions read it. *)
Definition view (h : Heap) (position : PositionObj) : Position :=
  mkPosition (gridOf h (piecesRef position)) (player position) (hist position).

(** [ref[r][c] = v] *)
Definition write (h : Heap) (ref : nat) (sq : Pos) (v : Piece) : Heap :=
  <[ref := setPiece (gridOf h ref) sq v]> h.

(** [makeMove]: the new grid is a new object. *)
Definition makeMove (h : Heap) (position : PositionObj) (move : Move)
  : PositionObj * Heap :=
  let result := makeMove (view h position) move in
  (mkObj (length h) (currentPlayer result) (history result),
   h ++ [pieces result]).

(** [countAttackers]: the dummy piece is written into the grid of the
    position it was given and the original piece is written back. *)
Definition countAttackers (h : Heap) (position : PositionObj) (r c : Z)
    (attackingPlayer : Player) : nat * Heap :=
  let testPosition :=
    mkObj (piecesRef position) attackingPlayer (hist position) in
  let originalPiece := pieceAt (gridOf h (piecesRef testPosition)) (mkPos r c) in
  let dummyPiece := if bool_decide (attackingPlayer = PWHITE) then BLACK else WHITE in
  let h := write h (piecesRef testPosition) (mkPos r c) dummyPiece in
  let available := getAvailableCaptures (view h testPosition) in
  let attackers :=
    length (filter (fun move => capturesSquare (mkPos r c) move = true) available) in
  let h := write h (piecesRef testPosition) (mkPos r c) originalPiece in
  (attackers, h).

Record Pin := mkPin {
  pinned : Pos;
  pinnedValue : Z;
  exposed : Pos;
  exposedValue : Z;
  pinner : Pos
}.

(** [Math.max(...values)] of a non-empty array. *)
Definition maxOf (values : list Z) : Z :=
  match values with
  | v :: rest => foldl Z.max v rest
  | [] => 0
  end.

(** The body of the loops of [detectPinsAndSkewers] for one square. *)
Definition detectAt (position : PositionObj) (st : list Pin * Heap) (sq : Pos)
  : list Pin * Heap :=
  let '(pins, h) := st in
  let piece := pieceAt (gridOf h (piecesRef position)) sq in
  if negb (isPlayerPiece piece (player position)) then (pins, h)
  else
    let opponent := otherPlayer (player position) in
    (* const testPos = { ...position }; testPos.pieces[r][c] = PIECE.NONE; *)
    let h := write h (piecesRef position) sq NONE in
    let testPos := mkObj (piecesRef position) opponent (hist position) in
    let available := getAvailableCaptures (view h testPos) in
    let found :=
      cap ← available;
      let exposedPieces :=
        filter (fun target => row target ≠ row sq ∨ col target ≠ col sq)
               (captures cap) in
      match exposedPieces with
      | first :: _ =>
        let pinnedValue := getPieceValue piece in
        let exposedValue :=
          maxOf (map (fun ep =>
                   getPieceValue (pieceAt (gridOf h (piecesRef position)) ep))
                   exposedPieces) in
        if bool_decide (pinnedValue < exposedValue)
        then [mkPin sq pinnedValue first exposedValue (from cap)]
        else []
      | [] => []
      end in
    (pins ++ found, h).

Definition detectPinsAndSkewers (h : Heap) (position : PositionObj)
  : list Pin * Heap :=
  foldl (detectAt position) ([], h) allSquares.

End Shared.

(** ** ai.evaluation.js

    The evaluation mixes integers with the decimal weights 0.5, 0.6, 0.8,
    1.2, 1.5 and with distances to the centre 4.5: the numbers are exact
    rationals here. *)

Definition MAN_PST : list (list Z) :=
  [[  0;  30;   0;  30;   0;  30;   0;  30;   0;  30];
   [ 25;   0;  28;   0;  28;   0;  28;   0;  28;   0];
   [  0;  22;   0;  25;   0;  25;   0;  25;   0;  22];
   [ 20;   0;  23;   0;  26;   0;  26;   0;  23;   0];
   [  0;  18;   0;  20;   0;  20;   0;  20;   0;  18];
   [ 15;   0;  17;   0;  17;   0;  17;   0;  17;   0];
   [  0;  10;   0;  12;   0;  12;   0;  12;   0;  10];
   [  5;   0;   8;   0;   8;   0;   8;   0;   8;   0];
   [  0;   0;   0;   5;   0;   5;   0;   5;   0;   0];
   [ -5;   0;  -5;   0;  -5;   0;  -5;   0;  -5;   0]].

Definition KING_PST : list (list Z) :=
  [[ -5;   0;  -5;   0;  -5;   0;  -5;   0;  -5;   0];
   [  0;   5;   0;  10;   0;  10;   0;  10;   0;   5];
   [ -5;   0;  15;   0;  20;   0;  20;   0;  15;   0];
   [  0;  10;   0;  25;   0;  30;   0;  25;   0;  10];
   [ -5;   0;  20;   0;  35;   0;  35;   0;  20;   0];
   [  0;  10;   0;  25;   0;  30;   0;  25;   0;  10];
   [ -5;   0;  15;   0;  20;   0;  20;   0;  15;   0];
   [  0;   5;   0;  10;   0;  10;   0;  10;   0;   5];
   [ -5;   0;  -5;   0;  -5;   0;  -5;   0;  -5;   0];
   [-10;   0; -10;   0; -10;   0; -10;   0; -10;   0]].

Definition tableAt (t : list (list Z)) (r c : Z) : Z :=
  default 0 (row ← t !! Z.to_nat r; row !! Z.to_nat c).

Definition isWhitePiece (piece : Piece) : bool :=
  bool_decide (piece = WHITE) || bool_decide (piece = WHITE_KING).

(** [{ row, col, piece }] *)
Record PieceInfo := mkInfo { i_pos : Pos; i_piece : Piece }.

(** The [pieces] object [evaluatePosition] collects. *)
Record Pieces := mkPieces {
  white : list PieceInfo;
  black : list PieceInfo;
  whiteKings : Z;
  blackKings : Z;
  whiteMen : Z;
  blackMen : Z
}.

Definition collectPieces (position : Position) : Pieces :=
  let infos :=
    omap (fun sq =>
            let piece := pieceAt (pieces position) sq in
            if bool_decide (piece = NONE) then None else Some (mkInfo sq piece))
         allSquares in
  let w := filter (fun p => isWhitePiece (i_piece p) = true) infos in
  let b := filter (fun p => isWhitePiece (i_piece p) = false) infos in
  let kings l := Z.of_nat (length (filter (fun p => isKingPiece (i_piece p) = true) l)) in
  let men l := Z.of_nat (length (filter (fun p => isKingPiece (i_piece p) = false) l)) in
  mkPieces w b (kings w) (kings b) (men w) (men b).

Definition centerDistance (r c : Z) : Q :=
  (Qabs (inject_Z r - 4.5) + Qabs (inject_Z c - 4.5))%Q.

Definition evaluatePiecePositionFlipped (pieceInfo : PieceInfo) (isWhite : bool)
    (gamePhase : Phase) : Q :=
  let r := row (i_pos pieceInfo) in
  let c := col (i_pos pieceInfo) in
  let isKing := isKingPiece (i_piece pieceInfo) in
  let mirroredCol := 9 - c in
  let score :=
    if isKing then
      let s := inject_Z (if isWhite then tableAt KING_PST r mirroredCol
                         else tableAt KING_PST (9 - r) mirroredCol) in
      if bool_decide (gamePhase = endgame)
      then (s + (15 - centerDistance r mirroredCol) * 2)%Q else s
    else
      let s := if isWhite then tableAt MAN_PST r mirroredCol
               else tableAt MAN_PST (9 - r) mirroredCol in
      inject_Z
        (if isWhite then
           s + r * 3 + (if bool_decide (7 <= r) then 20 else 0)
             + (if bool_decide (r = 8) then 30 else 0)
         else
           s + (9 - r) * 3 + (if bool_decide (r <= 2) then 20 else 0)
             + (if bool_decide (r = 1) then 30 else 0)) in
  if negb isKing &&
     (bool_decide (r = 0) || bool_decide (r = 9) ||
      bool_decide (c = 0) || bool_decide (c = 9))
  then (score - 5)%Q else score.

Definition sumZ (l : list Z) : Z := foldl Z.add 0 l.
Definition sumQ (l : list Q) : Q := foldl Qplus 0%Q l.

Section Evaluation.
Variable isDarkSquare : Z -> Z -> bool.

(** Modelled from the spec: the numeric codes of PIECE and PLAYER that
    [generateKey] concatenates, as the edit panel of index.html and the
    null move of [negamax] show them. *)
Definition pieceCode (piece : Piece) : string :=
  match piece with
  | NONE => "0" | WHITE => "1" | BLACK => "2"
  | WHITE_KING => "3" | BLACK_KING => "4"
  end.

Definition playerCode (p : Player) : string :=
  match p with PWHITE => "1" | PBLACK => "2" end.

Definition generateKey (position : Position) : string :=
  foldl (fun key sq =>
           if isDarkSquare (row sq) (col sq)
           then key +:+ pieceCode (pieceAt (pieces position) sq) else key)
        "" allSquares
  +:+ playerCode (currentPlayer position).

Definition countAttackersOn (position : Position) (target : PieceInfo)
    (attackingPlayer : Player) : Z :=
  let attackPos := mkPosition (pieces position) attackingPlayer [] in
  Z.of_nat (length (filter (fun move => capturesSquare (i_pos target) move = true)
                           (getAvailableCaptures attackPos))).

Definition countDefendersOf (position : Position) (target : PieceInfo)
    (defendingPlayer : Player) : Z :=
  Z.of_nat (length (filter
    (fun d => validPos (step (i_pos target) d) &&
              isPlayerPiece (pieceAt (pieces position) (step (i_pos target) d))
                            defendingPlayer = true)
    KING_MOVES)).

Definition detectForks (position : Position) (player : Player) : Z :=
  let testPos := mkPosition (pieces position) player [] in
  Z.of_nat (length (filter (fun move => (2 ≤ length (captures move))%nat)
                           (generateMoves isDarkSquare testPos))).

Definition evaluateTacticalThreats (position : Position) (ps : Pieces) : Z :=
  let onBlack :=
    sumZ (map (fun target =>
      let attackers := countAttackersOn position target PWHITE in
      let defenders := countDefendersOf position target PBLACK in
      if bool_decide (defenders < attackers)
      then (if bool_decide (i_piece target = BLACK_KING) then 150 else 60)
           * (attackers - defenders)
      else 0) (black ps)) in
  let onWhite :=
    sumZ (map (fun target =>
      let attackers := countAttackersOn position target PBLACK in
      let defenders := countDefendersOf position target PWHITE in
      if bool_decide (defenders < attackers)
      then (if bool_decide (i_piece target = WHITE_KING) then 150 else 60)
           * (attackers - defenders)
      else 0) (white ps)) in
  onBlack - onWhite
  + detectForks position PWHITE * 40 - detectForks position PBLACK * 40.

Definition keySquares : list (Pos * Z) :=
  [(mkPos 4 4, 10); (mkPos 4 5, 10); (mkPos 5 4, 10); (mkPos 5 5, 10);
   (mkPos 3 3, 7); (mkPos 3 6, 7); (mkPos 6 3, 7); (mkPos 6 6, 7)].

Definition evaluateStrategicControl (position : Position) (gamePhase : Phase) : Q :=
  let centre :=
    sumQ (map (fun sq =>
      let piece := pieceAt (pieces position) sq.1 in
      if bool_decide (piece = NONE) then 0%Q
      else
        let controlValue :=
          (inject_Z sq.2 * (if bool_decide (gamePhase = middlegame) then 1.5 else 1))%Q in
        if isWhitePiece piece then controlValue else (- controlValue)%Q)
      keySquares) in
  let backRank :=
    sumZ (map (fun c =>
      (if isPlayerPiece (pieceAt (pieces position) (mkPos 0 c)) PWHITE then 20 else 0)
      - (if isPlayerPiece (pieceAt (pieces position) (mkPos 9 c)) PBLACK then 20 else 0))
      (seqZ 0 BOARD_SIZE)) in
  (centre + inject_Z backRank)%Q.

(** The chain loop of [getFormationScore]: how many of the squares
    [p], [p + (1,1)], ... are in the set, at most [n]. *)
Fixpoint chainFrom (n : nat) (positions : gset string) (p : Pos) : Z :=
  match n with
  | O => 0
  | S k => if bool_decide (posKey p ∈ positions)
           then 1 + chainFrom k positions (step p (mkDir 1 1)) else 0
  end.

Definition countProtectors (positions : gset string) (p : Pos) : Z :=
  Z.of_nat (length (filter (fun d => posKey (step p d) ∈ positions) KING_MOVES)).

Definition getFormationScore (ps : list PieceInfo) : Z :=
  let positions : gset string := list_to_set (map (fun p => posKey (i_pos p)) ps) in
  sumZ (map (fun piece =>
    let p := i_pos piece in
    let triangle :=
      if bool_decide (posKey (step p (mkDir 1 (-1))) ∈ positions) &&
         bool_decide (posKey (step p (mkDir 1 1)) ∈ positions)
      then 15 else 0 in
    let chainLength := 1 + chainFrom (length ps) positions (step p (mkDir 1 1)) in
    let chain := if bool_decide (3 <= chainLength) then chainLength * 8 else 0 in
    let phalanx :=
      if bool_decide (posKey (step p (mkDir 0 2)) ∈ positions) ||
         bool_decide (posKey (step p (mkDir 0 (-2))) ∈ positions)
      then 5 else 0 in
    triangle + chain + phalanx + countProtectors positions p * 6) ps).

Definition evaluateFormations (ps : Pieces) : Q :=
  (inject_Z (getFormationScore (white ps)) * 1.2
   - inject_Z (getFormationScore (black ps)) * 1.2)%Q.

(** The king's loop of [getThreatenedSquares]: squares and values. *)
Fixpoint kingThreats (n : nat) (g : Grid) (p : Pos) (d : Dir) (distance : Z)
  : list (Pos * Z) :=
  match n with
  | O => []
  | S k =>
    if validPos p && bool_decide (distance <= 7) then
      (p, Z.max (5 - distance) 1) ::
      (if bool_decide (pieceAt g p ≠ NONE) then []
       else kingThreats k g (step p d) d (distance + 1))
    else []
  end.

Definition getThreatenedSquares (position : Position) (piece : PieceInfo)
  : list (Pos * Z) :=
  d ← KING_MOVES;
  if isKingPiece (i_piece piece)
  then kingThreats 7 (pieces position) (step (i_pos piece) d) d 1
  else if validPos (step (i_pos piece) d) then [(step (i_pos piece) d, 3)] else [].

(** [heat[row][col]] of [getThreatHeatmap(position, enemyPieces)]. *)
Definition heatAt (position : Position) (enemyPieces : list PieceInfo) (sq : Pos) : Z :=
  sumZ (map snd
    (filter (fun threat => validPos threat.1 = true ∧ threat.1 = sq)
            (enemy ← enemyPieces; getThreatenedSquares position enemy))).

Definition evaluateHeatmaps (position : Position) (ps : Pieces) : Z :=
  let onWhite :=
    sumZ (map (fun p =>
      let threat := heatAt position (black ps) (i_pos p) in
      if bool_decide (0 < threat) then threat * 3 else 0) (white ps)) in
  let onBlack :=
    sumZ (map (fun p =>
      let threat := heatAt position (white ps) (i_pos p) in
      if bool_decide (0 < threat) then threat * 3 else 0) (black ps)) in
  onBlack - onWhite.

Definition evaluateOpposition (position : Position) (ps : Pieces) : Z :=
  if bool_decide (whiteKings ps = 1) && bool_decide (blackKings ps = 1) then
    match find (fun p => bool_decide (i_piece p = WHITE_KING)) (white ps),
          find (fun p => bool_decide (i_piece p = BLACK_KING)) (black ps) with
    | Some whiteKing, Some blackKing =>
      let rowDiff := Z.abs (row (i_pos whiteKing) - row (i_pos blackKing)) in
      let colDiff := Z.abs (col (i_pos whiteKing) - col (i_pos blackKing)) in
      if (bool_decide (rowDiff = 2) && bool_decide (colDiff = 0)) ||
         (bool_decide (rowDiff = 0) && bool_decide (colDiff = 2))
      then (if bool_decide (currentPlayer position = PWHITE) then 1 else -1)
      else 0
    | _, _ => 0
    end
  else 0.

Definition evaluateEndgame (position : Position) (ps : Pieces) : Q :=
  let totalPieces := Z.of_nat (length (white ps) + length (black ps)) in
  let kingsOnly :=
    if bool_decide (whiteMen ps = 0) && bool_decide (blackMen ps = 0) then
      let kingDiff := whiteKings ps - blackKings ps in
      let central l king :=
        sumQ (map (fun p =>
          if bool_decide (i_piece p = king)
          then (15 - centerDistance (row (i_pos p)) (col (i_pos p)))%Q else 0%Q) l) in
      (inject_Z (kingDiff * 200)
       + (if bool_decide (Z.abs kingDiff <= 1)%Z
          then central (white ps) WHITE_KING - central (black ps) BLACK_KING
          else 0))%Q
    else 0%Q in
  if bool_decide (totalPieces <= 6)
  then (kingsOnly + inject_Z (evaluateOpposition position ps * 50))%Q
  else kingsOnly.

Record Weights := mkWeights {
  w_mobility : Q; w_tactics : Q; w_control : Q;
  w_formations : Q; w_threats : Q; w_endgame : Q
}.

Definition getPhaseWeights (gamePhase : Phase) : Weights :=
  match gamePhase with
  | opening => mkWeights 2.0 1.0 1.5 1.2 0.8 0
  | middlegame => mkWeights 1.5 1.5 1.2 1.0 1.2 0
  | endgame => mkWeights 0.8 1.0 0.8 0.5 0.6 2.0
  end.

(** [evaluatePosition] past the cache: the score and whether it is stored
    (the two early returns for a side without pieces store nothing). *)
Definition evaluateFresh (position : Position) : Q * bool :=
  let ps := collectPieces position in
  if bool_decide (white ps = [])
  then ((if bool_decide (currentPlayer position = PBLACK) then 10000 else -10000)%Q, false)
  else if bool_decide (black ps = [])
  then ((if bool_decide (currentPlayer position = PWHITE) then 10000 else -10000)%Q, false)
  else
    let gamePhase := getGamePhase position in
    let whiteMaterial := whiteMen ps * 100 + whiteKings ps * 450 in
    let blackMaterial := blackMen ps * 100 + blackKings ps * 450 in
    let score := inject_Z (whiteMaterial - blackMaterial) in
    let score :=
      (score + sumQ (map (fun p => evaluatePiecePositionFlipped p true gamePhase) (white ps)))%Q in
    let score :=
      (score - sumQ (map (fun p => evaluatePiecePositionFlipped p false gamePhase) (black ps)))%Q in
    let mobility := inject_Z (evaluateMobilityDifferential isDarkSquare position) in
    let threats := inject_Z (evaluateTacticalThreats position ps) in
    let control := evaluateStrategicControl position gamePhase in
    let formations := evaluateFormations ps in
    let heatmapScore := inject_Z (evaluateHeatmaps position ps) in
    let endgameScore :=
      if bool_decide (gamePhase = endgame) then evaluateEndgame position ps else 0%Q in
    let weights := getPhaseWeights gamePhase in
    let score :=
      (score + mobility * w_mobility weights + threats * w_tactics weights
       + control * w_control weights + formations * w_formations weights
       + heatmapScore * w_threats weights + endgameScore * w_endgame weights)%Q in
    let score :=
      (score + (if bool_decide (currentPlayer position = PWHITE) then 10 else -10))%Q in
    let finalScore :=
      if bool_decide (currentPlayer position = PWHITE) then score else (- score)%Q in
    (finalScore, true).

(** [evaluatePosition(ai, position)] on the evaluation cache of [ai]. *)
Definition evaluatePosition (evalCache : gmap string Q) (position : Position)
  : Q * gmap string Q :=
  let cacheKey := generateKey position in
  match evalCache !! cacheKey with
  | Some cached => (cached, evalCache)
  | None =>
    let '(finalScore, stored) := evaluateFresh position in
    (finalScore, if stored then <[cacheKey := finalScore]> evalCache else evalCache)
  end.

End Evaluation.

(** ** ai.tactics.js: the value of a capture *)

Definition maxZ (values : list Z) : Z :=
  match values with
  | v :: rest => foldl Z.max v rest
  | [] => 0
  end.

Definition hasAdjacentDefender (position : Position) (sq : Pos) (player : Player) : bool :=
  existsb (fun d => validPos (step sq d) &&
                    isPlayerPiece (pieceAt (pieces position) (step sq d)) player)
          KING_MOVES.

Definition canPieceBeAttacked (position : Position) (sq : Pos) (player : Player) : bool :=
  let testPos := setCurrentPlayer position (otherPlayer player) in
  existsb (capturesSquare sq) (getAvailableCaptures testPos).

Definition countExposedPieces (position : Position) (player : Player) : Z :=
  Z.of_nat (length (filter
    (fun sq => isPlayerPiece (pieceAt (pieces position) sq) player &&
               negb (hasAdjacentDefender position sq player) &&
               canPieceBeAttacked position sq player = true)
    allSquares)).

Section Tactics.
Variable isDarkSquare : Z -> Z -> bool.

Definition evaluateCapturePositional (position : Position) (move : Move) : Z :=
  let afterMove := makeMove position move in
  let mobility := Z.of_nat (length (generateMoves isDarkSquare afterMove)) in
  let piece := pieceAt (pieces position) (from move) in
  let promotionRow := if isWhitePiece piece then 0 else 9 in
  let distanceToPromotion := Z.abs (row (to move) - promotionRow) in
  mobility * 2
  + (if bool_decide (distanceToPromotion <= 2) then (3 - distanceToPromotion) * 20 else 0)
  - countExposedPieces afterMove (currentPlayer position) * 15.

Definition evaluateCaptureSequence (position : Position) (move : Move) : Q :=
  if bool_decide (captures move = []) then 0%Q
  else
    let value := captureGain position move + Z.of_nat (length (captures move)) * 20 in
    let movingPiece := pieceAt (pieces position) (from move) in
    let value := if shouldPromote movingPiece (row (to move)) then value + 250 else value in
    let afterMove := makeMove position move in
    let followUpCaptures := getAvailableCaptures afterMove in
    let value :=
      if bool_decide (followUpCaptures = []) then inject_Z value
      else (inject_Z value
            + inject_Z (maxZ (map (captureGain afterMove) followUpCaptures)) * 0.5)%Q in
    let afterMove := setCurrentPlayer afterMove (currentPlayer position) in
    let counterCaptures := getAvailableCaptures afterMove in
    let value :=
      if bool_decide (counterCaptures = []) then value
      else
        let maxCounterDamage :=
          foldl (fun acc counter =>
                   let damage := captureGain afterMove counter in
                   if capturesSquare (to move) counter
                   then Z.max acc (damage + getPieceValue movingPiece)
                   else Z.max acc damage)
                0 counterCaptures in
        (value - inject_Z maxCounterDamage * 0.8)%Q in
    (value + inject_Z (evaluateCapturePositional position move))%Q.

End Tactics.

(** ** ai.move-ordering.js: scores of root moves *)

Definition isSameMove (move1 : Move) (move2 : option Move) : bool :=
  match move2 with
  | Some m2 => bool_decide (from move1 = from m2) && bool_decide (to move1 = to m2)
  | None => false
  end.

Definition evaluateMaterial (position : Position) : Z :=
  sumZ (map (fun sq =>
    match pieceAt (pieces position) sq with
    | WHITE => 100 | WHITE_KING => 450
    | BLACK => -100 | BLACK_KING => -450
    | NONE => 0
    end) allSquares).

(** [updateKillerMoves]; a ply without a row in the table changes nothing. *)
Definition updateKillerMoves (move : Move) (ply : nat)
    (killerMoves : list (option Move * option Move))
  : list (option Move * option Move) :=
  match killerMoves !! ply with
  | None => killerMoves
  | Some slots =>
    if negb (bool_decide (captures move = [])) then killerMoves
    else if isSameMove move slots.1 then killerMoves
    else <[ply := (Some move, slots.1)]> killerMoves
  end.

(** [quickEvaluateMove] without the random term that levels 1 to 3 add. *)
Definition quickEvaluateStatic (position : Position) (move : Move) : Q :=
  let piece := pieceAt (pieces position) (from move) in
  let isCapture := negb (bool_decide (captures move = [])) in
  let nextPosition := makeMove position move in
  let score := inject_Z (evaluateMaterial nextPosition) in
  let score :=
    if negb isCapture && bool_decide (staticExchangeEvaluation position move < 0)
    then (score - 80)%Q else score in
  let score :=
    if isCapture then (score + inject_Z (captureGain position move) * 1.25)%Q
    else score in
  let protected :=
    isProtected nextPosition (row (to move)) (col (to move))
                (currentPlayer nextPosition) in
  let score := if protected then (score + 15)%Q else score in
  let score := if negb protected then (score - 30)%Q else score in
  let distToPromotion :=
    Z.abs (row (to move) - (if bool_decide (piece = WHITE) then 0 else 9)) in
  let score :=
    if negb (isKingPiece piece) && bool_decide (distToPromotion <= 2)
    then (score + inject_Z ((3 - distToPromotion) * 40))%Q else score in
  if bool_decide (countTotalPieces position ≤ 12)%nat && isKingPiece piece
  then (score + (15 - centerDistance (row (to move)) (col (to move))) * 2)%Q
  else score.

(** ** Arithmetic on scores *)

Definition score_neg (a : Score) : Score :=
  match a with
  | NegInfinity => Infinity
  | Finite q => Finite (- q)
  | Infinity => NegInfinity
  end.

Definition score_addQ (a : Score) (q : Q) : Score :=
  match a with Finite x => Finite (x + q) | _ => a end.

Definition score_ltb (a b : Score) : bool := negb (score_leb b a).

Definition score_max (a b : Score) : Score := if score_leb a b then b else a.

(** [Math.abs(a) < bound] and [Math.abs(a) > bound] *)
Definition score_abs_ltb (a : Score) (bound : Q) : bool :=
  match a with Finite x => negb (Qle_bool bound (Qabs x)) | _ => false end.

Definition score_abs_gtb (a : Score) (bound : Q) : bool :=
  match a with Finite x => negb (Qle_bool (Qabs x) bound) | _ => true end.

(** ** The engine object *)

(** The opening book is an external collaborator. *)
Record OpeningBook := mkBook {
  getMove : Position -> list string -> option Move;
  isBookMove : Position -> Move -> bool
}.

(** The fields of [GrandmasterAI] the search reads and writes, and how
    often the wall clock and the random generator were consulted. *)
Record AI := mkAI {
  level : Z;
  nodeCount : Z;
  searchAborted : bool;
  maxRecursionDepth : Z;
  quiescenceDepth : Z;
  positionHistory : list string;
  killerMoves : list (option Move * option Move);
  historyTable : gmap string Z;
  cache : TT.Table;
  evalCache : gmap string Q;
  openingBook : option OpeningBook;
  clockReads : nat;
  randomDraws : nat
}.

Definition withNodeCount (ai : AI) (n : Z) : AI :=
  mkAI (level ai) n (searchAborted ai) (maxRecursionDepth ai) (quiescenceDepth ai)
       (positionHistory ai) (killerMoves ai) (historyTable ai) (cache ai)
       (evalCache ai) (openingBook ai) (clockReads ai) (randomDraws ai).

Definition withAborted (ai : AI) (b : bool) : AI :=
  mkAI (level ai) (nodeCount ai) b (maxRecursionDepth ai) (quiescenceDepth ai)
       (positionHistory ai) (killerMoves ai) (historyTable ai) (cache ai)
       (evalCache ai) (openingBook ai) (clockReads ai) (randomDraws ai).

Definition withPositionHistory (ai : AI) (h : list string) : AI :=
  mkAI (level ai) (nodeCount ai) (searchAborted ai) (maxRecursionDepth ai)
       (quiescenceDepth ai) h (killerMoves ai) (historyTable ai) (cache ai)
       (evalCache ai) (openingBook ai) (clockReads ai) (randomDraws ai).

Definition withKillerMoves (ai : AI) (k : list (option Move * option Move)) : AI :=
  mkAI (level ai) (nodeCount ai) (searchAborted ai) (maxRecursionDepth ai)
       (quiescenceDepth ai) (positionHistory ai) k (historyTable ai) (cache ai)
       (evalCache ai) (openingBook ai) (clockReads ai) (randomDraws ai).

Definition withCache (ai : AI) (c : TT.Table) : AI :=
  mkAI (level ai) (nodeCount ai) (searchAborted ai) (maxRecursionDepth ai)
       (quiescenceDepth ai) (positionHistory ai) (killerMoves ai) (historyTable ai) c
       (evalCache ai) (openingBook ai) (clockReads ai) (randomDraws ai).

Definition withEvalCache (ai : AI) (c : gmap string Q) : AI :=
  mkAI (level ai) (nodeCount ai) (searchAborted ai) (maxRecursionDepth ai)
       (quiescenceDepth ai) (positionHistory ai) (killerMoves ai) (historyTable ai)
       (cache ai) c (openingBook ai) (clockReads ai) (randomDraws ai).

Definition withClockReads (ai : AI) (n : nat) : AI :=
  mkAI (level ai) (nodeCount ai) (searchAborted ai) (maxRecursionDepth ai)
       (quiescenceDepth ai) (positionHistory ai) (killerMoves ai) (historyTable ai)
       (cache ai) (evalCache ai) (openingBook ai) n (randomDraws ai).

Definition withRandomDraws (ai : AI) (n : nat) : AI :=
  mkAI (level ai) (nodeCount ai) (searchAborted ai) (maxRecursionDepth ai)
       (quiescenceDepth ai) (positionHistory ai) (killerMoves ai) (historyTable ai)
       (cache ai) (evalCache ai) (openingBook ai) (clockReads ai) n.

(** [Array(100).fill(null).map(() => [null, null])] *)
Definition freshKillerMoves : list (option Move * option Move) :=
  replicate 100 (None, None).

(** ** ai.params.js *)

Definition MAX_DEPTH (level : Z) : Z :=
  if bool_decide (level = 1) then 4 else if bool_decide (level = 2) then 6
  else if bool_decide (level = 3) then 8 else if bool_decide (level = 4) then 10
  else if bool_decide (level = 5) then 12 else if bool_decide (level = 6) then 14
  else 6.

Definition TIME_ALLOCATION (level : Z) : Z :=
  if bool_decide (level = 1) then 500 else if bool_decide (level = 2) then 1000
  else if bool_decide (level = 3) then 2000 else if bool_decide (level = 4) then 4000
  else if bool_decide (level = 5) then 8000 else if bool_decide (level = 6) then 15000
  else 3000.

Definition COMPLEX_POSITION_MULTIPLIER (level : Z) : Q :=
  if bool_decide (level = 1) then 1.0 else if bool_decide (level = 2) then 1.1
  else if bool_decide (level = 3) then 1.2 else if bool_decide (level = 4) then 1.3
  else if bool_decide (level = 5) then 1.5 else if bool_decide (level = 6) then 1.8
  else 1.0.

Definition INITIAL_DELTA : Q := 50.

(** ** ai.search.js *)

Record SearchResult := mkResult {
  r_move : option Move;
  r_score : Score;
  r_timeout : bool
}.

Section Search.

Variable isDarkSquare : Z -> Z -> bool.

(** The wall clock: what the n-th call of [Date.now()] returns. *)
Variable clock : nat -> Z.

(** The random generator: [Math.floor(Math.random() * 5)] of the n-th draw. *)
Variable random5 : nat -> Z.

(** The move loop of [negamax] (the code after the test for no legal move:
    extension, null move, ordering, the recursive calls, the table store)
    and the capture loop of [quiescenceSearch].  They are parameters: the
    properties below hold whatever they return. *)
Variable negamaxMoves :
  AI -> Position -> Z -> Score -> Score -> Z -> Q -> Z -> Z -> string ->
  list Move -> Score * AI.
Variable quiescenceCaptures :
  AI -> Position -> Score -> Score -> Z -> Z -> Q -> Z -> Score ->
  list Move -> Score * AI.

Definition dateNow (ai : AI) : Z * AI :=
  (clock (clockReads ai), withClockReads ai (S (clockReads ai))).

(** [Date.now() - startTime > timeLimit] *)
Definition timeExceeded (now startTime : Z) (timeLimit : Q) : bool :=
  negb (Qle_bool (inject_Z (now - startTime)) timeLimit).

Definition evaluate (ai : AI) (position : Position) : Score * AI :=
  let '(score, evalCache) := evaluatePosition isDarkSquare (evalCache ai) position in
  (Finite score, withEvalCache ai evalCache).

Definition quiescenceSearch (ai : AI) (position : Position) (alpha beta : Score)
    (depth startTime : Z) (timeLimit : Q) (recursionDepth : Z) : Score * AI :=
  let ai := withNodeCount ai (nodeCount ai + 1) in
  if bool_decide (depth <= 0) ||
     bool_decide (maxRecursionDepth ai + 10 < recursionDepth)
  then evaluate ai position
  else
    let '(standPat, ai) := evaluate ai position in
    if score_geb standPat beta then (beta, ai)
    else if score_ltb standPat (score_addQ alpha (-500)) then (alpha, ai)
    else
      let alpha := if score_ltb alpha standPat then standPat else alpha in
      let captures := getAvailableCaptures position in
      if bool_decide (captures = []) then (standPat, ai)
      else quiescenceCaptures ai position alpha beta depth startTime timeLimit
             recursionDepth standPat captures.

Definition negamax (ai : AI) (position : Position) (depth : Z) (alpha beta : Score)
    (startTime : Z) (timeLimit : Q) (recursionDepth ply : Z) : Score * AI :=
  let ai := withNodeCount ai (nodeCount ai + 1) in
  if bool_decide (maxRecursionDepth ai < recursionDepth) then evaluate ai position
  else
    let '(timeIsUp, ai) :=
      if bool_decide (nodeCount ai mod 2048 = 0) then
        let '(now, ai) := dateNow ai in (timeExceeded now startTime timeLimit, ai)
      else (false, ai) in
    if timeIsUp then (ofZ 0, withAborted ai true)
    else
      let key := generateKey isDarkSquare position in
      if bool_decide (2 ≤ length (filter (fun k => k = key) (history position)))%nat
      then (ofZ (-50), ai)
      else if bool_decide (depth <= 0)
      then quiescenceSearch ai position alpha beta (quiescenceDepth ai)
             startTime timeLimit recursionDepth
      else
        let '(cached, cache) := TT.lookup (cache ai) key depth alpha beta in
        let ai := withCache ai cache in
        match cached with
        | TT.Hit entry => (TT.value entry, ai)
        | _ =>
          let moves := generateMoves isDarkSquare position in
          if bool_decide (moves = []) then (ofZ (-10000 + ply), ai)
          else negamaxMoves ai position depth alpha beta startTime timeLimit
                 recursionDepth ply key moves
        end.

(** [quickEvaluateMove]: the static part, and at levels 1 to 3 a random
    term between -2 and 2. *)
Definition quickEvaluateMove (ai : AI) (position : Position) (move : Move) : Q * AI :=
  let score := quickEvaluateStatic position move in
  if bool_decide (level ai <= 3)
  then ((score + inject_Z (random5 (randomDraws ai) - 2))%Q,
        withRandomDraws ai (S (randomDraws ai)))
  else (score, ai).

(** The score [orderMovesAtRoot] writes into [move.orderScore]. *)
Definition rootOrderScore (ai : AI) (position : Position) (move : Move) : Q * AI :=
  let '(quick, ai) := quickEvaluateMove ai position move in
  let score := (quick * 10)%Q in
  let score := if negb (isMoveReallySafe position move) then (score - 1000)%Q else score in
  let afterMove := makeMove position move in
  let threats :=
    filter (fun m => captures m ≠ []) (getAvailableCaptures afterMove) in
  let score := (score + inject_Z (Z.of_nat (length threats) * 20))%Q in
  let afterMove := setCurrentPlayer afterMove (currentPlayer position) in
  let opponentMoves := Z.of_nat (length (generateMoves isDarkSquare afterMove)) in
  let score :=
    if bool_decide (opponentMoves <= 5)
    then (score + inject_Z ((10 - opponentMoves) * 15))%Q else score in
  let '(ttEntry, cache) :=
    TT.lookup (cache ai) (generateKey isDarkSquare position) 0 NegInfinity Infinity in
  let ai := withCache ai cache in
  let hashMove :=
    match ttEntry with
    | TT.Hit e | TT.NotUseful e => isSameMove move (TT.bestMove e)
    | TT.Null => false
    end in
  let score := if hashMove then (score + 500)%Q else score in
  let score :=
    match openingBook ai with
    | Some book => if isBookMove book position move then (score + 300)%Q else score
    | None => score
    end in
  (score, ai).

(** [orderMovesAtRoot]: score every move in turn, then sort by the score,
    highest first. *)
Definition orderMovesAtRoot (ai : AI) (moves : list Move) (position : Position)
  : list Move * AI :=
  let '(scored, ai) :=
    foldl (fun (acc : list (Move * Q) * AI) move =>
             let '(score, ai) := rootOrderScore acc.2 position move in
             (acc.1 ++ [(move, score)], ai))
          ([], ai) moves in
  (map fst (TT.sortByQ (fun a b => (b.2 - a.2)%Q) scored), ai).

(** [bestMove || moves[0]] *)
Definition orFirst (bestMove : option Move) (moves : list Move) : option Move :=
  match bestMove with Some m => Some m | None => head moves end.

(** The loop of [searchBestMove] over the ordered moves; [first] tells the
    first iteration, [ordered] is the whole array. *)
Fixpoint searchLoop (rest ordered : list Move) (first : bool) (position : Position)
    (depth : Z) (alpha beta : Score) (startTime : Z) (timeLimit : Q)
    (bestMove : option Move) (bestScore : Score) (ai : AI) : SearchResult * AI :=
  match rest with
  | [] => (mkResult (orFirst bestMove ordered) bestScore false, ai)
  | move :: rest' =>
    let '(now, ai) := dateNow ai in
    if timeExceeded now startTime timeLimit || searchAborted ai
    then (mkResult (orFirst bestMove ordered) bestScore true, ai)
    else
      let made := makeMove position move in
      let newPosition :=
        mkPosition (pieces made) (currentPlayer made)
                   (history position ++ [generateKey isDarkSquare position]) in
      let '(score, ai) :=
        if first then
          let '(s, ai) := negamax ai newPosition (depth - 1) (score_neg beta)
                            (score_neg alpha) startTime timeLimit 0 1 in
          (score_neg s, ai)
        else
          let '(s, ai) := negamax ai newPosition (depth - 1)
                            (score_addQ (score_neg alpha) (-1)) (score_neg alpha)
                            startTime timeLimit 0 1 in
          let score := score_neg s in
          if score_ltb alpha score && score_ltb score beta then
            let '(s, ai) := negamax ai newPosition (depth - 1) (score_neg beta)
                              (score_neg alpha) startTime timeLimit 0 1 in
            (score_neg s, ai)
          else (score, ai) in
      let '(bestScore, bestMove) :=
        if score_ltb bestScore score then (score, Some move)
        else (bestScore, bestMove) in
      let alpha := score_max alpha score in
      if score_geb alpha beta
      then (mkResult (orFirst bestMove ordered) bestScore false,
            withKillerMoves ai (updateKillerMoves move 0 (killerMoves ai)))
      else searchLoop rest' ordered false position depth alpha beta startTime
             timeLimit bestMove bestScore ai
  end.

Definition searchBestMove (ai : AI) (position : Position) (depth : Z)
    (alpha beta : Score) (startTime : Z) (timeLimit : Q) : SearchResult * AI :=
  let '(moves, ai) :=
    orderMovesAtRoot ai (generateMoves isDarkSquare position) position in
  searchLoop moves moves true position depth alpha beta startTime timeLimit
             None NegInfinity ai.

(** [quickTacticalScan]: the forced move, if there is one. *)
Definition quickTacticalScan (position : Position) (moves : list Move) : option Move :=
  let captures := filter (fun m => captures m ≠ []) moves in
  let value := evaluateCaptureSequence isDarkSquare position in
  match TT.sortByQ (fun a b => (value b - value a)%Q) captures with
  | [] => None
  | [only] => Some only
  | best :: second :: _ =>
    if negb (Qle_bool (value best) (value second + 100)) then Some best else None
  end.

Definition allocateTime (ai : AI) (position : Position) (moveNumber : Z)
    (baseTime : Z) : Q :=
  let time := inject_Z baseTime in
  let time := if bool_decide (moveNumber < 10) then (time * 0.7)%Q else time in
  let time :=
    if bool_decide (countTotalPieces position ≤ 10)%nat then (time * 1.5)%Q else time in
  let captures := getAvailableCaptures position in
  let time :=
    if bool_decide (captures = []) then time
    else
      let maxCaptures := maxZ (map nCaptures captures) in
      if bool_decide (3 <= maxCaptures) then (time * 2.0)%Q
      else if bool_decide (2 <= maxCaptures) then (time * 1.5)%Q
      else time in
  let scaled := (time * COMPLEX_POSITION_MULTIPLIER (level ai))%Q in
  let cap := (inject_Z baseTime * 3)%Q in
  if Qle_bool scaled cap then scaled else cap.

(** What the iterative deepening carries from one depth to the next. *)
Record Deepening := mkDeepening {
  d_bestMove : Move;
  d_bestScore : Score;
  d_lastScore : Score;
  d_timeLimit : Q;
  d_ai : AI
}.

(** How one pass of the [for (let depth = 1; ...)] loop ends: with a
    [break] before the depth gave a result (out of time, or aborted), or
    with the depth completed, and then [stop] tells the [break] on a
    decisive score. *)
Inductive StepOutcome :=
| NoResult (ai : AI)
| Completed (next : Deepening) (stop : bool).

Definition deepenStep (position : Position) (startTime maxDepth depth : Z)
    (st : Deepening) : StepOutcome :=
  let '(now, ai) := dateNow (d_ai st) in
  let timeLimit := d_timeLimit st in
  let remainingTime := (timeLimit - inject_Z (now - startTime))%Q in
  if negb (Qle_bool (timeLimit * 0.1) remainingTime) || searchAborted ai
  then NoResult ai
  else
    let '(alpha, beta) :=
      if bool_decide (3 < depth) && score_abs_ltb (d_lastScore st) 1000
      then (score_addQ (d_lastScore st) (- INITIAL_DELTA),
            score_addQ (d_lastScore st) INITIAL_DELTA)
      else (NegInfinity, Infinity) in
    let '(result, ai) :=
      searchBestMove ai position depth alpha beta startTime timeLimit in
    let '(result, ai) :=
      if score_leb (r_score result) alpha || score_geb (r_score result) beta then
        let '(retry, ai) :=
          searchBestMove ai position depth NegInfinity Infinity startTime timeLimit in
        match r_move retry with
        | Some m => (mkResult (Some m) (r_score retry) (r_timeout result), ai)
        | None => (result, ai)
        end
      else (result, ai) in
    if r_timeout result || searchAborted ai then NoResult ai
    else
      match r_move result with
      | Some m =>
        let bestScore := r_score result in
        (* the evaluation message reads the clock for its nodes per second *)
        let '(_, ai) := dateNow ai in
        if score_abs_gtb bestScore 5000
        then Completed (mkDeepening m bestScore bestScore timeLimit ai) true
        else
          let timeLimit :=
            if score_ltb (ofZ 1000) bestScore && bool_decide (depth < maxDepth - 2)
            then (timeLimit * 1.2)%Q else timeLimit in
          Completed (mkDeepening m bestScore bestScore timeLimit ai) false
      | None =>
        Completed (mkDeepening (d_bestMove st) (d_bestScore st) (d_lastScore st)
                               timeLimit ai) false
      end.

Fixpoint deepen (n : nat) (position : Position) (startTime maxDepth depth : Z)
    (st : Deepening) : Deepening :=
  match n with
  | O => st
  | S k =>
    match deepenStep position startTime maxDepth depth st with
    | NoResult ai =>
      mkDeepening (d_bestMove st) (d_bestScore st) (d_lastScore st) (d_timeLimit st) ai
    | Completed next true => next
    | Completed next false => deepen k position startTime maxDepth (depth + 1) next
    end
  end.

(** The final safety check.  The comparator of the sort calls
    [quickEvaluateMove] anew at every comparison; the model scores each
    safe move once. *)
Definition finalGate (ai : AI) (position : Position) (moves : list Move)
    (bestMove : Move) : Move * AI :=
  if negb (isMoveReallySafe position bestMove) then
    let safeMoves := filter (fun m => isMoveReallySafe position m = true) moves in
    let '(scored, ai) :=
      foldl (fun (acc : list (Move * Q) * AI) move =>
               let '(score, ai) := quickEvaluateMove acc.2 position move in
               (acc.1 ++ [(move, score)], ai))
            ([], ai) safeMoves in
    match map fst (TT.sortByQ (fun a b => (b.2 - a.2)%Q) scored) with
    | safest :: _ => (safest, ai)
    | [] => (bestMove, ai)
    end
  else (bestMove, ai).

(** The reset at the start of [getBestMove], after the clock is read. *)
Definition resetSearch (ai : AI) : AI :=
  withKillerMoves
    (withPositionHistory (withAborted (withNodeCount (dateNow ai).2 0) false) [])
    freshKillerMoves.

(** [maxDepth] and [timeLimit] as the loop starts with them. *)
Definition searchLimits (ai : AI) (position : Position) (moves : list Move)
    (moveNumber : Z) : Z * Q :=
  let baseTime := TIME_ALLOCATION (level ai) in
  let timeLimit := allocateTime ai position moveNumber baseTime in
  let maxDepth := MAX_DEPTH (level ai) in
  if bool_decide (length moves ≤ 3)%nat
  then (maxDepth + 1, (timeLimit * 1.5)%Q) else (maxDepth, timeLimit).

(** The answer of the opening book, when one is installed and asked. *)
Definition bookAnswer (ai : AI) (position : Position)
    (moveHistoryNotations : list string) : option Move :=
  match openingBook ai with
  | Some book =>
    if bool_decide (Z.of_nat (length moveHistoryNotations) < 20)
    then getMove book position moveHistoryNotations else None
  | None => None
  end.

(** The state the iterative deepening starts from. *)
Definition initialDeepening (ai : AI) (position : Position) (moves : list Move)
    (moveHistoryNotations : list string) (first : Move) : Deepening :=
  mkDeepening first NegInfinity (ofZ 0)
    (searchLimits (resetSearch ai) position moves
                  (Z.of_nat (length moveHistoryNotations))).2
    (resetSearch ai).

Definition getBestMove (ai : AI) (position : Position)
    (moveHistoryNotations : list string) : option Move * AI :=
  let startTime := (dateNow ai).1 in
  let ai' := resetSearch ai in
  let moves := generateMoves isDarkSquare position in
  match moves with
  | [] => (None, ai')
  | [only] => (Some only, ai')
  | first :: _ =>
    match quickTacticalScan position moves with
    | Some forced => (Some forced, ai')
    | None =>
      let moveNumber := Z.of_nat (length moveHistoryNotations) in
      let maxDepth := (searchLimits ai' position moves moveNumber).1 in
      match bookAnswer ai' position moveHistoryNotations with
      | Some bookMove => (Some bookMove, ai')
      | None =>
        let st :=
          deepen (Z.to_nat maxDepth) position startTime maxDepth 1
                 (initialDeepening ai position moves moveHistoryNotations first) in
        let '(bestMove, ai) := finalGate (d_ai st) position moves (d_bestMove st) in
        (* the closing log message reads the clock once more *)
        let '(_, ai) := dateNow ai in
        (Some bestMove, ai)
      end
    end
  end.

End Search.

(** ** Positions and engines used in the examples *)

(** The engine as the constructor of [GrandmasterAI] leaves it, at a given
    level: no opening book is installed. *)
Definition newAI (level : Z) : AI :=
  mkAI level 0 false 60
       (if bool_decide (level = 1) then 2 else if bool_decide (level = 2) then 3
        else if bool_decide (level = 3) then 4 else if bool_decide (level = 4) then 5
        else if bool_decide (level = 5) then 6 else if bool_decide (level = 6) then 8
        else 4)
       [] freshKillerMoves ∅ (TT.create 2000000) ∅ None 0 0.

(** A clock that stands still, and loops of the search that are never
    reached in the examples. *)
Definition frozenClock (t : Z) : nat -> Z := fun _ => t.
Definition noRandom : nat -> Z := fun _ => 2.
Definition idleMoves :
  AI -> Position -> Z -> Score -> Score -> Z -> Q -> Z -> Z -> string ->
  list Move -> Score * AI :=
  fun ai _ _ _ _ _ _ _ _ _ _ => (ofZ 0, ai).
Definition idleCaptures :
  AI -> Position -> Score -> Score -> Z -> Z -> Q -> Z -> Score ->
  list Move -> Score * AI :=
  fun ai _ _ _ _ _ _ _ standPat _ => (standPat, ai).

(** White to move and blocked: its only man stands on row 1 at the edge,
    a black man on the square in front of it.  [odd] chooses the colouring
    of the board the squares belong to. *)
Definition blockedPosition (odd : bool) : Position :=
  mkPosition
    (place emptyGrid
       (if odd then [(1, 0, WHITE); (0, 1, BLACK)]
        else [(1, 9, WHITE); (0, 8, BLACK)]))
    PWHITE [].

(** White to move with one man in a corner of row 9 against twenty black
    kings on the dark squares of rows 0 to 3. *)
Definition lopsidedPosition (odd : bool) : Position :=
  let dark := if odd then darkOdd else darkEven in
  mkPosition
    (place emptyGrid
       ((9, (if odd then 0 else 9), WHITE) ::
        (r ← seqZ 0 4; c ← seqZ 0 BOARD_SIZE;
         if dark r c then [(r, c, BLACK_KING)] else [])))
    PWHITE [].

(** White to move with one man in the middle of the board and two quiet
    moves; a black man far away on row 0. *)
Definition twoMovesPosition : Position :=
  mkPosition (place emptyGrid [(5, 4, WHITE); (0, 1, BLACK)]) PWHITE [].

(** A clock that reads 0 when the search starts and is far past every time
    limit at every later reading. *)
Definition lateClock : nat -> Z :=
  fun n => match n with O => 0 | S _ => 1000000000 end.

(** ** ai.utils.js: piece counts *)

(** [{ men, kings, total }] *)
Record SideCounts := mkCounts { men : Z; kings : Z; total : Z }.

(** The body of the two loops of [getPieceCounts] for one square. *)
Definition countPiece (counts : SideCounts * SideCounts) (piece : Piece)
  : SideCounts * SideCounts :=
  let '(w, b) := counts in
  match piece with
  | WHITE => (mkCounts (men w + 1) (kings w) (total w + 1), b)
  | WHITE_KING => (mkCounts (men w) (kings w + 1) (total w + 1), b)
  | BLACK => (w, mkCounts (men b + 1) (kings b) (total b + 1))
  | BLACK_KING => (w, mkCounts (men b) (kings b + 1) (total b + 1))
  | NONE => (w, b)
  end.

(** [getPieceCounts]: the counts of White and of Black. *)
Definition getPieceCounts (position : Position) : SideCounts * SideCounts :=
  foldl (fun counts sq => countPiece counts (pieceAt (pieces position) sq))
        (mkCounts 0 0 0, mkCounts 0 0 0) allSquares.

(** [getMoveNotation] of a move that is not null. *)
Definition getMoveNotation (move : Move) : string :=
  let from := pretty (row (from move)) +:+ "," +:+ pretty (col (from move)) in
  let to := pretty (row (to move)) +:+ "," +:+ pretty (col (to move)) in
  if negb (bool_decide (captures move = [])) then from +:+ "x" +:+ to
  else from +:+ "-" +:+ to.

(** ** Squares along a diagonal *)

(** The square [k] steps from [p] in direction [d]. *)
Definition along (p : Pos) (d : Dir) (k : Z) : Pos :=
  mkPos (row p + k * dy d) (col p + k * dx d).

(** The test of the loops of [addNormalMovesForPiece]: on the board, empty
    and dark. *)
Definition freeSquare (isDarkSquare : Z -> Z -> bool) (g : Grid) (s : Pos) : bool :=
  validPos s && bool_decide (pieceAt g s = NONE) && isDarkSquare (row s) (col s).

(** The directions [addNormalMovesForPiece] walks for a piece. *)
Definition quietDirs (piece : Piece) (player : Player) : list Dir :=
  if isKingPiece piece then KING_MOVES
  else if bool_decide (player = PWHITE) then WHITE_MOVES else BLACK_MOVES.

(** The order of the game phases. *)
Definition phaseRank (p : Phase) : Z :=
  match p with opening => 0 | middlegame => 1 | endgame => 2 end.

(** The test of [countTotalPieces]. *)
Definition occupied (g : Grid) (sq : Pos) : bool :=
  negb (bool_decide (pieceAt g sq = NONE)).

(** How many squares of [l] hold [piece]. *)
Definition countOf (g : Grid) (piece : Piece) (l : list Pos) : Z :=
  Z.of_nat (length (filter (fun sq => pieceAt g sq = piece) l)).

(** ** ai.tt.js: the other operations of the transposition table *)

Module TranspositionTable.

(** [clear] *)
Definition clear (t : TT.Table) : TT.Table := TT.mkTable (TT.maxSize t) [] 0 0 0.

(** The getter [size]. *)
Definition size (t : TT.Table) : Z := Z.of_nat (length (TT.table t)).

(** [ageEntries] *)
Definition ageEntries (t : TT.Table) : TT.Table :=
  TT.mkTable (TT.maxSize t) (map (fun kv => (kv.1, TT.ageEntry kv.2)) (TT.table t))
             (TT.accessCount t) (TT.hits t) (TT.stores t).

Section Keyed.
Variable isDarkSquare : Z -> Z -> bool.

(** [has] *)
Definition has (t : TT.Table) (position : Position) : bool :=
  bool_decide (is_Some (mapGet (generateKey isDarkSquare position) (TT.table t))).

(** [getBestMove]: [entry?.bestMove || null] *)
Definition getBestMove (t : TT.Table) (position : Position) : option Move :=
  entry ← mapGet (generateKey isDarkSquare position) (TT.table t);
  TT.bestMove entry.

(** [prefetch]; its [depth] argument is not read. *)
Definition prefetch (t : TT.Table) (position : Position) (depth : Z) : TT.Table :=
  let key := generateKey isDarkSquare position in
  if negb (bool_decide (is_Some (mapGet key (TT.table t))))
  then TT.store t key 0 (ofZ 0) TT.EXACT None
  else t.

End Keyed.

(** What the operations keep: no key twice (it is a [Map]) and no more
    entries than [maxSize]. *)
Definition wellFormed (t : TT.Table) : Prop :=
  NoDup (map fst (TT.table t)) ∧ size t <= TT.maxSize t.

End TranspositionTable.

(** ** ai.tt.js: the evaluation cache *)

Module EvaluationCache.

(** The closure of [createEvaluationCache]: [maxSize] and the [Map]. *)
Record Cache := mkCache {
  maxSize : Z;
  cache : list (string * Q)
}.

Definition create (maxSize : Z) : Cache := mkCache maxSize [].

(** [cache.keys().next().value]: the oldest key, if there is one. *)
Definition firstKey (c : Cache) : option string := fst <$> head (cache c).

Definition isFull (c : Cache) : bool :=
  bool_decide (maxSize c <= Z.of_nat (length (cache c))).

(** [store]: a full cache gives up its oldest key first. *)
Definition store (c : Cache) (key : string) (value : Q) : Cache :=
  let entries :=
    if isFull c
    then match firstKey c with
         | Some first => mapDelete first (cache c)
         | None => cache c
         end
    else cache c in
  mkCache (maxSize c) (mapSet key value entries).

Definition lookup (c : Cache) (key : string) : option Q := mapGet key (cache c).

Definition clear (c : Cache) : Cache := mkCache (maxSize c) [].

Definition size (c : Cache) : Z := Z.of_nat (length (cache c)).

Definition wellFormed (c : Cache) : Prop :=
  NoDup (map fst (cache c)) ∧ size c <= maxSize c.

End EvaluationCache.

(** A list in ascending order of a rational key. *)
Definition ascendingQ {A : Type} (key : A -> Q) (l : list A) : Prop :=
  StronglySorted (fun a b => (key a <= key b)%Q) l.

(** ** ai.move-ordering.js: what the killer table holds *)

(** A row of the killer table as [updateKillerMoves] keeps it: no
    capture in either slot, the second slot filled only after the first,
    and never the same move in both. *)
Definition killerRowOk (slots : option Move * option Move) : Prop :=
  (∀ m, slots.1 = Some m → captures m = []) ∧
  (∀ m, slots.2 = Some m → captures m = []) ∧
  (slots.1 = None → slots.2 = None) ∧
  (∀ m, slots.1 = Some m → isSameMove m slots.2 = false).

Definition killersOk (killerMoves : list (option Move * option Move)) : Prop :=
  Forall killerRowOk killerMoves.

(** ** ai.safety.js: the other checks *)

Definition isSafeCapture (position : Position) (move : Move) : bool :=
  if bool_decide (captures move = []) then true
  else bool_decide (0 < staticExchangeEvaluation position move).

Definition canSafelyAdvance (position : Position) (from to : Pos) : bool :=
  isMoveReallySafe position (mkMove from to []).

(** [findSafeSquares]: the king's loop walks while the square is on the
    board and empty, as the landing loop of a capture does. *)
Definition findSafeSquares (position : Position) (r c : Z) : list Pos :=
  let piece := pieceAt (pieces position) (mkPos r c) in
  if bool_decide (piece = NONE) then []
  else
    let safe sq := isMoveReallySafe position (mkMove (mkPos r c) sq []) in
    d ← KING_MOVES;
    if isKingPiece piece then
      filter (fun sq => safe sq = true)
             (landingSquares SCAN (pieces position) (step (mkPos r c) d) d)
    else
      let sq := step (mkPos r c) d in
      if validPos sq && bool_decide (pieceAt (pieces position) sq = NONE)
      then (if safe sq then [sq] else [])
      else [].

Definition evaluatePieceVulnerability (position : Position) (r c : Z) : Q :=
  let piece := pieceAt (pieces position) (mkPos r c) in
  if bool_decide (piece = NONE) then 0%Q
  else
    let player := pieceOwner piece in
    let opponent := otherPlayer player in
    let defenders := Z.of_nat (countDefenders position r c player) in
    let attackers := Z.of_nat (countAttackers position r c opponent) in
    if bool_decide (attackers = 0) then 0%Q
    else
      let pieceValue := getPieceValue piece in
      let vulnerability :=
        if bool_decide (defenders < attackers)
        then (inject_Z (pieceValue * (attackers - defenders)) / inject_Z attackers)%Q
        else if bool_decide (defenders = attackers) then
          let exchange := evaluateExchange position r c in
          if bool_decide (exchange < 0) then inject_Z (Z.abs exchange) else 0%Q
        else 0%Q in
      if bool_decide (defenders = 0) && bool_decide (0 < attackers)
      then (vulnerability * 1.5)%Q else vulnerability.

(** ** ai.tactics.js: threats *)

Definition countCaptureValue (position : Position) (move : Move) : Z :=
  if bool_decide (captures move = []) then 0
  else foldl (fun total cap => total + getPieceValue (pieceAt (pieces position) cap))
             0 (captures move).

Definition canCapture (position : Position) : bool :=
  bool_decide (0 < length (getAvailableCaptures position))%nat.

Definition inCheck (position : Position) : bool :=
  bool_decide (0 < length (getAvailableCaptures position))%nat.

Definition givesCheck (position : Position) (move : Move) : bool :=
  inCheck (makeMove position move).

Definition canThreaten (position : Position) (move : Move) : bool :=
  let afterMove := makeMove position move in
  let threats := getAvailableCaptures afterMove in
  let threatValue :=
    foldl (fun threatValue threat => threatValue + countCaptureValue afterMove threat)
          0 threats in
  bool_decide (0 < threatValue).

(** [evaluateBreakthroughPotential]: the rows the loop visits are the rows
    strictly between the piece and its promotion row. *)
Definition evaluateBreakthroughPotential (position : Position) (sq : Pos) : Z :=
  let pieceType := pieceAt (pieces position) sq in
  if bool_decide (pieceType = NONE) then 0
  else
    let isWhite := isWhitePiece pieceType in
    if isKingPiece pieceType then 0
    else
      let promotionRow := if isWhite then 0 else 9 in
      let distance := Z.abs (row sq - promotionRow) in
      let first := if isWhite then row sq - 1 else row sq + 1 in
      let rows :=
        if negb (bool_decide (0 <= first) && bool_decide (first < BOARD_SIZE)) then []
        else if isWhite then reverse (seqZ 1 first)
        else seqZ first (9 - first) in
      let obstacles :=
        sumZ (map (fun r =>
          Z.of_nat (length (filter
            (fun c =>
               let p := pieceAt (pieces position) (mkPos r c) in
               p ≠ NONE ∧
               isPlayerPiece p (if isWhite then PBLACK else PWHITE) = true)
            (seqZ 0 BOARD_SIZE)))) rows) in
      let score := (10 - distance) * 10 - obstacles * 20 in
      let score := if bool_decide (distance <= 3) then score + 50 else score in
      Z.max 0 score.

(** ** ai.evaluation.js: simulateOpponentPlan *)

Definition simulateOpponentPlan (position : Position) (opponentMoves : list Move) : Z :=
  foldl (fun maxThreat move =>
           let piece := pieceAt (pieces position) (from move) in
           let maxThreat :=
             if (bool_decide (piece = WHITE) && bool_decide (row (to move) = 9)) ||
                (bool_decide (piece = BLACK) && bool_decide (row (to move) = 0))
             then maxThreat + 50 else maxThreat in
           let maxThreat :=
             if bool_decide (2 ≤ length (captures move))%nat
             then maxThreat + 30 + Z.of_nat (length (captures move)) * 15
             else maxThreat in
           if bool_decide (length (captures move) = 1%nat)
           then maxThreat + 25 else maxThreat)
        0 opponentMoves.

(** ** Positions of the game *)

(** The pieces stand on dark squares only. *)
Definition piecesOnDark (isDarkSquare : Z -> Z -> bool) (g : Grid) : Prop :=
  Forall (fun sq => isDarkSquare (row sq) (col sq) = false -> pieceAt g sq = NONE)
         allSquares.

(** The position [evaluatePieceVulnerability] is looked at in the
    examples: Black to move, a white man on (3,8) that the black man on
    (2,9) can take. *)
Definition hangingManPosition : Position :=
  mkPosition (place emptyGrid [(3, 8, WHITE); (2, 9, BLACK)]) PBLACK [].

(** * Vocabulary of the properties *)

(** A list in descending order of [key]. *)
Definition descending {A : Type} (key : A -> Z) (l : list A) : Prop :=
  StronglySorted (fun a b => key b <= key a) l.

(** A jump the loop over [dirs] of [findCaptureSequences] finds from the
    current square. *)
Definition isJump (player : Player) (g : Grid) (cur : Pos) (caps : list Pos)
    (j : Pos * Pos) : Prop :=
  ∃ d, d ∈ KING_MOVES ∧ j ∈ dirJumps g cur caps player d.

(** A capture is available by the rules of the game: a piece of the side
    to move stands next to a piece of the opponent on a diagonal, and the
    square right behind it is an empty square of the board. *)
Definition jumpAvailable (position : Position) (start over land : Pos) : Prop :=
  ∃ d, d ∈ KING_MOVES ∧ over = step start d ∧ land = step over d ∧
       validPos start = true ∧ validPos land = true ∧
       isPieceOfCurrentPlayer (pieceAt (pieces position) start)
         (currentPlayer position) = true ∧
       isOpponentPiece (pieceAt (pieces position) over)
         (currentPlayer position) = true ∧
       pieceAt (pieces position) land = NONE.

(** The king a man is crowned to in [makeMove]. *)
Definition promoted (piece : Piece) : Piece :=
  if bool_decide (piece = WHITE) then WHITE_KING else BLACK_KING.

Definition diagonal (d : Dir) : Prop := dy d = 1 ∨ dy d = -1.

(** How many squares of the board lie ahead of [p], [p] included. *)
Definition ahead (p : Pos) (d : Dir) : Z :=
  if bool_decide (dy d = 1) then BOARD_SIZE - row p else row p + 1.

(** The bound test of [lookup]. *)
Definition cutoff (e : TT.Entry) (alpha beta : Score) : bool :=
  bool_decide (TT.type e = TT.EXACT) ||
  (bool_decide (TT.type e = TT.LOWER_BOUND) && score_geb (TT.value e) beta) ||
  (bool_decide (TT.type e = TT.UPPER_BOUND) && score_leb (TT.value e) alpha).

(** The entry as [lookup] leaves it in the table and returns it. *)
Definition touched (t : TT.Table) (e : TT.Entry) : TT.Entry :=
  TT.mkEntry (TT.depth e) (TT.value e) (TT.type e) (TT.bestMove e)
             (TT.accessCount t) 0.

(** The bound test in the words of the specification. *)
Definition boundOk (e : TT.Entry) (alpha beta : Score) : Prop :=
  TT.type e = TT.EXACT ∨
  (TT.type e = TT.LOWER_BOUND ∧ score_geb (TT.value e) beta = true) ∨
  (TT.type e = TT.UPPER_BOUND ∧ score_leb (TT.value e) alpha = true).

(** Two quiet moves and a history table in which the first has a score
    above 10000. *)
Definition quietA : Move := mkMove (mkPos 6 1) (mkPos 5 2) [].
Definition quietB : Move := mkMove (mkPos 6 3) (mkPos 5 4) [].
Definition historyAB : gmap string Z :=
  <[getMoveKey quietA := 20000]> (<[getMoveKey quietB := 5]> ∅).

(** The position of the even trade as an object whose grid lives in the
    heap. *)
Definition sharedHeap : Shared.Heap := [pieces evenTradePosition].
Definition sharedPosition : Shared.PositionObj := Shared.mkObj 0 PWHITE [].

(** The periodic time check of [negamax] fires: the node count has reached
    a multiple of 2048 and the clock is past the limit. *)
Definition timeCheckFires (clock : nat -> Z) (ai : AI) (startTime : Z)
    (timeLimit : Q) : Prop :=
  (nodeCount ai + 1) mod 2048 = 0 ∧
  timeExceeded (clock (clockReads ai)) startTime timeLimit = true.

(** The position already occurs twice among the keys of its history. *)
Definition isRepetition (isDarkSquare : Z -> Z -> bool) (position : Position)
    : Prop :=
  (2 ≤ length (filter (fun k => k = generateKey isDarkSquare position)
                      (history position)))%nat.

(** * Properties *)

(** ** Sorting *)

Section Sorting.
Context {A : Type} (key : A -> Z).

Let cmp : A -> A -> Z := fun a b => key b - key a.

Lemma sortInsert_perm x l : sortInsert cmp x l ≡ₚ x :: l.
Proof.
  induction l as [|y l IH]; simpl; [done|].
  case_bool_decide; [done|].
  rewrite IH. apply perm_swap.
Qed.

Lemma sortBy_perm l : sortBy cmp l ≡ₚ l.
Proof.
  induction l as [|x l IH]; simpl; [done|].
  unfold sortBy in *. simpl. rewrite sortInsert_perm. by rewrite IH.
Qed.

Lemma sortBy_elem_of x l : x ∈ sortBy cmp l ↔ x ∈ l.
Proof. by rewrite sortBy_perm. Qed.

Local Abbreviation descending := (descending key).

Lemma sortInsert_descending x l :
  descending l → descending (sortInsert cmp x l).
Proof.
  unfold descending. induction 1 as [|y l Hl IH Hy]; simpl.
  - repeat constructor.
  - unfold cmp at 1. case_bool_decide as Hc.
    + constructor; [by constructor|].
      constructor; [lia|].
      eapply Forall_impl; [exact Hy|]. simpl. intros; lia.
    + constructor; [exact IH|].
      apply Forall_forall. intros z Hz.
      rewrite sortInsert_perm in Hz. apply elem_of_cons in Hz as [->|Hz]; [lia|].
      rewrite Forall_forall in Hy. by apply Hy.
Qed.

Lemma sortBy_descending l : descending (sortBy cmp l).
Proof.
  induction l as [|x l IH]; [constructor|].
  apply sortInsert_descending, IH.
Qed.

(** The head of the sorted array carries the largest key of the array. *)
Lemma sortBy_head_max l first rest :
  sortBy cmp l = first :: rest → ∀ x, x ∈ l → key x <= key first.
Proof.
  intros Hs x Hx. apply sortBy_elem_of in Hx. rewrite Hs in Hx.
  pose proof (sortBy_descending l) as Hd. rewrite Hs in Hd.
  apply StronglySorted_inv in Hd as [_ Hall].
  apply elem_of_cons in Hx as [->|Hx]; [lia|].
  rewrite Forall_forall in Hall. by apply Hall.
Qed.

End Sorting.

(** ** The capture search *)

Lemma containsPos_spec l p : containsPos l p = true ↔ p ∈ l.
Proof.
  unfold containsPos. rewrite existsb_exists. split.
  - intros (q & Hq & Hb). apply andb_true_iff in Hb as [H1 H2].
    apply bool_decide_eq_true in H1, H2. destruct p, q; simpl in *; subst.
    by apply list_elem_of_In.
  - intros Hp. exists p. split; [by apply list_elem_of_In|].
    apply andb_true_iff; split; by apply bool_decide_eq_true.
Qed.

Lemma containsPos_false l p : containsPos l p = false ↔ p ∉ l.
Proof.
  rewrite <- containsPos_spec. destruct (containsPos l p); split; done.
Qed.

Section CaptureSearch.
Variable player : Player.

Local Abbreviation isJump := (isJump player).

Lemma findCaptureTrails_unfold fuel g cur path caps vis rd :
  findCaptureTrails (S fuel) g cur path caps vis player rd =
  if bool_decide (20 < rd)%nat then []
  else if bool_decide (posKey cur ∈ vis) then []
  else
    let jumps := d ← KING_MOVES; dirJumps g cur caps player d in
    (j ← jumps;
       findCaptureTrails fuel (applyJump g cur j.1 j.2) j.2 (path ++ [cur])
         (caps ++ [j.1]) (vis ∪ {[ posKey cur ]}) player (S rd))
    ++ (if negb (negb (bool_decide (jumps = []))) && bool_decide (0 < length caps)%nat
        then [mkTrail path cur caps] else []).
Proof. reflexivity. Qed.

(** Invariants of the recursion: what holds of the arguments of every call
    holds of every recorded sequence. *)
Lemma findCaptureTrails_invariant
    (P : Grid → Pos → list Pos → list Pos → gset string → Prop)
    (Q : Trail → Prop) :
  (∀ g cur path caps vis,
      P g cur path caps vis → posKey cur ∉ vis → caps ≠ [] →
      Q (mkTrail path cur caps)) →
  (∀ g cur path caps vis j,
      P g cur path caps vis → posKey cur ∉ vis → isJump g cur caps j →
      P (applyJump g cur j.1 j.2) j.2 (path ++ [cur]) (caps ++ [j.1])
        (vis ∪ {[ posKey cur ]})) →
  ∀ fuel g cur path caps vis rd,
    P g cur path caps vis →
    ∀ t, t ∈ findCaptureTrails fuel g cur path caps vis player rd → Q t.
Proof.
  intros Hleaf Hstep. induction fuel as [|fuel IH]; intros g cur path caps vis rd HP t Ht.
  - simpl in Ht. by apply elem_of_nil in Ht.
  - rewrite findCaptureTrails_unfold in Ht.
    case_bool_decide; [by apply elem_of_nil in Ht|].
    case_bool_decide as Hvis; [by apply elem_of_nil in Ht|].
    cbv zeta in Ht. apply elem_of_app in Ht as [Ht|Ht].
    + apply list_elem_of_bind in Ht as (j & Ht & Hj).
      eapply IH; [|exact Ht].
      apply Hstep; [done..|].
      apply list_elem_of_bind in Hj as (d & Hj & Hd). by exists d.
    + destruct (negb _ && _) eqn:Hb; [|by apply elem_of_nil in Ht].
      apply list_elem_of_singleton in Ht as ->.
      apply andb_true_iff in Hb as [_ Hb]. apply bool_decide_eq_true in Hb.
      apply (Hleaf g cur path caps vis); [done..|]. destruct caps; simpl in *; [lia|done].
Qed.

(** A sequence is recorded only after at least one capture. *)
Lemma findCaptureTrails_captured fuel g cur path caps vis rd t :
  t ∈ findCaptureTrails fuel g cur path caps vis player rd → t_captured t ≠ [].
Proof.
  apply (findCaptureTrails_invariant (fun _ _ _ _ _ => True)
           (fun t => t_captured t ≠ [])); auto.
Qed.

(** The jumped square of a jump is not among the squares captured so far. *)
Lemma isJump_fresh g cur caps j : isJump g cur caps j → j.1 ∉ caps.
Proof.
  intros (d & _ & Hj). unfold dirJumps in Hj.
  destruct (isKingPiece _).
  - destruct (scanEnemy _ _ _ _ _) as [e|]; [|by apply elem_of_nil in Hj].
    destruct (negb (containsPos caps e)) eqn:Hc; [|by apply elem_of_nil in Hj].
    apply list_elem_of_fmap in Hj as (land & -> & _). simpl.
    apply containsPos_false. by apply negb_true_iff.
  - destruct (_ && _ && _); [|by apply elem_of_nil in Hj].
    destruct (negb (containsPos caps _)) eqn:Hc; [|by apply elem_of_nil in Hj].
    apply list_elem_of_singleton in Hj as ->. simpl.
    apply containsPos_false. by apply negb_true_iff.
Qed.

(** The chain of squares the capturing piece stood on never repeats a
    square, no piece is captured twice, and the chain starts where the
    search did. *)
Lemma findCaptureTrails_distinct g start t :
  t ∈ findCaptureTrails FUEL g start [] [] ∅ player 0 →
  NoDup (t_path t ++ [t_pos t]) ∧ NoDup (t_captured t) ∧
  hd (t_pos t) (t_path t) = start ∧ length (t_path t) = length (t_captured t).
Proof.
  apply (findCaptureTrails_invariant
    (fun _ cur path caps vis =>
       NoDup path ∧ (∀ p, p ∈ path → posKey p ∈ vis) ∧ NoDup caps ∧
       hd cur path = start ∧ length path = length caps)
    (fun t => NoDup (t_path t ++ [t_pos t]) ∧ NoDup (t_captured t) ∧
              hd (t_pos t) (t_path t) = start ∧
              length (t_path t) = length (t_captured t))).
  - intros _ cur path caps vis (Hnd & Hin & Hcaps & Hhd & Hlen) Hcur _. simpl.
    split_and!; [|done..].
    apply NoDup_app. split_and!; [done| |apply NoDup_singleton].
    intros p Hp Hp'. apply list_elem_of_singleton in Hp' as ->. auto.
  - intros g' cur path caps vis j (Hnd & Hin & Hcaps & Hhd & Hlen) Hcur Hj.
    split_and!; [| | | |by rewrite !length_app, Hlen].
    + apply NoDup_app. split_and!; [done| |apply NoDup_singleton].
      intros p Hp Hp'. apply list_elem_of_singleton in Hp' as ->. auto.
    + intros p Hp. apply elem_of_union.
      apply elem_of_app in Hp as [Hp|Hp]; [left; auto|].
      apply list_elem_of_singleton in Hp as ->. right. by apply elem_of_singleton.
    + apply NoDup_app. split_and!; [done| |apply NoDup_singleton].
      intros p Hp Hp'. apply list_elem_of_singleton in Hp' as ->.
      by apply isJump_fresh in Hj.
    + destruct path; simpl in *; done.
  - split_and!; [constructor| |constructor|done|done].
    intros p Hp. by apply elem_of_nil in Hp.
Qed.

End CaptureSearch.

(** ** getAvailableCaptures and generateMoves *)

Lemma getAvailableCaptures_spec position m :
  m ∈ getAvailableCaptures position ↔
  m ∈ allCaptures position ∧
  ∀ m', m' ∈ allCaptures position → nCaptures m' <= nCaptures m.
Proof.
  unfold getAvailableCaptures.
  destruct (sortBy _ (allCaptures position)) as [|first rest] eqn:Hs.
  - assert (allCaptures position = []) as ->.
    { apply Permutation_nil_r. rewrite <- Hs. symmetry. apply (sortBy_perm nCaptures). }
    split; [by intros ?%elem_of_nil|by intros [?%elem_of_nil _]].
  - cbv zeta. rewrite list_elem_of_filter, <- Hs, (sortBy_elem_of nCaptures).
    pose proof (sortBy_head_max nCaptures _ _ _ Hs) as Hmax.
    assert (first ∈ allCaptures position) as Hfirst.
    { apply (sortBy_elem_of nCaptures). rewrite Hs. by left. }
    split.
    + intros [Heq Hm]. split; [done|]. intros m' Hm'. rewrite Heq. by apply Hmax.
    + intros [Hm Hall]. split; [|done].
      specialize (Hall _ Hfirst). specialize (Hmax _ Hm). lia.
Qed.

Lemma allCaptures_elem position m :
  m ∈ allCaptures position ↔
  ∃ t, t ∈ allCaptureTrails position ∧ m = recordSequence t.
Proof.
  unfold allCaptures. rewrite list_elem_of_fmap.
  split; intros (t & H1 & H2); eauto.
Qed.

Lemma allCaptureTrails_elem position t :
  t ∈ allCaptureTrails position ↔
  ∃ sq, sq ∈ allSquares ∧
    isPieceOfCurrentPlayer (pieceAt (pieces position) sq) (currentPlayer position) = true ∧
    t ∈ findCaptureTrails FUEL (pieces position) sq [] [] ∅ (currentPlayer position) 0.
Proof.
  unfold allCaptureTrails. rewrite list_elem_of_bind. split.
  - intros (sq & Ht & Hsq). exists sq.
    destruct (isPieceOfCurrentPlayer _ _); [done|by apply elem_of_nil in Ht].
  - intros (sq & Hsq & Hp & Ht). exists sq. by rewrite Hp.
Qed.

Lemma allCaptures_captures position m :
  m ∈ allCaptures position → captures m ≠ [].
Proof.
  intros (t & Ht & ->)%allCaptures_elem.
  apply allCaptureTrails_elem in Ht as (sq & _ & _ & Ht).
  by apply findCaptureTrails_captured in Ht.
Qed.

Lemma hasCaptures_spec position :
  hasCaptures position = true ↔ allCaptures position ≠ [].
Proof.
  unfold hasCaptures. rewrite bool_decide_eq_true.
  split.
  - intros Hlen Hnil. unfold getAvailableCaptures in Hlen.
    rewrite Hnil in Hlen. simpl in Hlen. lia.
  - intros Hne.
    destruct (sortBy (λ a b, nCaptures b - nCaptures a) (allCaptures position))
      as [|first rest] eqn:Hs.
    { destruct Hne. apply Permutation_nil_r. rewrite <- Hs. symmetry.
      apply (sortBy_perm nCaptures). }
    assert (first ∈ getAvailableCaptures position) as Hin.
    { unfold getAvailableCaptures. rewrite Hs. cbv zeta.
      apply list_elem_of_filter. split; [done|by left]. }
    destruct (getAvailableCaptures position); [by apply elem_of_nil in Hin|].
    simpl; lia.
Qed.

(** When the search has recorded a capture sequence, [generateMoves]
    returns captures only, each of them as long as the longest sequence
    the search recorded in the position, and every recorded sequence of
    that length is returned. *)
Theorem generateMoves_maximal_captures (isDarkSquare : Z → Z → bool) position :
  hasCaptures position = true →
  let moves := generateMoves isDarkSquare position in
  moves ≠ [] ∧
  (∀ m, m ∈ moves →
     m ∈ allCaptures position ∧ captures m ≠ [] ∧
     ∀ m', m' ∈ allCaptures position →
           (length (captures m') ≤ length (captures m))%nat) ∧
  (∀ m, m ∈ allCaptures position →
     (∀ m', m' ∈ allCaptures position →
            (length (captures m') ≤ length (captures m))%nat) →
     m ∈ moves).
Proof.
  intros Hcap moves.
  assert (moves = getAvailableCaptures position) as ->.
  { unfold moves, generateMoves. unfold hasCaptures in Hcap. by rewrite Hcap. }
  split_and!.
  - unfold hasCaptures in Hcap. apply bool_decide_eq_true in Hcap.
    intros Hnil. rewrite Hnil in Hcap. simpl in Hcap. lia.
  - intros m (Hm & Hmax)%getAvailableCaptures_spec.
    split_and!; [done|by eapply allCaptures_captures|].
    intros m' Hm'. specialize (Hmax _ Hm'). unfold nCaptures in Hmax. lia.
  - intros m Hm Hmax. apply getAvailableCaptures_spec. split; [done|].
    intros m' Hm'. specialize (Hmax _ Hm'). unfold nCaptures. lia.
Qed.

Lemma generateMoves_maximal_captures_witness :
  hasCaptures twoChainsPosition = true ∧
  generateMoves darkOdd twoChainsPosition =
    [mkMove (mkPos 6 1) (mkPos 2 5) [mkPos 5 2; mkPos 3 4]] ∧
  (∀ m, m ∈ generateMoves darkOdd twoChainsPosition →
     m ∈ allCaptures twoChainsPosition ∧ captures m ≠ [] ∧
     ∀ m', m' ∈ allCaptures twoChainsPosition →
           (length (captures m') ≤ length (captures m))%nat).
Proof.
  split; [vm_compute; reflexivity|].
  split; [vm_compute; reflexivity|].
  apply (generateMoves_maximal_captures darkOdd twoChainsPosition).
  vm_compute; reflexivity.
Defined.

(** C1 (the defect).  In [ringPosition] a capture is available: the white
    man on (6,3) can jump the black man on (5,4) and land on the empty
    (4,5), and go on over (3,4) and (3,2) to (4,1).  From there the search
    finds one more jump, over (5,2) onto the square the man started from;
    it counts the jump as found and the recursive call then refuses the
    landing square as visited.  So the chain of three is recorded nowhere:
    the search returns no capture at all and [generateMoves] returns the
    quiet moves of the other man.  The same happens on the board of the
    other colouring. *)
Theorem generateMoves_misses_the_ring_capture :
  let position := ringPosition 0 in
  let g := pieces position in
  let g3 :=
    applyJump
      (applyJump (applyJump g (mkPos 6 3) (mkPos 5 4) (mkPos 4 5))
                 (mkPos 4 5) (mkPos 3 4) (mkPos 2 3))
      (mkPos 2 3) (mkPos 3 2) (mkPos 4 1) in
  let taken := [mkPos 5 4; mkPos 3 4; mkPos 3 2] in
  wfGrid g ∧
  jumpAvailable position (mkPos 6 3) (mkPos 5 4) (mkPos 4 5) ∧
  (d ← KING_MOVES; dirJumps g3 (mkPos 4 1) taken PWHITE d)
    = [(mkPos 5 2, mkPos 6 3)] ∧
  findCaptureSequences g (mkPos 6 3) PWHITE = [] ∧
  getAvailableCaptures position = [] ∧
  hasCaptures position = false ∧
  generateMoves darkOdd position = [mkMove (mkPos 9 0) (mkPos 8 1) []] ∧
  (∃ m, m ∈ generateMoves darkOdd position ∧ captures m = []) ∧
  jumpAvailable (ringPosition 1) (mkPos 6 4) (mkPos 5 5) (mkPos 4 6) ∧
  generateMoves darkEven (ringPosition 1)
    = [mkMove (mkPos 9 1) (mkPos 8 0) []; mkMove (mkPos 9 1) (mkPos 8 2) []].
Proof.
  intros position g g3 taken.
  assert (generateMoves darkOdd position = [mkMove (mkPos 9 0) (mkPos 8 1) []])
    as Hmoves by (vm_compute; reflexivity).
  split_and!; try (vm_compute; reflexivity).
  - split; [reflexivity|]. repeat constructor.
  - exists (mkDir (-1) 1). split_and!; try reflexivity.
    unfold KING_MOVES. rewrite !elem_of_cons. auto.
  - exists (mkMove (mkPos 9 0) (mkPos 8 1) []). split; [|reflexivity].
    rewrite Hmoves. by left.
  - exists (mkDir (-1) 1). split_and!; try reflexivity.
    unfold KING_MOVES. rewrite !elem_of_cons. auto.
Qed.

(** C10. Every capture sequence the search records comes from a chain of
    landing squares that never repeats a square (the start square
    included) and never captures a square twice; the same holds of every
    move [getAvailableCaptures] returns. *)
Theorem capture_chains_visit_distinct_squares position :
  (∀ t, t ∈ allCaptureTrails position →
     NoDup (t_path t ++ [t_pos t]) ∧ NoDup (t_captured t) ∧
     length (t_path t) = length (t_captured t)) ∧
  (∀ m, m ∈ getAvailableCaptures position →
     ∃ t, t ∈ allCaptureTrails position ∧ m = recordSequence t ∧
          from m = hd (to m) (t_path t) ∧
          NoDup (t_path t ++ [to m]) ∧ NoDup (captures m)).
Proof.
  assert (∀ t, t ∈ allCaptureTrails position →
     NoDup (t_path t ++ [t_pos t]) ∧ NoDup (t_captured t) ∧
     length (t_path t) = length (t_captured t)) as Htrails.
  { intros t (sq & _ & _ & Ht)%allCaptureTrails_elem.
    apply findCaptureTrails_distinct in Ht. tauto. }
  split; [done|].
  intros m (Hm & _)%getAvailableCaptures_spec.
  apply allCaptures_elem in Hm as (t & Ht & ->).
  exists t. destruct (Htrails t Ht) as (H1 & H2 & _).
  split_and!; done.
Qed.

(** ** Reading and writing squares *)

Lemma copyGrid_id g : copyGrid g = g.
Proof. unfold copyGrid. apply map_id. Qed.

Lemma pos_eq p q : row p = row q → col p = col q → p = q.
Proof. destruct p, q; simpl; congruence. Qed.

Lemma pieceAt_setPiece_ne g p q v :
  p ≠ q → pieceAt (setPiece g p v) q = pieceAt g q.
Proof.
  intros Hne. unfold pieceAt, setPiece.
  destruct (bool_decide (0 <= row q) && bool_decide (0 <= col q)) eqn:Hq; [|done].
  destruct (bool_decide (0 <= row p) && bool_decide (0 <= col p)) eqn:Hp; [|done].
  apply andb_true_iff in Hq as [Hq1 Hq2], Hp as [Hp1 Hp2].
  apply bool_decide_eq_true in Hq1, Hq2, Hp1, Hp2.
  destruct (g !! Z.to_nat (row p)) as [r|] eqn:Hr; [|done].
  destruct (decide (Z.to_nat (row p) = Z.to_nat (row q))) as [Heq|Hrow].
  - rewrite <- Heq, list_lookup_insert_eq by (by eapply lookup_lt_Some).
    rewrite Hr. rewrite list_lookup_insert_ne; [done|].
    intros Hc. apply Hne, pos_eq; lia.
  - by rewrite list_lookup_insert_ne.
Qed.

Lemma pieceAt_setPiece_eq g p v :
  inGrid g p → pieceAt (setPiece g p v) p = v.
Proof.
  intros (H1 & H2 & Hc). unfold pieceAt, setPiece.
  destruct (g !! Z.to_nat (row p)) as [r|] eqn:Hr; [|done].
  rewrite !bool_decide_eq_true_2 by done. simpl.
  rewrite list_lookup_insert_eq by (by eapply lookup_lt_Some).
  by rewrite list_lookup_insert_eq.
Qed.

Lemma pieceAt_outside g p : ¬ inGrid g p → pieceAt g p = NONE.
Proof.
  intros Hout. unfold pieceAt.
  destruct (bool_decide (0 <= row p) && bool_decide (0 <= col p)) eqn:Hp; [|done].
  apply andb_true_iff in Hp as [Hp1 Hp2]. apply bool_decide_eq_true in Hp1, Hp2.
  destruct (g !! Z.to_nat (row p)) as [r|] eqn:Hr; [|done].
  destruct (r !! Z.to_nat (col p)) eqn:Hc; [|done].
  destruct Hout. unfold inGrid. rewrite Hr. split_and!; [done..|].
  by eapply lookup_lt_Some.
Qed.

Lemma setPiece_outside g p v : ¬ inGrid g p → pieceAt (setPiece g p v) p = NONE.
Proof.
  intros Hout. unfold setPiece.
  destruct (bool_decide (0 <= row p) && bool_decide (0 <= col p)) eqn:Hp;
    [|by apply pieceAt_outside].
  apply andb_true_iff in Hp as [Hp1 Hp2]. apply bool_decide_eq_true in Hp1, Hp2.
  destruct (g !! Z.to_nat (row p)) as [r|] eqn:Hr; [|by apply pieceAt_outside].
  assert (length r ≤ Z.to_nat (col p))%nat as Hlen.
  { destruct (decide (Z.to_nat (col p) < length r)%nat); [|lia].
    destruct Hout. unfold inGrid. by rewrite Hr. }
  unfold pieceAt. rewrite !bool_decide_eq_true_2 by done. simpl.
  rewrite list_lookup_insert_eq by (by eapply lookup_lt_Some).
  rewrite list_insert_ge by done. by rewrite lookup_ge_None_2.
Qed.

(** A square holds after a write what was written, or what it held, or
    nothing. *)
Lemma pieceAt_setPiece_cases g p q v :
  pieceAt (setPiece g p v) q = v ∨ pieceAt (setPiece g p v) q = pieceAt g q.
Proof.
  destruct (decide (p = q)) as [->|Hne]; [|right; by apply pieceAt_setPiece_ne].
  destruct (decide (inGrid g q)) as [Hin|Hout].
  - left. by apply pieceAt_setPiece_eq.
  - right. rewrite setPiece_outside by done. by rewrite pieceAt_outside.
Qed.

Lemma inGrid_setPiece g p v q : inGrid (setPiece g p v) q ↔ inGrid g q.
Proof.
  unfold inGrid, setPiece.
  destruct (bool_decide (0 <= row p) && bool_decide (0 <= col p)); [|done].
  destruct (g !! Z.to_nat (row p)) as [r|] eqn:Hr; [|done].
  destruct (decide (Z.to_nat (row p) = Z.to_nat (row q))) as [Heq|Hne].
  - rewrite <- Heq, list_lookup_insert_eq by (by eapply lookup_lt_Some).
    by rewrite Hr, length_insert.
  - by rewrite list_lookup_insert_ne.
Qed.

Lemma wfGrid_inGrid g p : wfGrid g → validPos p = true → inGrid g p.
Proof.
  intros [Hlen Hrows] Hv. unfold validPos, isValidSquare in Hv.
  rewrite !andb_true_iff, !bool_decide_eq_true in Hv.
  destruct Hv as [[[H1 H2] H3] H4]. unfold BOARD_SIZE in *.
  unfold inGrid. split_and!; [done..|].
  destruct (g !! Z.to_nat (row p)) as [r|] eqn:Hr.
  - rewrite Forall_forall in Hrows. rewrite (Hrows r); [lia|].
    by eapply list_elem_of_lookup_2.
  - apply lookup_ge_None in Hr. lia.
Qed.

(** ** makeMove *)

Lemma pieceAt_setPiece_self_cases g p v :
  pieceAt (setPiece g p v) p = v ∨ pieceAt (setPiece g p v) p = NONE.
Proof.
  destruct (decide (inGrid g p)).
  - left. by apply pieceAt_setPiece_eq.
  - right. by apply setPiece_outside.
Qed.

Lemma foldl_clear g caps q :
  pieceAt (foldl (fun g cap => setPiece g cap NONE) g caps) q =
  if decide (q ∈ caps) then NONE else pieceAt g q.
Proof.
  revert g. induction caps as [|c caps IH]; intros g.
  - destruct (decide (q ∈ [])) as [H|H]; [by apply elem_of_nil in H|done].
  - change (foldl _ g (c :: caps)) with
      (foldl (fun g cap => setPiece g cap NONE) (setPiece g c NONE) caps).
    rewrite IH. destruct (decide (q ∈ caps)) as [Hin|Hnin].
    + rewrite decide_True; [done|by right].
    + destruct (decide (q = c)) as [->|Hne].
      * rewrite decide_True; [|by left].
        by destruct (pieceAt_setPiece_self_cases g c NONE).
      * rewrite decide_False; [by rewrite pieceAt_setPiece_ne|].
        intros [?|?]%elem_of_cons; done.
Qed.

Lemma inGrid_foldl_clear g caps q :
  inGrid (foldl (fun g cap => setPiece g cap NONE) g caps) q ↔ inGrid g q.
Proof.
  revert g. induction caps as [|c caps IH]; intros g; simpl; [done|].
  by rewrite IH, inGrid_setPiece.
Qed.

(** The claim of the specification about [makeMove], on a 10x10 grid, for
    a move whose squares (the source, the destination and every captured
    square) are on the board and whose destination is not one of the
    squares it captures: the piece stands on the destination (crowned when
    a man reaches its last row), the source and every captured square are
    empty, no other square changes, the side to move is toggled and the
    history is kept. *)
Lemma makeMove_spec position move :
  wfGrid (pieces position) →
  validPos (from move) = true → validPos (to move) = true →
  Forall (fun c => validPos c = true) (captures move) →
  to move ∉ captures move →
  let piece := pieceAt (pieces position) (from move) in
  let result := makeMove position move in
  currentPlayer result = otherPlayer (currentPlayer position) ∧
  history result = history position ∧
  pieceAt (pieces result) (to move) =
    (if shouldPromote piece (row (to move)) then promoted piece else piece) ∧
  (∀ c, c ∈ captures move → pieceAt (pieces result) c = NONE) ∧
  (from move ≠ to move → pieceAt (pieces result) (from move) = NONE) ∧
  (∀ s, s ≠ from move → s ≠ to move → s ∉ captures move →
        pieceAt (pieces result) s = pieceAt (pieces position) s).
Proof.
  intros Hwf Hfrom Hto _ Hnot piece result.
  unfold result, makeMove. rewrite copyGrid_id. fold piece. simpl.
  set (g1 := setPiece (pieces position) (from move) NONE).
  set (g2 := setPiece g1 (to move) piece).
  set (g3 := foldl _ g2 (captures move)).
  assert (inGrid (pieces position) (from move)) as Hinf by by apply wfGrid_inGrid.
  assert (inGrid (pieces position) (to move)) as Hint by by apply wfGrid_inGrid.
  assert (inGrid g1 (to move)) as Hint1 by by apply inGrid_setPiece.
  assert (inGrid g3 (to move)) as Hint3.
  { unfold g3. rewrite inGrid_foldl_clear. unfold g2. by rewrite inGrid_setPiece. }
  assert (pieceAt g3 (to move) = piece) as Hg3to.
  { unfold g3. rewrite foldl_clear, decide_False by done.
    unfold g2. by rewrite pieceAt_setPiece_eq. }
  split_and!; [done|done|..].
  - destruct (shouldPromote piece (row (to move))); [|done].
    by rewrite pieceAt_setPiece_eq.
  - intros c Hc.
    assert (pieceAt g3 c = NONE) as Hc3.
    { unfold g3. by rewrite foldl_clear, decide_True. }
    destruct (shouldPromote piece (row (to move))); [|done].
    rewrite pieceAt_setPiece_ne; [done|]. intros <-. done.
  - intros Hne.
    assert (pieceAt g3 (from move) = NONE) as Hf3.
    { unfold g3. rewrite foldl_clear. case_decide; [done|].
      unfold g2. rewrite pieceAt_setPiece_ne by done.
      unfold g1. by rewrite pieceAt_setPiece_eq. }
    destruct (shouldPromote piece (row (to move))); [|done].
    by rewrite pieceAt_setPiece_ne.
  - intros s Hs1 Hs2 Hs3.
    assert (pieceAt g3 s = pieceAt (pieces position) s) as Hs.
    { unfold g3. rewrite foldl_clear, decide_False by done.
      unfold g2. rewrite pieceAt_setPiece_ne by done.
      unfold g1. by rewrite pieceAt_setPiece_ne. }
    destruct (shouldPromote piece (row (to move))); [|done].
    by rewrite pieceAt_setPiece_ne.
Qed.

Lemma makeMove_spec_witness :
  let result := makeMove evenTradePosition evenTradeMove in
  wfGrid (pieces evenTradePosition) ∧
  Forall (fun c => validPos c = true) (captures evenTradeMove) ∧
  (to evenTradeMove ∉ captures evenTradeMove) ∧
  currentPlayer result = PBLACK ∧
  pieceAt (pieces result) (mkPos 3 8) = WHITE ∧
  pieceAt (pieces result) (mkPos 4 7) = NONE ∧
  pieceAt (pieces result) (mkPos 5 6) = NONE ∧
  pieceAt (pieces result) (mkPos 2 9) = BLACK.
Proof.
  intros result. subst result.
  assert (wfGrid (pieces evenTradePosition)) as Hwf.
  { split; [reflexivity|]. repeat constructor. }
  assert (to evenTradeMove ∉ captures evenTradeMove) as Hto.
  { simpl. rewrite list_elem_of_singleton. discriminate. }
  assert (Forall (fun c => validPos c = true) (captures evenTradeMove)) as Hvalid.
  { repeat constructor. }
  destruct (makeMove_spec evenTradePosition evenTradeMove Hwf eq_refl eq_refl
              Hvalid Hto)
    as (Hplayer & _ & Hdest & Hcaps & Hfrom & Hframe).
  split_and!; [exact Hwf|exact Hvalid|exact Hto|exact Hplayer|exact Hdest| | |].
  - apply Hcaps. simpl. by left.
  - apply Hfrom. discriminate.
  - rewrite (Hframe (mkPos 2 9)); [reflexivity|discriminate|discriminate|].
    simpl. rewrite list_elem_of_singleton. discriminate.
Defined.

(** Whatever the move, its destination holds afterwards the moved piece,
    the king it was crowned to, or nothing. *)
Lemma makeMove_to_cases position move :
  let piece := pieceAt (pieces position) (from move) in
  let after := pieceAt (pieces (makeMove position move)) (to move) in
  after = piece ∨ after = NONE ∨
  (after = promoted piece ∧ shouldPromote piece (row (to move)) = true).
Proof.
  intros piece after. unfold after, makeMove. rewrite copyGrid_id. fold piece. simpl.
  set (g1 := setPiece (pieces position) (from move) NONE).
  set (g2 := setPiece g1 (to move) piece).
  set (g3 := foldl _ g2 (captures move)).
  destruct (shouldPromote piece (row (to move))) eqn:Hp.
  - destruct (pieceAt_setPiece_self_cases g3 (to move) (promoted piece)) as [H|H];
      fold (promoted piece); rewrite H; auto.
  - unfold g3. rewrite foldl_clear. case_decide; [auto|].
    unfold g2. destruct (pieceAt_setPiece_self_cases g1 (to move) piece) as [Hw|Hw];
      rewrite Hw; auto.
Qed.

(** C2 (the defect).  [generateMoves] itself produces a capture whose
    destination is one of its captured squares: the search removes a jumped
    man at once, so the king may later land on that square.  [makeMove]
    places the king and then clears the captured squares, the destination
    among them: the king is gone from the board. *)
Lemma makeMove_loses_the_capturing_king :
  (loopMove 0 ∈ generateMoves darkEven (loopPosition 0) ∧
   pieceAt (pieces (loopPosition 0)) (from (loopMove 0)) = WHITE_KING ∧
   pieceAt (pieces (makeMove (loopPosition 0) (loopMove 0))) (to (loopMove 0)) = NONE ∧
   countTotalPieces (makeMove (loopPosition 0) (loopMove 0)) = 0%nat) ∧
  (loopMove 1 ∈ generateMoves darkOdd (loopPosition 1) ∧
   pieceAt (pieces (loopPosition 1)) (from (loopMove 1)) = WHITE_KING ∧
   pieceAt (pieces (makeMove (loopPosition 1) (loopMove 1))) (to (loopMove 1)) = NONE ∧
   countTotalPieces (makeMove (loopPosition 1) (loopMove 1)) = 0%nat).
Proof.
  split; (split; [|vm_compute; done]).
  - assert (generateMoves darkEven (loopPosition 0) !! 1%nat = Some (loopMove 0)) as H
      by (vm_compute; reflexivity).
    by eapply list_elem_of_lookup_2.
  - assert (generateMoves darkOdd (loopPosition 1) !! 1%nat = Some (loopMove 1)) as H
      by (vm_compute; reflexivity).
    by eapply list_elem_of_lookup_2.
Qed.

(** ** The bounds of the loops and of the recursion are never the reason a
    result is cut short *)

Lemma KING_MOVES_diagonal d : d ∈ KING_MOVES → diagonal d.
Proof.
  unfold KING_MOVES, diagonal. rewrite !elem_of_cons, elem_of_nil.
  intros [->|[->|[->|[->|[]]]]]; simpl; auto.
Qed.

Lemma scanEnemy_fuel g player d : diagonal d →
  ∀ n m p, (validPos p = true → ahead p d <= Z.of_nat n) →
           (validPos p = true → ahead p d <= Z.of_nat m) →
           scanEnemy n g player p d = scanEnemy m g player p d.
Proof.
  intros Hd. induction n as [|n IH]; intros m p Hn Hm.
  - assert (validPos p = false) as Hv.
    { destruct (validPos p) eqn:Hv; [|done]. specialize (Hn eq_refl).
      unfold validPos, isValidSquare, ahead, BOARD_SIZE in *.
      rewrite !andb_true_iff, !bool_decide_eq_true in Hv.
      case_bool_decide; lia. }
    destruct m; simpl; by rewrite ?Hv.
  - destruct m as [|m].
    + assert (validPos p = false) as Hv.
      { destruct (validPos p) eqn:Hv; [|done]. specialize (Hm eq_refl).
        unfold validPos, isValidSquare, ahead, BOARD_SIZE in *.
        rewrite !andb_true_iff, !bool_decide_eq_true in Hv.
        case_bool_decide; lia. }
      simpl; by rewrite Hv.
    + simpl. destruct (validPos p) eqn:Hv; [|done].
      case_bool_decide; [done|].
      apply IH; intros _; [specialize (Hn eq_refl)|specialize (Hm eq_refl)];
        unfold ahead, step in *; simpl; destruct Hd; case_bool_decide; lia.
Qed.

Lemma landingSquares_fuel g d : diagonal d →
  ∀ n m p, (validPos p = true → ahead p d <= Z.of_nat n) →
           (validPos p = true → ahead p d <= Z.of_nat m) →
           landingSquares n g p d = landingSquares m g p d.
Proof.
  intros Hd. induction n as [|n IH]; intros m p Hn Hm.
  - assert (validPos p = false) as Hv.
    { destruct (validPos p) eqn:Hv; [|done]. specialize (Hn eq_refl).
      unfold validPos, isValidSquare, ahead, BOARD_SIZE in *.
      rewrite !andb_true_iff, !bool_decide_eq_true in Hv.
      case_bool_decide; lia. }
    destruct m; simpl; by rewrite ?Hv.
  - destruct m as [|m].
    + assert (validPos p = false) as Hv.
      { destruct (validPos p) eqn:Hv; [|done]. specialize (Hm eq_refl).
        unfold validPos, isValidSquare, ahead, BOARD_SIZE in *.
        rewrite !andb_true_iff, !bool_decide_eq_true in Hv.
        case_bool_decide; lia. }
      simpl; by rewrite Hv.
    + simpl. destruct (validPos p) eqn:Hv; [|done]. simpl.
      case_bool_decide; [|done]. f_equal.
      apply IH; intros _; [specialize (Hn eq_refl)|specialize (Hm eq_refl)];
        unfold ahead, step in *; simpl; destruct Hd; case_bool_decide; lia.
Qed.

Lemma ahead_bound p d : validPos p = true → ahead p d <= Z.of_nat SCAN.
Proof.
  unfold validPos, isValidSquare, ahead, SCAN, BOARD_SIZE.
  rewrite !andb_true_iff, !bool_decide_eq_true. case_bool_decide; lia.
Qed.

(** More than [BOARD_SIZE] iterations change nothing: the loops of the
    flying king end because the walk leaves the board. *)
Lemma scanEnemy_enough g player p d n :
  d ∈ KING_MOVES → (SCAN ≤ n)%nat →
  scanEnemy n g player p d = scanEnemy SCAN g player p d.
Proof.
  intros Hd Hn. apply scanEnemy_fuel; [by apply KING_MOVES_diagonal|..];
    intros Hv%(ahead_bound p d); lia.
Qed.

Lemma landingSquares_enough g p d n :
  d ∈ KING_MOVES → (SCAN ≤ n)%nat →
  landingSquares n g p d = landingSquares SCAN g p d.
Proof.
  intros Hd Hn. apply landingSquares_fuel; [by apply KING_MOVES_diagonal|..];
    intros Hv%(ahead_bound p d); lia.
Qed.

(** The recursion is cut by [recursionDepth > 20] and by nothing else:
    any fuel that reaches depth 21 gives the same sequences. *)
Lemma findCaptureTrails_fuel player :
  ∀ n m g cur path caps vis rd,
    (22 ≤ n + rd)%nat → (22 ≤ m + rd)%nat →
    findCaptureTrails n g cur path caps vis player rd =
    findCaptureTrails m g cur path caps vis player rd.
Proof.
  induction n as [|n IH]; intros m g cur path caps vis rd Hn Hm.
  - destruct m; [done|]. rewrite findCaptureTrails_unfold.
    rewrite bool_decide_eq_true_2; [done|lia].
  - destruct m as [|m].
    + rewrite findCaptureTrails_unfold.
      rewrite bool_decide_eq_true_2; [done|lia].
    + rewrite !findCaptureTrails_unfold.
      case_bool_decide; [done|]. case_bool_decide; [done|].
      cbv zeta. f_equal.
      apply list_bind_ext; [|done]. intros j. apply IH; lia.
Qed.

Lemma findCaptureTrails_enough player n g start :
  (FUEL ≤ n)%nat →
  findCaptureTrails n g start [] [] ∅ player 0 =
  findCaptureTrails FUEL g start [] [] ∅ player 0.
Proof. intros Hn. apply findCaptureTrails_fuel; unfold FUEL in *; lia. Qed.

Lemma findCaptureTrails_enough_witness :
  findCaptureTrails 40 (pieces twoChainsPosition) (mkPos 6 1) [] [] ∅ PWHITE 0 =
  findCaptureTrails FUEL (pieces twoChainsPosition) (mkPos 6 1) [] [] ∅ PWHITE 0.
Proof.
  apply (findCaptureTrails_enough PWHITE 40). unfold FUEL. lia.
Defined.

(** ** What a capture can take *)

Lemma own_not_opponent piece player :
  isPieceOfCurrentPlayer piece player = true → isOpponentPiece piece player = false.
Proof. by destruct piece, player. Qed.

Lemma scanEnemy_opponent n g player p d e :
  scanEnemy n g player p d = Some e →
  isOpponentPiece (pieceAt g e) player = true.
Proof.
  revert p. induction n as [|n IH]; intros p; simpl; [done|].
  destruct (validPos p); [|done].
  case_bool_decide; [|by apply IH].
  destruct (isOpponentPiece (pieceAt g p) player) eqn:Ho; [|done].
  by intros [= <-].
Qed.

(** The jumped square of a jump holds a piece of the opponent. *)
Lemma isJump_enemy player g cur caps j :
  isJump player g cur caps j → isOpponentPiece (pieceAt g j.1) player = true.
Proof.
  intros (d & _ & Hj). unfold dirJumps in Hj.
  destruct (isKingPiece _).
  - destruct (scanEnemy _ _ _ _ _) as [e|] eqn:He; [|by apply elem_of_nil in Hj].
    destruct (negb _); [|by apply elem_of_nil in Hj].
    apply list_elem_of_fmap in Hj as (land & -> & _). simpl.
    by eapply scanEnemy_opponent.
  - destruct (_ && _ && _) eqn:Hc; [|by apply elem_of_nil in Hj].
    destruct (negb _); [|by apply elem_of_nil in Hj].
    apply list_elem_of_singleton in Hj as ->. simpl.
    by apply andb_true_iff in Hc as [_ ?].
Qed.

(** A jump puts no piece of the opponent on the board. *)
Lemma applyJump_opponent player g cur e land s :
  isOpponentPiece (pieceAt g cur) player = false →
  isOpponentPiece (pieceAt (applyJump g cur e land) s) player = true →
  isOpponentPiece (pieceAt g s) player = true.
Proof.
  intros Hcur. unfold applyJump. rewrite copyGrid_id.
  set (g1 := setPiece g cur NONE). set (g2 := setPiece g1 e NONE).
  destruct (pieceAt_setPiece_cases g2 land s (pieceAt g cur)) as [-> | ->];
    [congruence|].
  unfold g2. destruct (pieceAt_setPiece_cases g1 e s NONE) as [-> | ->];
    [by destruct player|].
  unfold g1. destruct (pieceAt_setPiece_cases g cur s NONE) as [-> | ->];
    [by destruct player|done].
Qed.

Lemma applyJump_landing player g cur e land :
  isOpponentPiece (pieceAt g cur) player = false →
  isOpponentPiece (pieceAt (applyJump g cur e land) land) player = false.
Proof.
  intros Hcur. unfold applyJump. rewrite copyGrid_id.
  destruct (pieceAt_setPiece_self_cases
              (setPiece (setPiece g cur NONE) e NONE) land (pieceAt g cur))
    as [-> | ->]; [done|by destruct player].
Qed.

(** Every square a recorded sequence captures held a piece of the opponent
    in the grid the search started from. *)
Lemma findCaptureTrails_opponents player g0 start t :
  isOpponentPiece (pieceAt g0 start) player = false →
  t ∈ findCaptureTrails FUEL g0 start [] [] ∅ player 0 →
  ∀ s, s ∈ t_captured t → isOpponentPiece (pieceAt g0 s) player = true.
Proof.
  intros Hstart.
  apply (findCaptureTrails_invariant player
    (fun g cur _ caps _ =>
       isOpponentPiece (pieceAt g cur) player = false ∧
       (∀ s, s ∈ caps → isOpponentPiece (pieceAt g0 s) player = true) ∧
       (∀ s, isOpponentPiece (pieceAt g s) player = true →
             isOpponentPiece (pieceAt g0 s) player = true))
    (fun t => ∀ s, s ∈ t_captured t → isOpponentPiece (pieceAt g0 s) player = true)).
  - intros g cur path caps vis (_ & Hcaps & _) _ _. exact Hcaps.
  - intros g cur path caps vis j (Hcur & Hcaps & Hg) _ Hj. split_and!.
    + by apply applyJump_landing.
    + intros s [Hs|Hs]%elem_of_app; [by apply Hcaps|].
      apply list_elem_of_singleton in Hs as ->.
      apply Hg. by eapply isJump_enemy.
    + intros s Hs. apply Hg. by eapply applyJump_opponent.
  - split_and!; [done| |done]. intros s Hs. by apply elem_of_nil in Hs.
Qed.

Lemma allCaptures_opponents position m s :
  m ∈ allCaptures position → s ∈ captures m →
  isOpponentPiece (pieceAt (pieces position) s) (currentPlayer position) = true.
Proof.
  intros (t & Ht & ->)%allCaptures_elem Hs.
  apply allCaptureTrails_elem in Ht as (sq & _ & Hown & Ht).
  eapply findCaptureTrails_opponents; [|exact Ht|exact Hs].
  by apply own_not_opponent.
Qed.

Lemma getAvailableCaptures_opponents position m s :
  m ∈ getAvailableCaptures position → s ∈ captures m →
  isOpponentPiece (pieceAt (pieces position) s) (currentPlayer position) = true.
Proof.
  intros [Hm _]%getAvailableCaptures_spec. by apply allCaptures_opponents.
Qed.

(** The capturing piece of a generated capture is the mover's. *)
Lemma getAvailableCaptures_from position m :
  m ∈ getAvailableCaptures position →
  isPieceOfCurrentPlayer (pieceAt (pieces position) (from m))
                         (currentPlayer position) = true.
Proof.
  intros [Hm _]%getAvailableCaptures_spec.
  apply allCaptures_elem in Hm as (t & Ht & ->).
  apply allCaptureTrails_elem in Ht as (sq & _ & Hown & Ht).
  apply findCaptureTrails_distinct in Ht as (_ & _ & Hhd & _).
  unfold recordSequence. simpl. by rewrite Hhd.
Qed.

(** No capture of the side to move takes a square that does not hold a
    piece of the other side. *)
Lemma no_capture_of_square position sq :
  isOpponentPiece (pieceAt (pieces position) sq) (currentPlayer position) = false →
  filter (fun recap => capturesSquare sq recap = true)
         (getAvailableCaptures position) = [] ∧
  existsb (capturesSquare sq) (getAvailableCaptures position) = false.
Proof.
  intros Hsq.
  assert (∀ m, m ∈ getAvailableCaptures position → capturesSquare sq m = false) as Hno.
  { intros m Hm. unfold capturesSquare. apply containsPos_false. intros Hs.
    pose proof (getAvailableCaptures_opponents _ _ _ Hm Hs). congruence. }
  split.
  - induction (getAvailableCaptures position) as [|m l IH]; [done|].
    rewrite filter_cons. rewrite decide_False.
    + apply IH. intros m' Hm'. apply Hno. by right.
    + rewrite Hno; [done|by left].
  - induction (getAvailableCaptures position) as [|m l IH]; [done|].
    simpl. rewrite Hno by (by left). simpl. apply IH.
    intros m' Hm'. apply Hno. by right.
Qed.

(** ** Static exchange evaluation *)

Lemma promoted_not_opponent piece r player :
  shouldPromote piece r = true →
  isOpponentPiece piece player = false →
  isOpponentPiece (promoted piece) player = false.
Proof.
  unfold shouldPromote, promoted.
  destruct piece, player; simpl; try done; by rewrite ?andb_false_r.
Qed.

(** After a move of a piece that is not the opponent's, the destination
    holds no piece of the opponent. *)
Lemma makeMove_to_not_opponent position move player :
  isOpponentPiece (pieceAt (pieces position) (from move)) player = false →
  isOpponentPiece (pieceAt (pieces (makeMove position move)) (to move)) player = false.
Proof.
  intros Hfrom.
  destruct (makeMove_to_cases position move) as [-> | [-> | [-> Hp]]];
    [done|by destruct player|by eapply promoted_not_opponent].
Qed.

(** The position [staticExchangeEvaluation] and [isMoveReallySafe] look for
    replies in has the mover to move again, so no reply takes the piece
    that just moved. *)
Lemma no_recapture_found position move :
  isOpponentPiece (pieceAt (pieces position) (from move)) (currentPlayer position) = false →
  let afterMove :=
    setCurrentPlayer (makeMove position move) (currentPlayer position) in
  filter (fun recap => capturesSquare (to move) recap = true)
         (getAvailableCaptures afterMove) = [] ∧
  existsb (capturesSquare (to move)) (getAvailableCaptures afterMove) = false.
Proof.
  intros Hfrom afterMove. apply no_capture_of_square.
  unfold afterMove. simpl. by apply makeMove_to_not_opponent.
Qed.

Lemma seeFuel_unfold fuel position move :
  seeFuel (S fuel) position move =
  if bool_decide (captures move = []) then Some 0
  else
    let gain := captureGain position move in
    let afterMove :=
      setCurrentPlayer (makeMove position move) (currentPlayer position) in
    let recaptures :=
      filter (fun recap => capturesSquare (to move) recap = true)
             (getAvailableCaptures afterMove) in
    if bool_decide (recaptures = []) then Some gain
    else
      match leastValuableAttacker afterMove recaptures with
      | Some bestRecapture =>
        let ourPieceValue := getPieceValue (pieceAt (pieces position) (from move)) in
        continuation ← seeFuel fuel afterMove bestRecapture;
        Some (gain - ourPieceValue - continuation)
      | None => Some gain
      end.
Proof. reflexivity. Qed.

(** For a move of the mover's own piece the exchange stops at once: the
    result is the value of what the move captures. *)
Lemma seeFuel_own_piece fuel position move :
  isOpponentPiece (pieceAt (pieces position) (from move)) (currentPlayer position) = false →
  seeFuel (S fuel) position move =
  Some (if bool_decide (captures move = []) then 0 else captureGain position move).
Proof.
  intros Hfrom. rewrite seeFuel_unfold. case_bool_decide; [done|].
  cbv zeta. destruct (no_recapture_found position move Hfrom) as [-> _].
  by rewrite bool_decide_eq_true_2.
Qed.

Lemma leastValuableAttacker_elem afterMove recaptures best :
  leastValuableAttacker afterMove recaptures = Some best → best ∈ recaptures.
Proof.
  unfold leastValuableAttacker.
  assert (∀ l st, (foldl (fun (best : option Move * option Z) recap =>
            let attackerValue :=
              getPieceValue (pieceAt (pieces afterMove) (from recap)) in
            match best.2 with
            | Some bestRecaptureValue =>
              if bool_decide (attackerValue < bestRecaptureValue)
              then (Some recap, Some attackerValue) else best
            | None => (Some recap, Some attackerValue)
            end) st l).1 = Some best → st.1 = Some best ∨ best ∈ l) as Hgen.
  { induction l as [|x l IH]; intros st; simpl; [auto|].
    intros [H|H]%IH; [|right; by right].
    destruct st as [b [v|]]; simpl in H.
    - case_bool_decide; simpl in H; [|auto].
      injection H as <-. right; by left.
    - injection H as <-. right; by left. }
  intros [H|H]%Hgen; [done|done].
Qed.

(** The recursion of [staticExchangeEvaluation] is at most two calls deep,
    whatever the move: it returns, and more fuel changes nothing. *)
Lemma seeFuel_total fuel position move :
  is_Some (seeFuel (S (S fuel)) position move) ∧
  seeFuel (S (S fuel)) position move = seeFuel 2 position move.
Proof.
  rewrite !(seeFuel_unfold (S _)). case_bool_decide; [by eauto|].
  cbv zeta. case_bool_decide; [by eauto|].
  destruct (leastValuableAttacker _ _) as [best|] eqn:Hbest; [|by eauto].
  apply leastValuableAttacker_elem in Hbest.
  apply list_elem_of_filter in Hbest as [_ Hbest].
  apply getAvailableCaptures_from, own_not_opponent in Hbest.
  rewrite !(seeFuel_own_piece _ _ best Hbest). simpl. by eauto.
Qed.

Lemma staticExchangeEvaluation_fuel fuel position move :
  seeFuel (S (S fuel)) position move = Some (staticExchangeEvaluation position move).
Proof.
  unfold staticExchangeEvaluation, SEE_FUEL.
  destruct (seeFuel_total fuel position move) as [[v Hv] Heq].
  destruct (seeFuel_total 99 position move) as [_ Heq'].
  rewrite Heq', <- Heq, Hv. done.
Qed.

Lemma captureGain_nonneg position move : 0 <= captureGain position move.
Proof.
  unfold captureGain.
  assert (∀ l acc, 0 <= acc →
    0 <= foldl (fun gain cap => gain + getPieceValue (pieceAt (pieces position) cap))
               acc l) as H.
  { induction l as [|c l IH]; intros acc Hacc; simpl; [done|].
    apply IH. destruct (pieceAt (pieces position) c); simpl; lia. }
  by apply H.
Qed.

(** What the code computes: for every move of the mover's own piece,
    the value of the captured pieces, with no exchange at all. *)
Lemma staticExchangeEvaluation_is_gain position move :
  isOpponentPiece (pieceAt (pieces position) (from move)) (currentPlayer position) = false →
  staticExchangeEvaluation position move =
  if bool_decide (captures move = []) then 0 else captureGain position move.
Proof.
  intros Hfrom. pose proof (staticExchangeEvaluation_fuel 0 position move) as H.
  rewrite (seeFuel_own_piece _ _ _ Hfrom) in H. by injection H as <-.
Qed.

(** C4, first half: a capture of one piece that no reply takes back is
    worth the captured piece. *)
Lemma staticExchangeEvaluation_hanging position move c :
  captures move = [c] →
  filter (fun recap => capturesSquare (to move) recap = true)
    (getAvailableCaptures
       (setCurrentPlayer (makeMove position move) (currentPlayer position))) = [] →
  staticExchangeEvaluation position move = getPieceValue (pieceAt (pieces position) c).
Proof.
  intros Hc Hno. pose proof (staticExchangeEvaluation_fuel 0 position move) as H.
  rewrite seeFuel_unfold in H. rewrite bool_decide_eq_false_2 in H by (by rewrite Hc).
  cbv zeta in H. rewrite Hno in H. rewrite bool_decide_eq_true_2 in H by done.
  injection H as <-. unfold captureGain. rewrite Hc. simpl. lia.
Qed.

Lemma staticExchangeEvaluation_hanging_witness :
  let position := mkPosition (place emptyGrid [(5, 6, WHITE); (4, 7, BLACK_KING)])
                             PWHITE [] in
  let move := mkMove (mkPos 5 6) (mkPos 3 8) [mkPos 4 7] in
  generateMoves darkOdd position = [move] ∧
  staticExchangeEvaluation position move = 450.
Proof.
  intros position move. split; [vm_compute; reflexivity|].
  apply (staticExchangeEvaluation_hanging position move (mkPos 4 7)).
  - reflexivity.
  - vm_compute. reflexivity.
Defined.

(** C4, second half, on the code.  In [evenTradePosition] the white man
    takes a man and is taken back by a man, and nothing follows: an even
    trade, worth 100 - 100 = 0.  The code returns 100: it looks for the
    reply with White to move again and finds none. *)
Theorem staticExchangeEvaluation_even_trade :
  let afterMove := makeMove evenTradePosition evenTradeMove in
  let reply := mkMove (mkPos 2 9) (mkPos 4 7) [mkPos 3 8] in
  evenTradeMove ∈ generateMoves darkOdd evenTradePosition ∧
  getAvailableCaptures afterMove = [reply] ∧
  getPieceValue (pieceAt (pieces afterMove) (from reply)) =
    getPieceValue (pieceAt (pieces evenTradePosition) (from evenTradeMove)) ∧
  getAvailableCaptures (makeMove afterMove reply) = [] ∧
  captureGain evenTradePosition evenTradeMove = 100 ∧
  getPieceValue (pieceAt (pieces evenTradePosition) (from evenTradeMove)) = 100 ∧
  staticExchangeEvaluation evenTradePosition evenTradeMove = 100 ∧
  staticExchangeEvaluation evenTradePosition evenTradeMove ≠ 100 - 100.
Proof.
  intros afterMove reply.
  assert (staticExchangeEvaluation evenTradePosition evenTradeMove = 100) as Hsee
    by (vm_compute; reflexivity).
  split_and!; try (vm_compute; reflexivity).
  - assert (generateMoves darkOdd evenTradePosition !! 0%nat = Some evenTradeMove) as H
      by (vm_compute; reflexivity).
    by eapply list_elem_of_lookup_2.
  - rewrite Hsee. done.
Qed.

(** ** Who writes to a grid it was given *)

Lemma setPiece_restore g sq v :
  inGrid g sq → setPiece (setPiece g sq v) sq (pieceAt g sq) = g.
Proof.
  intros (H1 & H2 & Hin). unfold setPiece, pieceAt.
  rewrite !bool_decide_eq_true_2 by done. simpl.
  destruct (g !! Z.to_nat (row sq)) as [r|] eqn:Hr; [|done].
  assert (Z.to_nat (row sq) < length g)%nat as Hlen by (by eapply lookup_lt_Some).
  rewrite list_lookup_insert_eq by done.
  rewrite list_insert_insert_eq, list_insert_insert_eq.
  destruct (r !! Z.to_nat (col sq)) as [x|] eqn:Hx.
  - simpl. rewrite (list_insert_id r) by done. by rewrite list_insert_id.
  - apply lookup_ge_None in Hx. lia.
Qed.

Lemma gridOf_write h ref sq v :
  (ref < length h)%nat →
  Shared.gridOf (Shared.write h ref sq v) ref = setPiece (Shared.gridOf h ref) sq v.
Proof.
  intros Hlen. unfold Shared.gridOf at 1, Shared.write.
  by rewrite list_lookup_insert_eq.
Qed.

(** [makeMove] leaves every grid of the store as it was, the grid of the
    position it was given among them, and returns a position on a new
    grid. *)
Lemma makeMoveShared_frame h position move :
  let result := (Shared.makeMove h position move).1 in
  let h' := (Shared.makeMove h position move).2 in
  (∀ ref, (ref < length h)%nat → h' !! ref = h !! ref) ∧
  Shared.piecesRef result = length h ∧
  Shared.view h' result = makeMove (Shared.view h position) move.
Proof.
  unfold Shared.makeMove. simpl. split_and!.
  - intros ref Href. by rewrite lookup_app_l.
  - done.
  - unfold Shared.view, Shared.gridOf. simpl.
    rewrite lookup_app_r, Nat.sub_diag by done. simpl. done.
Qed.

(** [countAttackers] writes to the grid it was given and writes the old
    piece back: the store is the same when it returns. *)
Lemma countAttackersShared_restores h position r c attackingPlayer :
  (Shared.piecesRef position < length h)%nat →
  inGrid (Shared.gridOf h (Shared.piecesRef position)) (mkPos r c) →
  Shared.countAttackers h position r c attackingPlayer =
  (countAttackers (Shared.view h position) r c attackingPlayer, h).
Proof.
  intros Href Hin. unfold Shared.countAttackers, countAttackers. simpl.
  f_equal.
  - unfold Shared.view. simpl. by rewrite gridOf_write.
  - unfold Shared.write at 1. rewrite gridOf_write by done.
    rewrite setPiece_restore by done.
    unfold Shared.write. rewrite list_insert_insert_eq.
    apply list_insert_id. unfold Shared.gridOf.
    destruct (h !! Shared.piecesRef position) eqn:E; [done|].
    apply lookup_ge_None in E. lia.
Qed.

Lemma countAttackersShared_restores_witness :
  Shared.countAttackers sharedHeap sharedPosition 5 6 PBLACK =
  (countAttackers evenTradePosition 5 6 PBLACK, sharedHeap).
Proof.
  apply (countAttackersShared_restores sharedHeap sharedPosition 5 6 PBLACK).
  - simpl. lia.
  - vm_compute. split_and!; [discriminate|discriminate|lia].
Defined.

(** C6 on the code.  [detectPinsAndSkewers] erases every piece of the side
    to move from the grid of the position it was given and never puts one
    back: after the call the white man of [evenTradePosition] is gone. *)
Theorem detectPinsAndSkewers_erases_the_mover :
  let before := Shared.view sharedHeap sharedPosition in
  let after := Shared.view (Shared.detectPinsAndSkewers sharedHeap sharedPosition).2
                           sharedPosition in
  before = evenTradePosition ∧
  pieceAt (pieces before) (mkPos 5 6) = WHITE ∧
  pieceAt (pieces after) (mkPos 5 6) = NONE ∧
  pieces after ≠ pieces before ∧
  countTotalPieces before = 3%nat ∧ countTotalPieces after = 2%nat.
Proof.
  intros before after.
  assert (pieceAt (pieces after) (mkPos 5 6) = NONE) as Hafter
    by (vm_compute; reflexivity).
  split_and!; try (vm_compute; reflexivity).
  intros Heq. rewrite Heq in Hafter. vm_compute in Hafter. discriminate.
Qed.

(** ** negamax at a position without a legal move *)

Section NegamaxFacts.
Variable isDarkSquare : Z → Z → bool.
Variable clock : nat → Z.
Variable negamaxMoves :
  AI → Position → Z → Score → Score → Z → Q → Z → Z → string →
  list Move → Score * AI.
Variable quiescenceCaptures :
  AI → Position → Score → Score → Z → Z → Q → Z → Score →
  list Move → Score * AI.

Local Abbreviation negamax :=
  (negamax isDarkSquare clock negamaxMoves quiescenceCaptures).

Local Abbreviation timeCheckFires := (timeCheckFires clock).
Local Abbreviation isRepetition := (isRepetition isDarkSquare).


End NegamaxFacts.



(** ** The safety check on generated moves *)

(** [isMoveReallySafe] answers true for every move of one of the mover's
    own pieces: it looks for the opponent's replies with the mover to move. *)
Lemma isMoveReallySafe_own_piece position move :
  isOpponentPiece (pieceAt (pieces position) (from move)) (currentPlayer position) = false →
  isMoveReallySafe position move = true.
Proof.
  intros Hfrom. unfold isMoveReallySafe.
  case_bool_decide as Hc; simpl.
  - destruct (no_recapture_found position move Hfrom) as [_ Hex].
    case_bool_decide; [done|]. by rewrite Hex.
  - apply bool_decide_eq_true.
    rewrite staticExchangeEvaluation_is_gain by done.
    rewrite bool_decide_eq_false_2 by done. apply captureGain_nonneg.
Qed.

Section GeneratedMoves.
Variable isDarkSquare : Z → Z → bool.

Lemma normalMoves_from position m :
  m ∈ normalMoves isDarkSquare position →
  isPieceOfCurrentPlayer (pieceAt (pieces position) (from m))
                         (currentPlayer position) = true.
Proof.
  unfold normalMoves. intros (sq & Hm & _)%list_elem_of_bind.
  destruct (isPieceOfCurrentPlayer _ _) eqn:Hown; [|by apply elem_of_nil in Hm].
  assert (from m = sq) as ->; [|done].
  unfold addNormalMovesForPiece in Hm.
  destruct (isKingPiece _).
  - apply list_elem_of_bind in Hm as (d & Hm & _).
    apply list_elem_of_fmap in Hm as (t & -> & _). by destruct sq.
  - apply list_elem_of_bind in Hm as (d & Hm & _).
    destruct (_ && _ && _); [|by apply elem_of_nil in Hm].
    apply list_elem_of_singleton in Hm as ->. by destruct sq.
Qed.

Lemma generateMoves_from position m :
  m ∈ generateMoves isDarkSquare position →
  isPieceOfCurrentPlayer (pieceAt (pieces position) (from m))
                         (currentPlayer position) = true.
Proof.
  unfold generateMoves. case_bool_decide.
  - apply getAvailableCaptures_from.
  - apply normalMoves_from.
Qed.

(** Every generated move passes the safety check. *)
Lemma isMoveReallySafe_generated position m :
  m ∈ generateMoves isDarkSquare position → isMoveReallySafe position m = true.
Proof.
  intros Hm. apply isMoveReallySafe_own_piece, own_not_opponent.
  by apply generateMoves_from.
Qed.

End GeneratedMoves.

(** ** Sorting by a rational comparator *)

Lemma sortInsertQ_perm {A} (cmp : A → A → Q) x l : TT.sortInsertQ cmp x l ≡ₚ x :: l.
Proof.
  induction l as [|y l IH]; simpl; [done|].
  destruct (Qle_bool _ _); [done|]. rewrite IH. apply perm_swap.
Qed.

Lemma sortByQ_perm {A} (cmp : A → A → Q) l : TT.sortByQ cmp l ≡ₚ l.
Proof.
  induction l as [|x l IH]; [done|].
  unfold TT.sortByQ in *. simpl. by rewrite sortInsertQ_perm, IH.
Qed.

(** ** The search driver *)

Section Driver.
Variable isDarkSquare : Z → Z → bool.
Variable clock : nat → Z.
Variable random5 : nat → Z.
Variable negamaxMoves :
  AI → Position → Z → Score → Score → Z → Q → Z → Z → string →
  list Move → Score * AI.
Variable quiescenceCaptures :
  AI → Position → Score → Score → Z → Z → Q → Z → Score →
  list Move → Score * AI.

Local Abbreviation searchLoop :=
  (searchLoop isDarkSquare clock negamaxMoves quiescenceCaptures).
Local Abbreviation searchBestMove :=
  (searchBestMove isDarkSquare clock random5 negamaxMoves quiescenceCaptures).
Local Abbreviation deepenStep :=
  (deepenStep isDarkSquare clock random5 negamaxMoves quiescenceCaptures).
Local Abbreviation deepen :=
  (deepen isDarkSquare clock random5 negamaxMoves quiescenceCaptures).
Local Abbreviation getBestMove :=
  (getBestMove isDarkSquare clock random5 negamaxMoves quiescenceCaptures).

Lemma scored_moves {S} (f : S → Move → Q * S) moves :
  ∀ acc s,
    map fst (foldl (fun (acc : list (Move * Q) * S) move =>
                      let '(score, s) := f acc.2 move in
                      (acc.1 ++ [(move, score)], s)) (acc, s) moves).1
    = map fst acc ++ moves.
Proof.
  induction moves as [|m moves IH]; intros acc s; simpl.
  - by rewrite app_nil_r.
  - destruct (f s m) as [score s']. rewrite IH, map_app. simpl.
    by rewrite <- app_assoc.
Qed.

Lemma orderMovesAtRoot_perm ai moves position :
  (orderMovesAtRoot isDarkSquare random5 ai moves position).1 ≡ₚ moves.
Proof.
  unfold orderMovesAtRoot.
  pose proof (scored_moves (fun a m => rootOrderScore isDarkSquare random5 a position m)
                moves [] ai) as Hs.
  destruct (foldl _ _ moves) as [scored ai']. simpl in *.
  rewrite <- Hs. apply Permutation_map. apply sortByQ_perm.
Qed.

Lemma orFirst_elem bestMove ordered m :
  (∀ b, bestMove = Some b → b ∈ ordered) →
  orFirst bestMove ordered = Some m → m ∈ ordered.
Proof.
  intros Hb. unfold orFirst. destruct bestMove; [by auto|].
  destruct ordered; simpl; [done|]. intros [= ->]. by left.
Qed.

(** The move [searchBestMove] returns is one of the moves it ordered. *)
Lemma searchLoop_move rest ordered :
  ∀ first position depth alpha beta startTime timeLimit bestMove bestScore ai m,
    (∀ x, x ∈ rest → x ∈ ordered) →
    (∀ b, bestMove = Some b → b ∈ ordered) →
    r_move (searchLoop rest ordered first position depth alpha beta startTime
              timeLimit bestMove bestScore ai).1 = Some m →
    m ∈ ordered.
Proof.
  induction rest as [|move rest IH];
    intros first position depth alpha beta startTime timeLimit bestMove bestScore ai m
           Hrest Hbest; simpl.
  - by apply orFirst_elem.
  - destruct (timeExceeded _ _ _ || searchAborted _); [by apply orFirst_elem|].
    match goal with
    | |- context [let '(score, ai) := ?e in _] => destruct e as [score ai1]
    end.
    assert (move ∈ ordered) as Hmove by (apply Hrest; by left).
    destruct (score_ltb bestScore score).
    + destruct (score_geb _ _); simpl.
      * intros Hm. apply (orFirst_elem (Some move) ordered m); [|exact Hm].
        by intros b [= <-].
      * apply IH; [intros x Hx; apply Hrest; by right|by intros b [= <-]].
    + destruct (score_geb _ _); simpl.
      * intros Hm. by apply (orFirst_elem bestMove ordered m).
      * apply IH; [intros x Hx; apply Hrest; by right|done].
Qed.

Lemma searchBestMove_move ai position depth alpha beta startTime timeLimit m :
  r_move (searchBestMove ai position depth alpha beta startTime timeLimit).1 = Some m →
  m ∈ generateMoves isDarkSquare position.
Proof.
  unfold searchBestMove.
  pose proof (orderMovesAtRoot_perm ai (generateMoves isDarkSquare position) position)
    as Hperm.
  destruct (orderMovesAtRoot _ _ _ _ _) as [moves ai']. simpl in Hperm.
  intros Hm. rewrite <- Hperm.
  eapply searchLoop_move; [| |exact Hm]; [done|done].
Qed.

(** A completed depth leaves a generated move as the best move. *)
Lemma deepenStep_move position startTime maxDepth depth st next stop :
  d_bestMove st ∈ generateMoves isDarkSquare position →
  deepenStep position startTime maxDepth depth st = Completed next stop →
  d_bestMove next ∈ generateMoves isDarkSquare position.
Proof.
  intros Hst. unfold deepenStep.
  destruct (dateNow clock (d_ai st)) as [now ai0].
  destruct (negb _ || searchAborted ai0); [done|].
  destruct (if bool_decide (3 < depth) && _ then _ else _) as [alpha beta].
  destruct (searchBestMove ai0 position depth alpha beta startTime (d_timeLimit st))
    as [result ai1] eqn:Hsearch.
  assert (∀ m, r_move result = Some m → m ∈ generateMoves isDarkSquare position)
    as Hres.
  { intros m Hm. eapply searchBestMove_move. by rewrite Hsearch. }
  assert (∃ result' ai2,
    (if score_leb (r_score result) alpha || score_geb (r_score result) beta
     then
       let '(retry, ai) :=
         searchBestMove ai1 position depth NegInfinity Infinity startTime
                        (d_timeLimit st) in
       match r_move retry with
       | Some m => (mkResult (Some m) (r_score retry) (r_timeout result), ai)
       | None => (result, ai)
       end
     else (result, ai1)) = (result', ai2) ∧
    ∀ m, r_move result' = Some m → m ∈ generateMoves isDarkSquare position)
    as (result' & ai2 & -> & Hres').
  { destruct (_ || _); [|by eauto].
    destruct (searchBestMove ai1 position depth NegInfinity Infinity startTime
                (d_timeLimit st)) as [retry ai2] eqn:Hretry.
    destruct (r_move retry) as [m|] eqn:Hm; [|by eauto].
    eexists _, _. split; [done|]. simpl. intros m' [= <-].
    eapply searchBestMove_move. by rewrite Hretry. }
  destruct (r_timeout result' || searchAborted ai2); [done|].
  destruct (r_move result') as [m|] eqn:Hm.
  - destruct (dateNow clock ai2) as [? ai3].
    destruct (score_abs_gtb _ _); intros [= <- <-]; simpl; by apply Hres'.
  - intros [= <- <-]. done.
Qed.

Lemma deepen_move n position startTime maxDepth :
  ∀ depth st,
    d_bestMove st ∈ generateMoves isDarkSquare position →
    d_bestMove (deepen n position startTime maxDepth depth st)
      ∈ generateMoves isDarkSquare position.
Proof.
  induction n as [|n IH]; intros depth st Hst; simpl; [done|].
  destruct (deepenStep position startTime maxDepth depth st) as [ai'|next stop] eqn:Hstep.
  - done.
  - apply deepenStep_move in Hstep; [|done].
    destruct stop; [done|by apply IH].
Qed.

(** The final safety check lets a generated move through unchanged. *)
Lemma finalGate_generated ai position bestMove :
  bestMove ∈ generateMoves isDarkSquare position →
  finalGate random5 ai position (generateMoves isDarkSquare position) bestMove
    = (bestMove, ai).
Proof.
  intros Hb. unfold finalGate.
  by rewrite (isMoveReallySafe_generated isDarkSquare position bestMove Hb).
Qed.

Lemma deepen_no_result n position startTime maxDepth depth st aborted :
  deepenStep position startTime maxDepth depth st = NoResult aborted →
  d_bestMove (deepen n position startTime maxDepth depth st) = d_bestMove st.
Proof.
  intros Hstep. destruct n as [|n]; [done|].
  cbn [deepen]. by rewrite Hstep.
Qed.

Lemma quickTacticalScan_move position moves m :
  quickTacticalScan isDarkSquare position moves = Some m → m ∈ moves.
Proof.
  unfold quickTacticalScan.
  set (value := evaluateCaptureSequence isDarkSquare position).
  pose proof (sortByQ_perm (fun a b => (value b - value a)%Q)
                (filter (fun m => captures m ≠ []) moves)) as Hperm.
  destruct (TT.sortByQ _ _) as [|best [|second rest]]; [done| |].
  - intros [= <-].
    assert (best ∈ filter (fun m => captures m ≠ []) moves) as Hin
      by (rewrite <- Hperm; by left).
    by apply list_elem_of_filter in Hin as [_ Hin].
  - destruct (negb _); [|done]. intros [= <-].
    assert (best ∈ filter (fun m => captures m ≠ []) moves) as Hin
      by (rewrite <- Hperm; by left).
    by apply list_elem_of_filter in Hin as [_ Hin].
Qed.

Lemma resetSearch_fields ai :
  nodeCount (resetSearch clock ai) = 0 ∧
  searchAborted (resetSearch clock ai) = false ∧
  positionHistory (resetSearch clock ai) = [] ∧
  killerMoves (resetSearch clock ai) = freshKillerMoves ∧
  cache (resetSearch clock ai) = cache ai ∧
  evalCache (resetSearch clock ai) = evalCache ai ∧
  clockReads (resetSearch clock ai) = S (clockReads ai).
Proof. by destruct ai. Qed.


End Driver.


(** ** The insertion-ordered map *)

Section JSMapFacts.
Context {V : Type}.
Implicit Types (m : list (string * V)) (k : string) (v : V).

Lemma mapGet_mapSet_eq k v m : mapGet k (mapSet k v m) = Some v.
Proof.
  induction m as [|[k' v'] m IH]; simpl.
  - by rewrite bool_decide_eq_true_2.
  - case_bool_decide as Hk; simpl.
    + by rewrite bool_decide_eq_true_2.
    + by rewrite bool_decide_eq_false_2.
Qed.

Lemma mapGet_mapSet_ne k k' v m : k ≠ k' → mapGet k' (mapSet k v m) = mapGet k' m.
Proof.
  intros Hne. induction m as [|[k0 v0] m IH]; simpl.
  - by rewrite bool_decide_eq_false_2.
  - case_bool_decide as Hk; simpl.
    + subst k0. by rewrite !bool_decide_eq_false_2.
    + by rewrite IH.
Qed.

Lemma mapGet_mapDelete k k' m :
  mapGet k (mapDelete k' m) = if bool_decide (k = k') then None else mapGet k m.
Proof.
  unfold mapDelete. induction m as [|[k0 v0] m IH].
  - simpl. by case_bool_decide.
  - rewrite filter_cons. destruct (decide ((k0, v0).1 ≠ k')) as [Hk0|Hk0]; simpl in *.
    + rewrite IH. repeat case_bool_decide; congruence.
    + apply dec_stable in Hk0. subst k0. rewrite IH.
      repeat case_bool_decide; congruence.
Qed.

Lemma mapGet_foldl_delete k (ks : list (string * V)) m v :
  mapGet k (foldl (fun m kv => mapDelete kv.1 m) m ks) = Some v →
  mapGet k m = Some v.
Proof.
  revert m. induction ks as [|k0 ks IH]; intros m; simpl; [done|].
  intros H%IH. rewrite mapGet_mapDelete in H. by case_bool_decide.
Qed.

Lemma mapGet_fmap (f : V → V) k m :
  mapGet k (map (fun kv => (kv.1, f kv.2)) m) = f <$> mapGet k m.
Proof.
  induction m as [|[k0 v0] m IH]; simpl; [done|]. by case_bool_decide.
Qed.

End JSMapFacts.

(** ** The transposition table *)

Import TT.

(** [cleanup] ages and deletes entries; it never creates one and never
    changes a stored depth. *)
Lemma cleanup_get t key e :
  mapGet key (table (cleanup t)) = Some e →
  ∃ e0, mapGet key (table t) = Some e0 ∧ depth e = depth e0.
Proof.
  unfold cleanup. simpl. intros H%mapGet_foldl_delete.
  rewrite (mapGet_fmap ageEntry) in H.
  destruct (mapGet key (table t)) as [e0|]; [|done].
  exists e0. split; [done|]. by inversion H.
Qed.

Lemma lookup_cases t key minDepth alpha beta :
  (lookup t key minDepth alpha beta).1 =
  match mapGet key (table t) with
  | None => Null
  | Some e =>
    if bool_decide (depth e < minDepth) then Null
    else if cutoff e alpha beta then Hit (touched t e)
    else NotUseful (touched t e)
  end.
Proof.
  unfold lookup, cutoff, touched.
  destruct (mapGet key (table t)) as [e|]; [|done].
  case_bool_decide; [done|]. simpl.
  destruct (type e); simpl;
    repeat (case_bool_decide; try done);
    try destruct (score_geb _ _); try destruct (score_leb _ _); done.
Qed.

Lemma store_get t key d v ty bm :
  (∀ e, mapGet key (table t) = Some e → depth e < d ∨ (depth e = d ∧ ty = EXACT)) →
  let t' := store t key d v ty bm in
  ∃ e, mapGet key (table t') = Some e ∧
       depth e = d ∧ value e = v ∧ type e = ty ∧ bestMove e = bm.
Proof.
  intros Hprev t'. unfold t', store.
  set (t1 := if bool_decide (maxSize t <= Z.of_nat (length (table t))) then cleanup t else t).
  assert (∀ e, mapGet key (table t1) = Some e →
               depth e < d ∨ (depth e = d ∧ ty = EXACT)) as Hprev1.
  { intros e He. unfold t1 in He. case_bool_decide; [|by apply Hprev].
    apply cleanup_get in He as (e0 & He0 & ->). by apply Hprev. }
  destruct (mapGet key (table t1)) as [e1|] eqn:He1.
  - destruct (Hprev1 e1 eq_refl) as [Hlt|[Heq ->]].
    + rewrite (bool_decide_eq_true_2 _ Hlt). simpl.
      rewrite mapGet_mapSet_eq. eauto 10.
    + rewrite (bool_decide_eq_true_2 (depth e1 = d)) by done.
      rewrite (bool_decide_eq_true_2 (EXACT = EXACT)) by done.
      rewrite orb_true_r. simpl. rewrite mapGet_mapSet_eq. eauto 10.
  - simpl. rewrite mapGet_mapSet_eq. eauto 10.
Qed.

Lemma cutoff_boundOk e alpha beta : cutoff e alpha beta = true ↔ boundOk e alpha beta.
Proof.
  unfold cutoff, boundOk.
  rewrite !orb_true_iff, !andb_true_iff, !bool_decide_eq_true. tauto.
Qed.




(** ** The history table *)

(** What [updateHistory] does to the table.  The entry of the move
    becomes its score as read at the start (0 when it has none) plus depth
    squared.  When that score, the move's own, is at most 10000 nothing
    else changes, whatever the other entries hold.  When it exceeds 10000
    every other entry of the table is halved, rounded down. *)
Theorem updateHistory_spec move depth (historyTable : gmap string Z) :
  let key := getMoveKey move in
  let current := default 0 (historyTable !! key) in
  let updated := updateHistory move depth historyTable in
  updated !! key = Some (current + depth * depth) ∧
  (current <= 10000 →
     ∀ k, k ≠ key → updated !! k = historyTable !! k) ∧
  (10000 < current →
     ∀ k, k ≠ key → updated !! k = (fun v => v `div` 2) <$> historyTable !! k).
Proof.
  intros key current updated. unfold updated, updateHistory.
  fold key. fold current. split_and!.
  - by rewrite lookup_insert_eq.
  - intros Hle. rewrite bool_decide_eq_false_2 by lia.
    intros k Hk. by rewrite lookup_insert_ne.
  - intros Hgt. rewrite bool_decide_eq_true_2 by lia.
    intros k Hk. by rewrite lookup_insert_ne, lookup_fmap.
Qed.

Lemma updateHistory_spec_witness :
  (default 0 (historyAB !! getMoveKey quietB) <= 10000 ∧
   updateHistory quietB 3 historyAB !! getMoveKey quietB
     = Some (default 0 (historyAB !! getMoveKey quietB) + 3 * 3) ∧
   ∀ k, k ≠ getMoveKey quietB →
        updateHistory quietB 3 historyAB !! k = historyAB !! k) ∧
  (10000 < default 0 (historyAB !! getMoveKey quietA) ∧
   updateHistory quietA 3 historyAB !! getMoveKey quietA
     = Some (default 0 (historyAB !! getMoveKey quietA) + 3 * 3) ∧
   ∀ k, k ≠ getMoveKey quietA →
        updateHistory quietA 3 historyAB !! k =
        (fun v => v `div` 2) <$> historyAB !! k).
Proof.
  split.
  - assert (default 0 (historyAB !! getMoveKey quietB) <= 10000) as H
      by (vm_compute; discriminate).
    split; [exact H|]. split.
    + exact (proj1 (updateHistory_spec quietB 3 historyAB)).
    + exact (proj1 (proj2 (updateHistory_spec quietB 3 historyAB)) H).
  - assert (10000 < default 0 (historyAB !! getMoveKey quietA)) as H
      by (vm_compute; reflexivity).
    split; [exact H|]. split.
    + exact (proj1 (updateHistory_spec quietA 3 historyAB)).
    + exact (proj2 (proj2 (updateHistory_spec quietA 3 historyAB)) H).
Defined.

(** The aging looks at the score of the updated move only: with an entry
    of 20000 in the table, an update of another move whose own score is 5
    halves nothing; the big entry stays 20000 and the updated move gets
    5 + 1. *)
Lemma updateHistory_counterexample :
  historyAB !! getMoveKey quietA = Some 20000 ∧
  historyAB !! getMoveKey quietB = Some 5 ∧
  updateHistory quietB 1 historyAB !! getMoveKey quietA = Some 20000 ∧
  updateHistory quietB 1 historyAB !! getMoveKey quietB = Some 6 ∧
  updateHistory quietB 1 historyAB !! getMoveKey quietA ≠ Some (20000 `div` 2) ∧
  updateHistory quietB 1 historyAB !! getMoveKey quietB ≠ Some (5 `div` 2 + 1 * 1).
Proof. vm_compute. split_and!; done. Qed.

(** C8 (the defect).  The score of [quietA] is 20000, above 10000, so an
    update of [quietA] at depth 3 ages the table: the other entry goes
    from 5 to 2.  The entry of [quietA] itself is halved with the rest and
    then overwritten with the score read before the aging plus the
    increment: it holds 20000 + 9, not 10000 + 9.  It stays above 10000,
    so the next update of the move ages the table again. *)
Theorem updateHistory_writes_back_the_unhalved_score :
  let updated := updateHistory quietA 3 historyAB in
  historyAB !! getMoveKey quietA = Some 20000 ∧
  historyAB !! getMoveKey quietB = Some 5 ∧
  captures quietA = [] ∧
  updated !! getMoveKey quietB = Some (5 `div` 2) ∧
  updated !! getMoveKey quietA = Some (20000 + 3 * 3) ∧
  updated !! getMoveKey quietA ≠ Some (20000 `div` 2 + 3 * 3) ∧
  updateHistory quietA 3 updated !! getMoveKey quietB = Some ((5 `div` 2) `div` 2) ∧
  updateHistory quietA 3 updated !! getMoveKey quietA = Some (20000 + 3 * 3 + 3 * 3).
Proof. vm_compute. split_and!; done. Qed.

(** ** Mobility *)

(** The bonus by number of opponent moves: 300, 100, 30, 0. *)
Lemma evaluateMobilityDifferential_bonus (isDarkSquare : Z → Z → bool) position :
  let ourMoves := Z.of_nat (length (generateMoves isDarkSquare position)) in
  let theirMoves :=
    Z.of_nat (length (generateMoves isDarkSquare
      (mkPosition (pieces position) (otherPlayer (currentPlayer position)) []))) in
  evaluateMobilityDifferential isDarkSquare position - (ourMoves - theirMoves) * 5 =
    if bool_decide (theirMoves = 0) then 300
    else if bool_decide (theirMoves = 1) then 100
    else if bool_decide (theirMoves <= 3) then 30
    else 0.
Proof.
  intros ourMoves theirMoves. unfold evaluateMobilityDifferential.
  fold ourMoves. fold theirMoves. repeat case_bool_decide; lia.
Qed.

(** C9, amended.  The mobility score is five times the difference of the
    two move counts plus a bonus, and the three bonuses are separate
    additions that add up: nothing when the opponent has more than 3
    moves, 30 when it has 2 or 3, 30 + 70 when it has exactly 1 and
    30 + 70 + 200 when it has none.  So a position in which the opponent
    cannot move scores at least 300. *)
Theorem evaluateMobilityDifferential_stacked_bonus
    (isDarkSquare : Z → Z → bool) position :
  let ourMoves := Z.of_nat (length (generateMoves isDarkSquare position)) in
  let theirMoves :=
    Z.of_nat (length (generateMoves isDarkSquare
      (mkPosition (pieces position) (otherPlayer (currentPlayer position)) []))) in
  let score := evaluateMobilityDifferential isDarkSquare position in
  (3 < theirMoves → score = (ourMoves - theirMoves) * 5) ∧
  (2 <= theirMoves <= 3 → score = (ourMoves - theirMoves) * 5 + 30) ∧
  (theirMoves = 1 → score = (ourMoves - theirMoves) * 5 + 30 + 70) ∧
  (theirMoves = 0 → score = (ourMoves - theirMoves) * 5 + 30 + 70 + 200) ∧
  (theirMoves = 0 → 300 <= score) ∧
  (theirMoves <= 3 → (ourMoves - theirMoves) * 5 + 30 <= score).
Proof.
  intros ourMoves theirMoves score.
  pose proof (evaluateMobilityDifferential_bonus isDarkSquare position) as Hbonus.
  cbv zeta in Hbonus. fold ourMoves theirMoves score in Hbonus.
  assert (0 <= ourMoves) as Hours by (unfold ourMoves; lia).
  assert (0 <= theirMoves) as Htheirs by (unfold theirMoves; lia).
  clearbody ourMoves theirMoves score.
  repeat case_bool_decide; split_and!; intros; lia.
Qed.

Lemma evaluateMobilityDifferential_stacked_bonus_witness :
  let position := mkPosition (pieces (blockedPosition true)) PBLACK [] in
  length (generateMoves darkOdd position) = 1%nat ∧
  length (generateMoves darkOdd (blockedPosition true)) = 0%nat ∧
  evaluateMobilityDifferential darkOdd position = (1 - 0) * 5 + 30 + 70 + 200.
Proof.
  intros position.
  assert (length (generateMoves darkOdd position) = 1%nat) as Hours
    by (vm_compute; reflexivity).
  assert (length (generateMoves darkOdd (blockedPosition true)) = 0%nat) as Htheirs
    by (vm_compute; reflexivity).
  split; [exact Hours|]. split; [exact Htheirs|].
  destruct (evaluateMobilityDifferential_stacked_bonus darkOdd position)
    as (_ & _ & _ & Hzero & _).
  rewrite Hzero.
  - change (mkPosition (pieces position) (otherPlayer (currentPlayer position)) [])
      with (blockedPosition true).
    rewrite Hours, Htheirs. reflexivity.
  - change (mkPosition (pieces position) (otherPlayer (currentPlayer position)) [])
      with (blockedPosition true).
    rewrite Htheirs. reflexivity.
Defined.

(** C9 as stated fails.  With Black to move on the board of
    [blockedPosition] Black has one move and White has none: the bonus is
    300, not "exactly 200", and the score is 305, not 205.  With White to
    move White has no move and Black has one: the bonus is 100, not
    "exactly 70", and the score is 95, not 65. *)
Lemma evaluateMobilityDifferential_counterexample :
  let whiteToMove := blockedPosition true in
  let blackToMove := mkPosition (pieces whiteToMove) PBLACK [] in
  let count := fun position => Z.of_nat (length (generateMoves darkOdd position)) in
  count blackToMove = 1 ∧ count whiteToMove = 0 ∧
  evaluateMobilityDifferential darkOdd blackToMove = 305 ∧
  evaluateMobilityDifferential darkOdd blackToMove
    ≠ (count blackToMove - count whiteToMove) * 5 + 200 ∧
  evaluateMobilityDifferential darkOdd whiteToMove = 95 ∧
  evaluateMobilityDifferential darkOdd whiteToMove
    ≠ (count whiteToMove - count blackToMove) * 5 + 70.
Proof. vm_compute. split_and!; done. Qed.

(** ** Quiet moves *)

Lemma elem_of_allSquares sq : sq ∈ allSquares ↔ validPos sq = true.
Proof.
  unfold allSquares, validPos, isValidSquare, BOARD_SIZE. split.
  - intros (r & Hsq & Hr)%list_elem_of_bind.
    apply list_elem_of_bind in Hsq as (c & Hsq & Hc).
    apply list_elem_of_singleton in Hsq as ->. simpl.
    apply elem_of_seqZ in Hr, Hc.
    rewrite !andb_true_iff, !bool_decide_eq_true. lia.
  - rewrite !andb_true_iff, !bool_decide_eq_true. intros [[[? ?] ?] ?].
    apply list_elem_of_bind. exists (row sq). split; [|apply elem_of_seqZ; lia].
    apply list_elem_of_bind. exists (col sq). split; [|apply elem_of_seqZ; lia].
    destruct sq. simpl. by apply list_elem_of_singleton.
Qed.

Lemma NoDup_allSquares : NoDup allSquares.
Proof. apply (bool_decide_unpack (NoDup allSquares)). by vm_compute. Qed.

Lemma along_0 p d : along p d 0 = p.
Proof. destruct p. unfold along. simpl. f_equal; lia. Qed.

Lemma along_1 p d : along p d 1 = step p d.
Proof. unfold along, step. f_equal; lia. Qed.

Lemma along_step p d k : along (step p d) d k = along p d (k + 1).
Proof. unfold along, step. simpl. f_equal; lia. Qed.

Section QuietMoves.
Variable isDarkSquare : Z → Z → bool.

Local Abbreviation free := (freeSquare isDarkSquare).

(** The squares the king's sliding loop pushes: the squares of the ray
    up to the first one that is not free. *)
Lemma slideSquares_elem n g d q :
  ∀ p, q ∈ slideSquares isDarkSquare n g p d ↔
       ∃ k, 0 <= k < Z.of_nat n ∧ q = along p d k ∧
            ∀ i, 0 <= i <= k → free g (along p d i) = true.
Proof.
  induction n as [|n IH]; intros p; simpl.
  - rewrite elem_of_nil. split; [done|]. intros (k & ? & _). lia.
  - fold (freeSquare isDarkSquare g p).
    destruct (free g p) eqn:Hfree.
    + rewrite elem_of_cons, IH. split.
      * intros [->|(k & Hk & -> & Hall)].
        -- exists 0. split; [lia|]. split; [by rewrite along_0|].
           intros i Hi. assert (i = 0) as -> by lia. by rewrite along_0.
        -- exists (k + 1). split; [lia|]. split; [by rewrite along_step|].
           intros i Hi. destruct (decide (i = 0)) as [->|Hne].
           ++ by rewrite along_0.
           ++ specialize (Hall (i - 1)). rewrite along_step in Hall.
              replace (i - 1 + 1) with i in Hall by lia. apply Hall. lia.
      * intros (k & Hk & -> & Hall). destruct (decide (k = 0)) as [->|Hne].
        -- left. by rewrite along_0.
        -- right. exists (k - 1). split; [lia|]. split.
           ++ rewrite along_step. f_equal. lia.
           ++ intros i Hi. rewrite along_step. apply Hall. lia.
    + rewrite elem_of_nil. split; [done|]. intros (k & Hk & _ & Hall).
      specialize (Hall 0). rewrite along_0 in Hall. rewrite Hall in Hfree; [done|lia].
Qed.

Lemma quietDirs_diagonal piece player d :
  d ∈ quietDirs piece player → d ∈ KING_MOVES.
Proof.
  unfold quietDirs, KING_MOVES, WHITE_MOVES, BLACK_MOVES.
  destruct (isKingPiece piece); [done|].
  case_bool_decide; rewrite !elem_of_cons, !elem_of_nil; tauto.
Qed.

(** A ray that stays on the board is shorter than the board. *)
Lemma along_valid_bound p d k :
  d ∈ KING_MOVES → validPos p = true → validPos (along p d k) = true →
  0 <= k → k < BOARD_SIZE.
Proof.
  intros Hd%KING_MOVES_diagonal. unfold validPos, isValidSquare, along, BOARD_SIZE.
  simpl. rewrite !andb_true_iff, !bool_decide_eq_true.
  destruct Hd as [Hd|Hd]; rewrite Hd; lia.
Qed.

(** What [addNormalMovesForPiece] pushes for the piece on [(r, c)]. *)
Lemma addNormalMovesForPiece_elem position r c m :
  let g := pieces position in
  let piece := pieceAt g (mkPos r c) in
  validPos (mkPos r c) = true →
  (m ∈ addNormalMovesForPiece isDarkSquare position r c ↔
   from m = mkPos r c ∧ captures m = [] ∧
   ∃ d k, d ∈ quietDirs piece (currentPlayer position) ∧
          1 <= k ∧ (isKingPiece piece = false → k = 1) ∧
          to m = along (mkPos r c) d k ∧
          ∀ i, 1 <= i <= k → free g (along (mkPos r c) d i) = true).
Proof.
  intros g piece Hvalid. unfold addNormalMovesForPiece. fold g. fold piece.
  unfold quietDirs. destruct (isKingPiece piece) eqn:Hking.
  - rewrite list_elem_of_bind. split.
    + intros (d & Hm & Hd). apply list_elem_of_fmap in Hm as (sq & -> & Hsq).
      apply slideSquares_elem in Hsq as (k & Hk & -> & Hall). simpl.
      split; [done|]. split; [done|].
      exists d, (k + 1). split; [done|]. split; [lia|]. split; [done|].
      split; [by rewrite along_step|].
      intros i Hi. specialize (Hall (i - 1)). rewrite along_step in Hall.
      replace (i - 1 + 1) with i in Hall by lia. apply Hall. lia.
    + intros (Hfrom & Hcaps & d & k & Hd & Hk & _ & Hto & Hall).
      exists d. split; [|done]. apply list_elem_of_fmap.
      exists (to m). split; [destruct m; simpl in *; congruence|].
      apply slideSquares_elem. exists (k - 1). split.
      * assert (k < BOARD_SIZE); [|unfold SCAN; lia].
        apply (along_valid_bound (mkPos r c) d k); [done|done| |lia].
        specialize (Hall k). unfold freeSquare in Hall.
        rewrite !andb_true_iff in Hall. apply Hall. lia.
      * split; [rewrite along_step, Hto; f_equal; lia|].
        intros i Hi. rewrite along_step. apply Hall. lia.
  - rewrite list_elem_of_bind. split.
    + intros (d & Hm & Hd). cbv zeta in Hm.
      fold (freeSquare isDarkSquare g (step (mkPos r c) d)) in Hm.
      destruct (free g (step (mkPos r c) d)) eqn:Hfree; [|by apply elem_of_nil in Hm].
      apply list_elem_of_singleton in Hm as ->. simpl.
      split; [done|]. split; [done|].
      exists d, 1. split; [done|]. split; [lia|]. split; [done|].
      split; [by rewrite along_1|].
      intros i Hi. assert (i = 1) as -> by lia. by rewrite along_1.
    + intros (Hfrom & Hcaps & d & k & Hd & Hk & Hone & Hto & Hall).
      rewrite Hone in * by done. exists d. split; [|done]. cbv zeta.
      fold (freeSquare isDarkSquare g (step (mkPos r c) d)).
      rewrite <- along_1, Hall by lia. apply list_elem_of_singleton.
      destruct m; simpl in *; congruence.
Qed.

Lemma normalMoves_elem position m :
  let g := pieces position in
  let piece := pieceAt g (from m) in
  m ∈ normalMoves isDarkSquare position ↔
    validPos (from m) = true ∧
    isPieceOfCurrentPlayer piece (currentPlayer position) = true ∧
    captures m = [] ∧
    ∃ d k, d ∈ quietDirs piece (currentPlayer position) ∧
           1 <= k ∧ (isKingPiece piece = false → k = 1) ∧
           to m = along (from m) d k ∧
           ∀ i, 1 <= i <= k → free g (along (from m) d i) = true.
Proof.
  intros g piece. unfold normalMoves. rewrite list_elem_of_bind. split.
  - intros (sq & Hm & Hsq). apply elem_of_allSquares in Hsq.
    destruct (isPieceOfCurrentPlayer _ _) eqn:Hown; [|by apply elem_of_nil in Hm].
    destruct sq as [r c].
    apply addNormalMovesForPiece_elem in Hm as (Hfrom & Hrest); [|done].
    simpl in Hfrom. subst piece g. rewrite Hfrom. simpl in Hown. done.
  - intros (Hvalid & Hown & Hrest). exists (from m).
    split; [|by apply elem_of_allSquares].
    fold g. fold piece. rewrite Hown.
    apply addNormalMovesForPiece_elem.
    + by destruct (from m).
    + destruct (from m) as [r c] eqn:Hfrom. simpl. done.
Qed.

End QuietMoves.

(** When no capture is available, the generated moves are exactly the
    quiet moves of the pieces of the side to move: a man steps to a free
    square (on the board, empty, dark) one step ahead, towards row 0 when
    White is to move and towards row 9 when Black is; a king slides any
    number of steps along a diagonal whose squares up to the destination
    are all free.  Nothing else is generated and none of these is left
    out. *)
Theorem generateMoves_quiet_moves (isDarkSquare : Z → Z → bool) position m :
  hasCaptures position = false →
  let g := pieces position in
  let piece := pieceAt g (from m) in
  m ∈ generateMoves isDarkSquare position ↔
    validPos (from m) = true ∧
    isPieceOfCurrentPlayer piece (currentPlayer position) = true ∧
    captures m = [] ∧
    ∃ d k, d ∈ quietDirs piece (currentPlayer position) ∧
           1 <= k ∧ (isKingPiece piece = false → k = 1) ∧
           to m = along (from m) d k ∧
           ∀ i, 1 <= i <= k →
                freeSquare isDarkSquare g (along (from m) d i) = true.
Proof.
  intros Hcap g piece. unfold generateMoves. unfold hasCaptures in Hcap.
  rewrite Hcap. apply normalMoves_elem.
Qed.

Lemma generateMoves_quiet_moves_witness :
  hasCaptures twoMovesPosition = false ∧
  mkMove (mkPos 5 4) (mkPos 4 5) [] ∈ generateMoves darkOdd twoMovesPosition ∧
  mkMove (mkPos 5 4) (mkPos 6 5) [] ∉ generateMoves darkOdd twoMovesPosition.
Proof.
  assert (hasCaptures twoMovesPosition = false) as Hcap by (vm_compute; reflexivity).
  split; [exact Hcap|]. split.
  - apply (generateMoves_quiet_moves darkOdd twoMovesPosition _ Hcap).
    split_and!; [reflexivity|reflexivity|reflexivity|].
    exists (mkDir (-1) 1), 1. split_and!.
    + replace (quietDirs _ _) with WHITE_MOVES by (vm_compute; reflexivity).
      unfold WHITE_MOVES. rewrite !elem_of_cons. tauto.
    + lia.
    + done.
    + reflexivity.
    + intros i Hi. assert (i = 1) as -> by lia. vm_compute. reflexivity.
  - intros Hin.
    apply (generateMoves_quiet_moves darkOdd twoMovesPosition _ Hcap) in Hin
      as (_ & _ & _ & d & k & Hd & Hk & Hone & Hto & _).
    assert (k = 1) as -> by (apply Hone; reflexivity).
    replace (quietDirs _ _) with WHITE_MOVES in Hd by (vm_compute; reflexivity).
    unfold WHITE_MOVES in Hd. rewrite !elem_of_cons, elem_of_nil in Hd.
    destruct Hd as [->|[->|[]]]; vm_compute in Hto; discriminate.
Defined.

(** ** Where a capture starts, what it takes and where it lands *)

Lemma scanEnemy_valid n g player p d e :
  scanEnemy n g player p d = Some e → validPos e = true.
Proof.
  revert p. induction n as [|n IH]; intros p; simpl; [done|].
  destruct (validPos p) eqn:Hv; [|done].
  case_bool_decide.
  - destruct (isOpponentPiece _ _); [|done]. by intros [= <-].
  - apply IH.
Qed.

Lemma landingSquares_elem n g d q :
  ∀ p, q ∈ landingSquares n g p d → validPos q = true ∧ pieceAt g q = NONE.
Proof.
  induction n as [|n IH]; intros p; simpl; [by rewrite elem_of_nil|].
  destruct (validPos p && bool_decide (pieceAt g p = NONE)) eqn:Hp;
    [|by rewrite elem_of_nil].
  apply andb_true_iff in Hp as [Hv Hnone%bool_decide_eq_true].
  rewrite elem_of_cons. intros [->|Hq]; [done|]. by eapply IH.
Qed.

Lemma step_between p d :
  validPos p = true → validPos (step (step p d) d) = true → validPos (step p d) = true.
Proof.
  unfold validPos, isValidSquare, step, BOARD_SIZE. simpl.
  rewrite !andb_true_iff, !bool_decide_eq_true. lia.
Qed.

(** A jump takes a square of the board and lands on an empty square of
    the board. *)
Lemma isJump_squares player g cur caps j :
  validPos cur = true → isJump player g cur caps j →
  validPos j.1 = true ∧ validPos j.2 = true ∧ pieceAt g j.2 = NONE.
Proof.
  intros Hcur (d & Hd & Hj). unfold dirJumps in Hj.
  destruct (isKingPiece (pieceAt g cur)).
  - destruct (scanEnemy SCAN g player (step cur d) d) as [e|] eqn:He;
      [|by apply elem_of_nil in Hj].
    destruct (negb (containsPos caps e)); [|by apply elem_of_nil in Hj].
    apply list_elem_of_fmap in Hj as (land & -> & Hland). simpl.
    apply landingSquares_elem in Hland. apply scanEnemy_valid in He. tauto.
  - cbv zeta in Hj.
    destruct (validPos (step (step cur d) d)
              && bool_decide (pieceAt g (step (step cur d) d) = NONE)
              && isOpponentPiece (pieceAt g (step cur d)) player) eqn:Hc;
      [|by apply elem_of_nil in Hj].
    destruct (negb (containsPos caps (step cur d))); [|by apply elem_of_nil in Hj].
    apply list_elem_of_singleton in Hj as ->. simpl.
    rewrite !andb_true_iff, bool_decide_eq_true in Hc.
    destruct Hc as [[Hv Hnone] _]. split; [|done]. by apply step_between.
Qed.

Lemma applyJump_frame g cur e land s :
  s ≠ cur → s ≠ e → s ≠ land →
  pieceAt (applyJump g cur e land) s = pieceAt g s.
Proof.
  intros. unfold applyJump. rewrite copyGrid_id.
  by rewrite !pieceAt_setPiece_ne.
Qed.

Lemma applyJump_left g cur e land :
  cur ≠ e → cur ≠ land → pieceAt (applyJump g cur e land) cur = NONE.
Proof.
  intros. unfold applyJump. rewrite copyGrid_id.
  rewrite !pieceAt_setPiece_ne by done.
  by destruct (pieceAt_setPiece_self_cases g cur NONE).
Qed.

Lemma findCaptureTrails_landing player g0 start t :
  validPos start = true →
  t ∈ findCaptureTrails FUEL g0 start [] [] ∅ player 0 →
  validPos (t_pos t) = true ∧
  (t_pos t = start ∨ t_pos t ∈ t_captured t ∨ pieceAt g0 (t_pos t) = NONE) ∧
  ∀ s, s ∈ t_captured t → validPos s = true.
Proof.
  intros Hstart.
  apply (findCaptureTrails_invariant player
    (fun g cur path caps vis =>
       validPos cur = true ∧
       (cur = start ∨ cur ∈ caps ∨ pieceAt g0 cur = NONE) ∧
       (∀ s, s ∈ caps → validPos s = true) ∧
       (∀ s, s ≠ cur → s ∉ caps → s ≠ start → pieceAt g s = pieceAt g0 s))
    (fun t =>
       validPos (t_pos t) = true ∧
       (t_pos t = start ∨ t_pos t ∈ t_captured t ∨ pieceAt g0 (t_pos t) = NONE) ∧
       ∀ s, s ∈ t_captured t → validPos s = true)).
  - intros g cur path caps vis (Hv & Hcur & Hcaps & _) _ _. simpl. done.
  - intros g cur path caps vis j (Hv & Hcur & Hcaps & Hframe) _ Hj.
    destruct (isJump_squares _ _ _ _ _ Hv Hj) as (Hv1 & Hv2 & Hnone).
    split_and!.
    + done.
    + destruct (decide (j.2 = cur)) as [->|Hne1].
      { rewrite elem_of_app. tauto. }
      destruct (decide (j.2 ∈ caps)) as [|Hne2].
      { rewrite elem_of_app. tauto. }
      destruct (decide (j.2 = start)) as [|Hne3]; [tauto|].
      right. right. by rewrite <- Hframe.
    + intros s [Hs|Hs%list_elem_of_singleton]%elem_of_app; [by apply Hcaps|by subst].
    + intros s Hs1 Hs2 Hs3. rewrite elem_of_app, list_elem_of_singleton in Hs2.
      destruct (decide (s = cur)) as [->|Hne].
      * rewrite applyJump_left by (intros ?; subst; tauto).
        destruct Hcur as [?|[?|?]]; [done|tauto|done].
      * rewrite applyJump_frame by (try done; intros ?; subst; tauto).
        apply Hframe; tauto.
  - split_and!; [done|by left|by intros s ?%elem_of_nil|done].
Qed.

(** Every capture [getAvailableCaptures] returns starts on a square of
    the board that holds a piece of the side to move, takes at least one
    square, every square it takes is on the board and holds a piece of the
    opponent in the position, and it ends on another square of the board
    that is empty in the position or is one of the squares it takes. *)
Theorem getAvailableCaptures_sound position m :
  m ∈ getAvailableCaptures position →
  let g := pieces position in
  validPos (from m) = true ∧
  isPieceOfCurrentPlayer (pieceAt g (from m)) (currentPlayer position) = true ∧
  captures m ≠ [] ∧
  (∀ s, s ∈ captures m →
        validPos s = true ∧
        isOpponentPiece (pieceAt g s) (currentPlayer position) = true) ∧
  validPos (to m) = true ∧ to m ≠ from m ∧
  (pieceAt g (to m) = NONE ∨ to m ∈ captures m).
Proof.
  intros Hm g.
  pose proof (getAvailableCaptures_from _ _ Hm) as Hown.
  pose proof (fun s => getAvailableCaptures_opponents _ _ s Hm) as Hopp.
  apply getAvailableCaptures_spec in Hm as [Hm _].
  pose proof (allCaptures_captures _ _ Hm) as Hne.
  apply allCaptures_elem in Hm as (t & Ht & ->).
  apply allCaptureTrails_elem in Ht as (sq & Hsq%elem_of_allSquares & _ & Ht).
  pose proof (findCaptureTrails_distinct _ _ _ _ Ht) as (Hnd & _ & Hhd & Hlen).
  pose proof (findCaptureTrails_landing _ _ _ _ Hsq Ht) as (Hv & Hland & Hcaps).
  cbn [recordSequence from to captures] in *.
  assert (t_pos t ≠ sq) as Hdiff.
  { destruct (t_path t) as [|p path] eqn:Hpath.
    - destruct (t_captured t); [done|simpl in Hlen; lia].
    - simpl in Hhd. subst p. intros Heq.
      apply NoDup_cons in Hnd as [Hnotin _]. apply Hnotin.
      rewrite elem_of_app, list_elem_of_singleton. by right. }
  split_and!.
  - by rewrite Hhd.
  - done.
  - done.
  - intros s Hs. split; [by apply Hcaps|by apply Hopp].
  - done.
  - by rewrite Hhd.
  - destruct Hland as [?|[?|?]]; [done|by right|by left].
Qed.

Lemma getAvailableCaptures_sound_witness :
  loopMove 1 ∈ getAvailableCaptures (loopPosition 1) ∧
  to (loopMove 1) ∈ captures (loopMove 1) ∧
  pieceAt (pieces (loopPosition 1)) (to (loopMove 1)) ≠ NONE ∧
  from (loopMove 1) ≠ to (loopMove 1).
Proof.
  assert (loopMove 1 ∈ getAvailableCaptures (loopPosition 1)) as Hin.
  { assert (getAvailableCaptures (loopPosition 1) !! 1%nat = Some (loopMove 1)) as H
      by (vm_compute; reflexivity).
    by eapply list_elem_of_lookup_2. }
  destruct (getAvailableCaptures_sound (loopPosition 1) (loopMove 1) Hin)
    as (_ & _ & _ & _ & _ & Hdiff & Hland).
  split; [exact Hin|]. split.
  - destruct Hland as [Hnone|Hcap]; [|exact Hcap].
    vm_compute in Hnone. discriminate.
  - split; [vm_compute; discriminate|]. intros Heq. apply Hdiff. by rewrite Heq.
Defined.

(** ** The squares of a position after a move *)

(** Every square but the destination. *)
Lemma makeMove_other position move s :
  s ≠ to move →
  pieceAt (pieces (makeMove position move)) s =
  if decide (s ∈ captures move) then NONE
  else if decide (s = from move) then NONE
  else pieceAt (pieces position) s.
Proof.
  intros Hto. unfold makeMove. rewrite copyGrid_id. simpl.
  set (piece := pieceAt (pieces position) (from move)).
  set (g1 := setPiece (pieces position) (from move) NONE).
  set (g2 := setPiece g1 (to move) piece).
  assert (pieceAt (foldl (fun g cap => setPiece g cap NONE) g2 (captures move)) s =
          if decide (s ∈ captures move) then NONE
          else if decide (s = from move) then NONE
          else pieceAt (pieces position) s) as H.
  { rewrite foldl_clear. destruct (decide (s ∈ captures move)); [done|].
    unfold g2. rewrite pieceAt_setPiece_ne by done.
    unfold g1. destruct (decide (s = from move)) as [->|Hne].
    - by destruct (pieceAt_setPiece_self_cases (pieces position) (from move) NONE).
    - by rewrite pieceAt_setPiece_ne. }
  destruct (shouldPromote piece (row (to move))); [|done].
  by rewrite pieceAt_setPiece_ne.
Qed.

(** The destination: the promotion is written last. *)
Lemma makeMove_destination position move :
  inGrid (pieces position) (to move) →
  let piece := pieceAt (pieces position) (from move) in
  pieceAt (pieces (makeMove position move)) (to move) =
  if shouldPromote piece (row (to move)) then promoted piece
  else if decide (to move ∈ captures move) then NONE
  else piece.
Proof.
  intros Hin piece. unfold makeMove. rewrite copyGrid_id. simpl. fold piece.
  set (g1 := setPiece (pieces position) (from move) NONE).
  set (g2 := setPiece g1 (to move) piece).
  set (g3 := foldl _ g2 (captures move)).
  assert (inGrid g3 (to move)) as Hin3.
  { unfold g3. apply inGrid_foldl_clear. unfold g2, g1.
    by rewrite !inGrid_setPiece. }
  destruct (shouldPromote piece (row (to move))).
  - by rewrite pieceAt_setPiece_eq.
  - unfold g3. rewrite foldl_clear. destruct (decide (to move ∈ captures move)); [done|].
    unfold g2. rewrite pieceAt_setPiece_eq; [done|].
    unfold g1. by rewrite inGrid_setPiece.
Qed.

Lemma pieceAt_invalid g p : wfGrid g → validPos p = false → pieceAt g p = NONE.
Proof.
  intros [Hlen Hrows] Hv. unfold pieceAt.
  destruct (bool_decide (0 <= row p) && bool_decide (0 <= col p)) eqn:Hp; [|done].
  apply andb_true_iff in Hp as [Hr%bool_decide_eq_true Hc%bool_decide_eq_true].
  destruct (g !! Z.to_nat (row p)) as [r|] eqn:Hrow; [|done].
  assert (length r = Z.to_nat BOARD_SIZE) as Hr'.
  { eapply Forall_lookup_1 in Hrows; [|exact Hrow]. done. }
  apply lookup_lt_Some in Hrow.
  destruct (r !! Z.to_nat (col p)) as [v|] eqn:Hcol; [|done].
  apply lookup_lt_Some in Hcol.
  unfold validPos, isValidSquare, BOARD_SIZE in *.
  rewrite !andb_false_iff, !bool_decide_eq_false in Hv. lia.
Qed.

Lemma shouldPromote_piece piece r : shouldPromote piece r = true → piece ≠ NONE.
Proof.
  unfold shouldPromote. intros H ->. by vm_compute in H.
Qed.

Lemma promoted_piece piece : promoted piece ≠ NONE.
Proof. unfold promoted. by case_bool_decide. Qed.

(** ** Counting pieces *)

Section Counting.
Context {A : Type}.
Implicit Types P Q : A → bool.

Lemma count_exchange P Q (l : list A) :
  (length (filter (fun x => Q x = true) l)
   + length (filter (fun x => P x && negb (Q x) = true) l)
   = length (filter (fun x => P x = true) l)
     + length (filter (fun x => negb (P x) && Q x = true) l))%nat.
Proof.
  induction l as [|x l IH]; [done|].
  rewrite !filter_cons.
  destruct (P x) eqn:HP, (Q x) eqn:HQ; simpl;
    repeat (case_decide; try done); simpl; lia.
Qed.

Lemma filter_length_NoDup `{EqDecision A} P (l d : list A) :
  NoDup l → NoDup d →
  (∀ x, x ∈ d ↔ x ∈ l ∧ P x = true) →
  length (filter (fun x => P x = true) l) = length d.
Proof.
  intros Hl Hd Hiff. apply Permutation_length. apply NoDup_Permutation.
  - by apply NoDup_filter.
  - done.
  - intros x. rewrite list_elem_of_filter, Hiff. tauto.
Qed.

Lemma filter_length_le `{EqDecision A} P (l d : list A) :
  NoDup l → NoDup d →
  (∀ x, x ∈ l → P x = true → x ∈ d) →
  (length (filter (fun x => P x = true) l) ≤ length d)%nat.
Proof.
  intros Hl Hd Hsub. apply submseteq_length. apply NoDup_submseteq.
  - by apply NoDup_filter.
  - intros x [HP Hx]%list_elem_of_filter. by apply Hsub.
Qed.

Lemma filter_length_ge `{EqDecision A} P (l d : list A) :
  NoDup l → NoDup d →
  (∀ x, x ∈ d → x ∈ l ∧ P x = true) →
  (length d ≤ length (filter (fun x => P x = true) l))%nat.
Proof.
  intros Hl Hd Hsub. apply submseteq_length. apply NoDup_submseteq; [done|].
  intros x Hx. apply list_elem_of_filter. destruct (Hsub x Hx). done.
Qed.

End Counting.

Lemma countTotalPieces_occupied position :
  countTotalPieces position =
  length (filter (fun sq => occupied (pieces position) sq = true) allSquares).
Proof.
  unfold countTotalPieces. f_equal. apply list_filter_iff. intros sq.
  unfold occupied. rewrite negb_true_iff, bool_decide_eq_false. done.
Qed.

Lemma occupied_true g sq : occupied g sq = true ↔ pieceAt g sq ≠ NONE.
Proof. unfold occupied. by rewrite negb_true_iff, bool_decide_eq_false. Qed.

Lemma occupied_false g sq : occupied g sq = false ↔ pieceAt g sq = NONE.
Proof. unfold occupied. by rewrite negb_false_iff, bool_decide_eq_true. Qed.

Lemma own_piece piece player :
  isPieceOfCurrentPlayer piece player = true → piece ≠ NONE.
Proof. intros H ->. by destruct player. Qed.

Lemma opponent_piece piece player :
  isOpponentPiece piece player = true → piece ≠ NONE.
Proof. intros H ->. by destruct player. Qed.

(** The squares of a generated move, quiet or capturing. *)
Lemma generated_move_squares (isDarkSquare : Z → Z → bool) position m :
  m ∈ generateMoves isDarkSquare position →
  let g := pieces position in
  validPos (from m) = true ∧
  isPieceOfCurrentPlayer (pieceAt g (from m)) (currentPlayer position) = true ∧
  (∀ s, s ∈ captures m →
        validPos s = true ∧
        isOpponentPiece (pieceAt g s) (currentPlayer position) = true) ∧
  NoDup (captures m) ∧
  validPos (to m) = true ∧ to m ≠ from m ∧
  (pieceAt g (to m) = NONE ∨ to m ∈ captures m).
Proof.
  intros Hm g. unfold generateMoves in Hm. case_bool_decide as Hcap.
  - pose proof (getAvailableCaptures_from _ _ Hm) as Hown.
    pose proof (fun s => getAvailableCaptures_opponents _ _ s Hm) as Hopp.
    apply getAvailableCaptures_spec in Hm as [Hm _].
    apply allCaptures_elem in Hm as (t & Ht & ->).
    apply allCaptureTrails_elem in Ht as (sq & Hsq%elem_of_allSquares & _ & Ht).
    pose proof (findCaptureTrails_distinct _ _ _ _ Ht) as (Hnd & Hndc & Hhd & Hlen).
    pose proof (findCaptureTrails_captured _ _ _ _ _ _ _ _ _ Ht) as Hne.
    pose proof (findCaptureTrails_landing _ _ _ _ Hsq Ht) as (Hv & Hland & Hcaps).
    cbn [recordSequence from to captures] in *.
    assert (t_pos t ≠ sq) as Hdiff.
    { destruct (t_path t) as [|p path] eqn:Hpath.
      - destruct (t_captured t); [done|simpl in Hlen; lia].
      - simpl in Hhd. subst p. intros Heq.
        apply NoDup_cons in Hnd as [Hnotin _]. apply Hnotin.
        rewrite elem_of_app, list_elem_of_singleton. by right. }
    split_and!; [by rewrite Hhd|done| |done|done|by rewrite Hhd|].
    + intros s Hs. split; [by apply Hcaps|by apply Hopp].
    + destruct Hland as [?|[?|?]]; [done|by right|by left].
  - apply normalMoves_elem in Hm
      as (Hv & Hown & Hcaps & d & k & Hd & Hk & _ & Hto & Hfree).
    specialize (Hfree k). unfold freeSquare in Hfree.
    rewrite <- Hto, !andb_true_iff, bool_decide_eq_true in Hfree.
    destruct Hfree as [[Hvt Hnone] _]; [lia|].
    split_and!; [done|done| |rewrite Hcaps; constructor|done| |by left].
    + rewrite Hcaps. by intros s ?%elem_of_nil.
    + intros Heq. rewrite Heq in Hnone. by apply own_piece in Hown.
Qed.

(** A generated move that does not end on a square it takes removes
    exactly the pieces it takes from the board: a quiet move keeps the
    number of pieces, a capture lowers it by the number of squares taken. *)
Theorem makeMove_piece_count (isDarkSquare : Z → Z → bool) position m :
  wfGrid (pieces position) →
  m ∈ generateMoves isDarkSquare position →
  to m ∉ captures m →
  (countTotalPieces (makeMove position m) + length (captures m))%nat
  = countTotalPieces position.
Proof.
  intros Hwf Hm Hto.
  destruct (generated_move_squares _ _ _ Hm)
    as (Hvf & Hown & Hcaps & Hnd & Hvt & Hdiff & Hland).
  destruct Hland as [Hnone|]; [|done].
  set (g := pieces position) in *.
  set (g' := pieces (makeMove position m)).
  pose proof (own_piece _ _ Hown) as Hpiece.
  assert (pieceAt g' (to m) ≠ NONE) as Hdest.
  { unfold g'. rewrite makeMove_destination by (by apply wfGrid_inGrid).
    fold g. destruct (shouldPromote _ _); [apply promoted_piece|].
    by destruct (decide (to m ∈ captures m)). }
  assert (∀ x, x ≠ to m →
             pieceAt g' x = if decide (x ∈ captures m) then NONE
                            else if decide (x = from m) then NONE
                            else pieceAt g x) as Hother.
  { intros x Hx. unfold g'. by rewrite makeMove_other. }
  rewrite !countTotalPieces_occupied. fold g g'.
  pose proof (count_exchange (occupied g) (occupied g') allSquares) as Hex.
  rewrite (filter_length_NoDup (fun x => occupied g x && negb (occupied g' x))
             allSquares (from m :: captures m)) in Hex.
  - rewrite (filter_length_NoDup (fun x => negb (occupied g x) && occupied g' x)
               allSquares [to m]) in Hex.
    + simpl in Hex. lia.
    + apply NoDup_allSquares.
    + apply NoDup_singleton.
    + intros x. rewrite list_elem_of_singleton, elem_of_allSquares.
      rewrite andb_true_iff, negb_true_iff, occupied_false, occupied_true. split.
      * intros ->. done.
      * intros (_ & Hx & Hx'). destruct (decide (x = to m)); [done|].
        rewrite Hother in Hx' by done.
        repeat (case_decide; try done).
  - apply NoDup_allSquares.
  - apply NoDup_cons. split; [|done]. intros Hin.
    destruct (Hcaps _ Hin) as [_ Hopp]. apply own_not_opponent in Hown. congruence.
  - intros x. rewrite elem_of_cons, elem_of_allSquares.
    rewrite andb_true_iff, negb_true_iff, occupied_false, occupied_true. split.
    + intros [->|Hx].
      * split_and!; [done|done|]. rewrite Hother by done.
        repeat (case_decide; try done).
      * destruct (Hcaps _ Hx) as [Hv Hopp]. split_and!; [done|by eapply opponent_piece|].
        rewrite Hother by (intros ->; done). by rewrite decide_True.
    + intros (_ & Hx & Hx'). destruct (decide (x = to m)) as [->|Hne]; [done|].
      rewrite Hother in Hx' by done.
      destruct (decide (x ∈ captures m)); [by right|].
      destruct (decide (x = from m)); [by left|done].
Qed.

Lemma makeMove_piece_count_witness :
  wfGrid (pieces twoChainsPosition) ∧
  (countTotalPieces (makeMove twoChainsPosition
      (mkMove (mkPos 6 1) (mkPos 2 5) [mkPos 5 2; mkPos 3 4])) + 2)%nat
  = countTotalPieces twoChainsPosition.
Proof.
  assert (wfGrid (pieces twoChainsPosition)) as Hwf.
  { split; [reflexivity|]. repeat constructor. }
  split; [exact Hwf|].
  apply (makeMove_piece_count darkOdd twoChainsPosition
           (mkMove (mkPos 6 1) (mkPos 2 5) [mkPos 5 2; mkPos 3 4]) Hwf).
  - apply (list_elem_of_lookup_2 _ 0%nat). vm_compute. reflexivity.
  - simpl. rewrite !elem_of_cons, elem_of_nil. intros [?|[?|[]]]; discriminate.
Defined.

(** No move between squares of the board adds a piece to a 10x10 grid,
    whether the generator produced it or not, so the game never goes back
    to an earlier phase.  The squares of the move (the source, the
    destination and every captured square) are on the board. *)
Theorem makeMove_never_adds_a_piece position move :
  wfGrid (pieces position) →
  validPos (from move) = true → validPos (to move) = true →
  Forall (fun c => validPos c = true) (captures move) →
  (countTotalPieces (makeMove position move) ≤ countTotalPieces position)%nat ∧
  phaseRank (getGamePhase position) <= phaseRank (getGamePhase (makeMove position move)).
Proof.
  intros Hwf Hvf _ _.
  assert (countTotalPieces (makeMove position move) ≤ countTotalPieces position)%nat
    as Hle.
  { set (g := pieces position) in *.
    set (g' := pieces (makeMove position move)).
    rewrite !countTotalPieces_occupied. fold g g'.
    pose proof (count_exchange (occupied g) (occupied g') allSquares) as Hex.
    assert (∀ x, x ∈ allSquares → negb (occupied g x) && occupied g' x = true →
              x = to move ∧ from move ∈ allSquares ∧
              occupied g (from move) && negb (occupied g' (from move)) = true)
      as Hgain.
    { intros x Hx%elem_of_allSquares.
      rewrite !andb_true_iff, !negb_true_iff, !occupied_false, !occupied_true.
      intros [Hnone Hsome].
      destruct (decide (x = to move)) as [->|Hne].
      - unfold g' in Hsome. rewrite makeMove_destination in Hsome
          by (by apply wfGrid_inGrid). fold g in Hsome.
        assert (pieceAt g (from move) ≠ NONE) as Hpiece.
        { destruct (shouldPromote _ _) eqn:Hp; [by eapply shouldPromote_piece|].
          by destruct (decide (to move ∈ captures move)). }
        split_and!; [done|by apply elem_of_allSquares|done|].
        unfold g'. rewrite makeMove_other by (intros Heq; congruence).
        repeat (case_decide; try done).
      - unfold g' in Hsome. rewrite makeMove_other in Hsome by done.
        repeat (case_decide; try done). }
    destruct (negb (occupied g (to move)) && occupied g' (to move)
              && bool_decide (to move ∈ allSquares)) eqn:Hto.
    - apply andb_true_iff in Hto as [Hto Hin%bool_decide_eq_true].
      destruct (Hgain _ Hin Hto) as (_ & Hfrom & Hlost).
      assert (length (filter (fun x => negb (occupied g x) && occupied g' x = true)
                             allSquares) ≤ length [to move])%nat as H1.
      { apply filter_length_le; [apply NoDup_allSquares|apply NoDup_singleton|].
        intros x Hx HP. apply list_elem_of_singleton. by apply Hgain. }
      assert (length [from move] ≤
              length (filter (fun x => occupied g x && negb (occupied g' x) = true)
                             allSquares))%nat as H2.
      { apply filter_length_ge; [apply NoDup_allSquares|apply NoDup_singleton|].
        by intros x ->%list_elem_of_singleton. }
      simpl in H1, H2. lia.
    - assert (length (filter (fun x => negb (occupied g x) && occupied g' x = true)
                             allSquares) ≤ length (@nil Pos))%nat as H1.
      { apply filter_length_le; [apply NoDup_allSquares|constructor|].
        intros x Hx HP. destruct (Hgain _ Hx HP) as (-> & _).
        rewrite HP in Hto. simpl in Hto. by rewrite bool_decide_eq_true_2 in Hto. }
      simpl in H1. lia. }
  split; [done|].
  unfold getGamePhase, phaseRank. repeat case_bool_decide; lia.
Qed.

Lemma makeMove_never_adds_a_piece_witness :
  validPos (from (loopMove 1)) = true ∧ validPos (to (loopMove 1)) = true ∧
  Forall (fun c => validPos c = true) (captures (loopMove 1)) ∧
  (countTotalPieces (makeMove (loopPosition 1) (loopMove 1))
     ≤ countTotalPieces (loopPosition 1))%nat ∧
  phaseRank (getGamePhase (loopPosition 1))
    <= phaseRank (getGamePhase (makeMove (loopPosition 1) (loopMove 1))).
Proof.
  assert (Forall (fun c => validPos c = true) (captures (loopMove 1))) as Hvalid.
  { repeat constructor. }
  split; [reflexivity|]. split; [reflexivity|]. split; [exact Hvalid|].
  apply (makeMove_never_adds_a_piece (loopPosition 1) (loopMove 1));
    [|reflexivity|reflexivity|exact Hvalid].
  split; [reflexivity|]. repeat constructor.
Defined.

(** ** Piece counts and material *)

Lemma countOf_cons g piece sq l :
  countOf g piece (sq :: l) =
  (if decide (pieceAt g sq = piece) then 1 else 0) + countOf g piece l.
Proof.
  unfold countOf. rewrite filter_cons. case_decide; simpl; lia.
Qed.

Lemma foldl_countPiece g l :
  ∀ c,
    let r := foldl (fun counts sq => countPiece counts (pieceAt g sq)) c l in
    men r.1 = men c.1 + countOf g WHITE l ∧
    kings r.1 = kings c.1 + countOf g WHITE_KING l ∧
    total r.1 = total c.1 + countOf g WHITE l + countOf g WHITE_KING l ∧
    men r.2 = men c.2 + countOf g BLACK l ∧
    kings r.2 = kings c.2 + countOf g BLACK_KING l ∧
    total r.2 = total c.2 + countOf g BLACK l + countOf g BLACK_KING l.
Proof.
  induction l as [|sq l IH]; intros c; simpl.
  - unfold countOf. simpl. lia.
  - specialize (IH (countPiece c (pieceAt g sq))). simpl in IH.
    rewrite !countOf_cons. destruct c as [w b].
    destruct (pieceAt g sq) eqn:Hp; simpl in *;
      repeat (case_decide; try done); lia.
Qed.

Lemma occupied_count g l :
  Z.of_nat (length (filter (fun sq => pieceAt g sq ≠ NONE) l)) =
  countOf g WHITE l + countOf g WHITE_KING l + countOf g BLACK l + countOf g BLACK_KING l.
Proof.
  induction l as [|sq l IH]; [done|].
  rewrite !countOf_cons, filter_cons.
  destruct (pieceAt g sq) eqn:Hp; repeat (case_decide; try done); simpl in *; lia.
Qed.

Lemma sumZ_acc l : ∀ a, foldl Z.add a l = a + foldl Z.add 0 l.
Proof.
  induction l as [|x l IH]; intros a; cbn [foldl]; [lia|].
  rewrite (IH (a + x)), (IH (0 + x)). lia.
Qed.

Lemma sumZ_cons x l : sumZ (x :: l) = x + sumZ l.
Proof. unfold sumZ. simpl. by rewrite sumZ_acc. Qed.

Lemma material_count g l :
  sumZ (map (fun sq =>
    match pieceAt g sq with
    | WHITE => 100 | WHITE_KING => 450
    | BLACK => -100 | BLACK_KING => -450
    | NONE => 0
    end) l) =
  (countOf g WHITE l - countOf g BLACK l) * 100
  + (countOf g WHITE_KING l - countOf g BLACK_KING l) * 450.
Proof.
  induction l as [|sq l IH]; [done|].
  rewrite map_cons, sumZ_cons, IH, !countOf_cons.
  destruct (pieceAt g sq) eqn:Hp; repeat (case_decide; try done); lia.
Qed.

(** The piece lists [evaluatePosition] collects, counted. *)
Lemma collect_count g l :
  let infos :=
    omap (fun sq =>
            let piece := pieceAt g sq in
            if bool_decide (piece = NONE) then None else Some (mkInfo sq piece)) l in
  let w := filter (fun p => isWhitePiece (i_piece p) = true) infos in
  let b := filter (fun p => isWhitePiece (i_piece p) = false) infos in
  Z.of_nat (length (filter (fun p => isKingPiece (i_piece p) = true) w))
    = countOf g WHITE_KING l ∧
  Z.of_nat (length (filter (fun p => isKingPiece (i_piece p) = false) w))
    = countOf g WHITE l ∧
  Z.of_nat (length (filter (fun p => isKingPiece (i_piece p) = true) b))
    = countOf g BLACK_KING l ∧
  Z.of_nat (length (filter (fun p => isKingPiece (i_piece p) = false) b))
    = countOf g BLACK l ∧
  Z.of_nat (length w) = countOf g WHITE l + countOf g WHITE_KING l ∧
  Z.of_nat (length b) = countOf g BLACK l + countOf g BLACK_KING l.
Proof.
  induction l as [|sq l IH]; [done|].
  simpl in *. unfold omap in IH. rewrite !countOf_cons.
  destruct (pieceAt g sq) eqn:Hp; simpl.
  all: rewrite ?filter_cons; simpl.
  all: repeat (case_decide; try done); simpl.
  all: rewrite ?filter_cons; simpl.
  all: repeat (case_decide; try done); simpl.
  all: lia.
Qed.

(** The piece counts agree with each other and with the other counts of
    the engine: for either side [total] is [men] plus [kings]; the two
    totals add up to [countTotalPieces]; [evaluateMaterial] is 100 for
    every man and 450 for every king, White minus Black; and the men and
    kings [evaluatePosition] counts for its material term are the same
    numbers. *)
Theorem getPieceCounts_consistent position :
  let w := (getPieceCounts position).1 in
  let b := (getPieceCounts position).2 in
  let ps := collectPieces position in
  total w = men w + kings w ∧
  total b = men b + kings b ∧
  0 <= men w ∧ 0 <= kings w ∧ 0 <= men b ∧ 0 <= kings b ∧
  total w + total b = Z.of_nat (countTotalPieces position) ∧
  evaluateMaterial position = (men w - men b) * 100 + (kings w - kings b) * 450 ∧
  whiteMen ps = men w ∧ whiteKings ps = kings w ∧
  blackMen ps = men b ∧ blackKings ps = kings b ∧
  Z.of_nat (length (white ps)) = total w ∧
  Z.of_nat (length (black ps)) = total b.
Proof.
  intros w b ps.
  pose proof (foldl_countPiece (pieces position) allSquares
                (mkCounts 0 0 0, mkCounts 0 0 0)) as H.
  cbv zeta in H. fold (getPieceCounts position) in H. fold w b in H.
  cbn [fst snd men kings total] in H.
  destruct H as (H1 & H2 & H3 & H4 & H5 & H6).
  pose proof (collect_count (pieces position) allSquares) as C.
  cbv zeta in C. destruct C as (C1 & C2 & C3 & C4 & C5 & C6).
  unfold countTotalPieces, evaluateMaterial.
  rewrite occupied_count, material_count.
  subst ps. unfold collectPieces. cbn [white black whiteMen whiteKings blackMen blackKings].
  rewrite C1, C2, C3, C4, C5, C6.
  unfold countOf in *. lia.
Qed.

(** ** Maps in insertion order *)

Lemma filter_all {A} (P : A → Prop) `{∀ x, Decision (P x)} (l : list A) :
  (∀ x, x ∈ l → P x) → filter P l = l.
Proof.
  induction l as [|x l IH]; intros Hall; [done|].
  rewrite filter_cons_True by (apply Hall; by left).
  f_equal. apply IH. intros y Hy. apply Hall. by right.
Qed.

Lemma filter_none {A} (P : A → Prop) `{∀ x, Decision (P x)} (l : list A) :
  (∀ x, x ∈ l → ¬ P x) → filter P l = [].
Proof.
  induction l as [|x l IH]; intros Hall; [done|].
  rewrite filter_cons_False by (apply Hall; by left).
  apply IH. intros y Hy. apply Hall. by right.
Qed.

Lemma elem_of_drop_l {A} (x : A) k (l : list A) : x ∈ drop k l → x ∈ l.
Proof.
  revert k. induction l as [|y l IH]; intros k.
  - by rewrite drop_nil.
  - destruct k as [|k]; simpl; [done|]. intros ?%IH. by right.
Qed.

Section JSMapKeys.
Context {V : Type}.
Implicit Types (m : list (string * V)) (k : string) (v : V).

Lemma mapGet_None k m : mapGet k m = None ↔ k ∉ map fst m.
Proof.
  induction m as [|[k' v'] m IH]; simpl.
  - split; [intros _ []%elem_of_nil|done].
  - rewrite not_elem_of_cons. case_bool_decide as Hk.
    + split; [done|]. intros [? _]. congruence.
    + rewrite IH. split; [intros ?; split; [congruence|done]|tauto].
Qed.

Lemma mapGet_Some_elem k v m : mapGet k m = Some v → (k, v) ∈ m.
Proof.
  induction m as [|[k' v'] m IH]; simpl; [done|].
  case_bool_decide as Hk.
  - intros [= ->]. subst. by left.
  - intros H. right. by apply IH.
Qed.

Lemma mapGet_elem k v m : NoDup (map fst m) → (k, v) ∈ m → mapGet k m = Some v.
Proof.
  induction m as [|[k' v'] m IH]; simpl; [by intros _ ?%elem_of_nil|].
  intros [Hnotin Hnd]%NoDup_cons [[= -> ->]|Hin]%elem_of_cons.
  - by rewrite bool_decide_eq_true_2.
  - rewrite bool_decide_eq_false_2; [by apply IH|].
    intros ->. apply Hnotin. apply list_elem_of_fmap. by exists (k, v).
Qed.

Lemma mapSet_keys k v m :
  map fst (mapSet k v m) =
  if decide (k ∈ map fst m) then map fst m else map fst m ++ [k].
Proof.
  induction m as [|[k' v'] m IH].
  - cbn [mapSet map]. destruct (decide (k ∈ [])) as [[]%elem_of_nil|]; done.
  - cbn [mapSet map fst]. case_bool_decide as Hk.
    + subst k'. cbn [map fst]. destruct (decide (k ∈ k :: map fst m)) as [|Hn]; [done|].
      exfalso. apply Hn. by left.
    + cbn [map fst]. rewrite IH.
      destruct (decide (k ∈ map fst m)) as [Hin|Hnotin];
        destruct (decide (k ∈ k' :: map fst m)) as [Hin'|Hnotin']; try done.
      * exfalso. apply Hnotin'. by right.
      * apply elem_of_cons in Hin' as [?|?]; congruence.
Qed.

Lemma mapSet_NoDup k v m : NoDup (map fst m) → NoDup (map fst (mapSet k v m)).
Proof.
  intros Hnd. rewrite mapSet_keys. case_decide; [done|].
  apply NoDup_app. split_and!; [done| |apply NoDup_singleton].
  intros x Hx ->%list_elem_of_singleton. done.
Qed.

Lemma mapSet_length k v m :
  length (mapSet k v m) =
  if decide (k ∈ map fst m) then length m else S (length m).
Proof.
  rewrite <- (length_map fst (mapSet k v m)), mapSet_keys.
  case_decide; rewrite ?length_app, length_map; simpl; lia.
Qed.

Lemma mapDelete_keys k m : map fst (mapDelete k m) = filter (fun k' => k' ≠ k) (map fst m).
Proof.
  unfold mapDelete. induction m as [|[k' v'] m IH]; [done|].
  rewrite map_cons, !filter_cons. simpl.
  case_decide; simpl; by rewrite IH.
Qed.

Lemma mapDelete_NoDup k m : NoDup (map fst m) → NoDup (map fst (mapDelete k m)).
Proof. rewrite mapDelete_keys. apply NoDup_filter. Qed.

Lemma foldl_delete_filter (ks : list (string * V)) :
  ∀ m, foldl (fun m kv => mapDelete kv.1 m) m ks =
       filter (fun kv => kv.1 ∉ map fst ks) m.
Proof.
  induction ks as [|k0 ks IH]; intros m; simpl.
  - symmetry. apply filter_all. intros kv _. by intros ?%elem_of_nil.
  - rewrite IH. unfold mapDelete. rewrite list_filter_filter.
    apply list_filter_iff. intros kv. rewrite not_elem_of_cons. tauto.
Qed.

End JSMapKeys.

(** ** Sorting by a rational key *)

Section SortingQ.
Context {A : Type} (key : A → Q).

Let cmp : A → A → Q := fun a b => (key a - key b)%Q.

Lemma sortInsertQ_ascending x l :
  ascendingQ key l → ascendingQ key (sortInsertQ cmp x l).
Proof.
  unfold ascendingQ. induction 1 as [|y l Hl IH Hy]; simpl.
  - repeat constructor.
  - destruct (Qle_bool (cmp x y) 0) eqn:Hc.
    + apply Qle_bool_iff in Hc. unfold cmp in Hc.
      assert (key x <= key y)%Q as Hxy by lra.
      constructor; [by constructor|].
      constructor; [done|].
      eapply Forall_impl; [exact Hy|]. intros z Hz. simpl in Hz. lra.
    + assert (¬ (cmp x y <= 0)%Q) as Hc'.
      { intros Hle%Qle_bool_iff. congruence. }
      unfold cmp in Hc'. assert (key y <= key x)%Q as Hyx by lra.
      constructor; [done|].
      rewrite sortInsertQ_perm. by constructor.
Qed.

Lemma sortByQ_ascending l : ascendingQ key (sortByQ cmp l).
Proof.
  induction l as [|x l IH]; simpl; [constructor|].
  by apply sortInsertQ_ascending.
Qed.

Lemma ascendingQ_split l k d r :
  ascendingQ key l → d ∈ take k l → r ∈ drop k l → (key d <= key r)%Q.
Proof.
  unfold ascendingQ. intros Hl. revert k.
  induction Hl as [|x l Hl IH Hx]; intros k.
  - rewrite take_nil. by intros ?%elem_of_nil.
  - destruct k as [|k]; simpl; [by intros ?%elem_of_nil|].
    intros [->|Hd]%elem_of_cons Hr.
    + rewrite Forall_forall in Hx. apply Hx. by eapply elem_of_drop_l.
    + by eapply IH.
Qed.

End SortingQ.

(** ** The transposition table: cleanup and the size bound *)

Lemma aged_keys (m : list (string * Entry)) :
  map fst (map (fun kv => (kv.1, ageEntry kv.2)) m) = map fst m.
Proof. rewrite map_map. by apply map_ext. Qed.

(** What [cleanup] leaves: the entries from the 30% mark of the ranking
    on. *)
Lemma cleanup_table t :
  NoDup (map fst (table t)) →
  let aged := map (fun kv => (kv.1, ageEntry kv.2)) (table t) in
  let entries := sortByQ (fun a b => (cleanupScore a.2 - cleanupScore b.2)%Q) aged in
  let toDelete := Z.to_nat (3 * Z.of_nat (length entries) / 10) in
  table (cleanup t) ≡ₚ drop toDelete entries.
Proof.
  intros Hnd aged entries toDelete.
  assert (entries ≡ₚ aged) as Hperm by apply sortByQ_perm.
  assert (NoDup (map fst entries)) as Hnd'.
  { rewrite Hperm. unfold aged. by rewrite aged_keys. }
  unfold cleanup. cbn [table]. fold aged entries toDelete.
  rewrite foldl_delete_filter, <- Hperm.
  rewrite <- (take_drop toDelete entries) at 1.
  rewrite <- (take_drop toDelete entries), fmap_app in Hnd'.
  apply NoDup_app in Hnd' as (_ & Hdisj & _).
  rewrite filter_app, filter_none, filter_all; [done| |].
  - intros kv Hkv Hin. apply (Hdisj kv.1); [done|].
    apply list_elem_of_fmap. by exists kv.
  - intros kv Hkv Hnot. apply Hnot. apply list_elem_of_fmap. by exists kv.
Qed.

Lemma cleanupScore_aged e :
  (cleanupScore (ageEntry e) == cleanupScore e - 5)%Q.
Proof.
  unfold cleanupScore, ageEntry. cbn [accessTime depth age].
  rewrite inject_Z_plus. change (inject_Z 1) with 1%Q. lra.
Qed.

Lemma cleanup_length t :
  NoDup (map fst (table t)) →
  length (table (cleanup t))
    = (length (table t) - Z.to_nat (3 * Z.of_nat (length (table t)) / 10))%nat ∧
  NoDup (map fst (table (cleanup t))).
Proof.
  intros Hnd. pose proof (cleanup_table t Hnd) as Hperm. cbv zeta in Hperm.
  set (aged := map (fun kv => (kv.1, ageEntry kv.2)) (table t)) in *.
  set (entries := sortByQ (fun a b => (cleanupScore a.2 - cleanupScore b.2)%Q) aged) in *.
  assert (entries ≡ₚ aged) as Hsorted by apply sortByQ_perm.
  assert (length entries = length (table t)) as Hlen.
  { rewrite Hsorted. unfold aged. by rewrite length_map. }
  split.
  - rewrite Hperm, length_drop. by rewrite Hlen.
  - rewrite Hperm. apply (sublist_NoDup _ (fst <$> entries)).
    + rewrite Hsorted. unfold aged. by rewrite aged_keys.
    + apply fmap_sublist. apply sublist_drop.
Qed.

(** [cleanup] ages every entry and deletes the floor of 30% of them, the
    lowest in the ranking: no deleted entry ranks above one that is kept.
    The counters are not touched. *)
Theorem cleanup_deletes_the_lowest_ranked t :
  NoDup (map fst (table t)) →
  let n := length (table t) in
  length (table (cleanup t)) = (n - Z.to_nat (3 * Z.of_nat n / 10))%nat ∧
  NoDup (map fst (table (cleanup t))) ∧
  (∀ k e', mapGet k (table (cleanup t)) = Some e' →
           ∃ e, mapGet k (table t) = Some e ∧ e' = ageEntry e) ∧
  (∀ kd ed kr er,
     mapGet kd (table t) = Some ed → mapGet kd (table (cleanup t)) = None →
     mapGet kr (table t) = Some er → mapGet kr (table (cleanup t)) ≠ None →
     (cleanupScore ed <= cleanupScore er)%Q) ∧
  maxSize (cleanup t) = maxSize t ∧ accessCount (cleanup t) = accessCount t ∧
  hits (cleanup t) = hits t ∧ stores (cleanup t) = stores t.
Proof.
  intros Hnd n. pose proof (cleanup_table t Hnd) as Hperm. cbv zeta in Hperm.
  set (aged := map (fun kv => (kv.1, ageEntry kv.2)) (table t)) in *.
  set (entries := sortByQ (fun a b => (cleanupScore a.2 - cleanupScore b.2)%Q) aged) in *.
  set (toDelete := Z.to_nat (3 * Z.of_nat (length entries) / 10)) in *.
  assert (entries ≡ₚ aged) as Hsorted by apply sortByQ_perm.
  assert (length entries = n) as Hlen.
  { rewrite Hsorted. unfold aged. by rewrite length_map. }
  destruct (cleanup_length t Hnd) as [Hlength Hnd'].
  assert (∀ k e', mapGet k (table (cleanup t)) = Some e' →
                  ∃ e, mapGet k (table t) = Some e ∧ e' = ageEntry e) as Hget.
  { intros k e' H. unfold cleanup in H. cbn [table] in H.
    apply mapGet_foldl_delete in H. rewrite (mapGet_fmap ageEntry) in H.
    destruct (mapGet k (table t)) as [e|]; [|done]. exists e. split; [done|].
    by injection H. }
  split_and!; try done.
  - intros kd ed kr er Hd Hd' Hr Hr'.
    assert ((kd, ageEntry ed) ∈ take toDelete entries) as Hin_d.
    { assert ((kd, ageEntry ed) ∈ entries) as Hin.
      { rewrite Hsorted. apply mapGet_Some_elem. unfold aged.
        by rewrite (mapGet_fmap ageEntry), Hd. }
      rewrite <- (take_drop toDelete entries) in Hin.
      apply elem_of_app in Hin as [|Hin]; [done|].
      rewrite <- Hperm in Hin. apply mapGet_elem in Hin; [congruence|done]. }
    assert ((kr, ageEntry er) ∈ drop toDelete entries) as Hin_r.
    { destruct (mapGet kr (table (cleanup t))) as [er'|] eqn:Her'; [|done].
      destruct (Hget _ _ Her') as (e & He & ->).
      assert (e = er) as -> by congruence.
      rewrite <- Hperm. by apply mapGet_Some_elem. }
    pose proof (ascendingQ_split (fun a : string * Entry => cleanupScore a.2) entries
                  toDelete _ _ (sortByQ_ascending _ aged) Hin_d Hin_r) as Hle.
    cbn [snd] in Hle. rewrite !cleanupScore_aged in Hle. lra.
Qed.

Lemma cleanup_deletes_the_lowest_ranked_witness :
  let t := store (store (store (store (create 4) "a" 1 (ofZ 0) EXACT None)
                                "b" 9 (ofZ 0) EXACT None)
                         "c" 2 (ofZ 0) EXACT None)
                 "d" 3 (ofZ 0) EXACT None in
  map fst (table t) = ["a"; "b"; "c"; "d"]%string ∧
  map fst (table (cleanup t)) = ["b"; "c"; "d"]%string ∧
  length (table (cleanup t)) = (4 - 1)%nat.
Proof.
  intros t. split; [vm_compute; reflexivity|]. split; [vm_compute; reflexivity|].
  assert (NoDup (map fst (table t))) as Hnd.
  { apply (bool_decide_unpack _). vm_compute. exact I. }
  exact (proj1 (cleanup_deletes_the_lowest_ranked t Hnd)).
Defined.

(** With room for at least four entries the table never holds more than
    [maxSize]: a [store] into a full table first deletes at least one
    entry. *)
Theorem store_keeps_the_size_bound t key d v ty bm :
  4 <= maxSize t →
  TranspositionTable.wellFormed t →
  TranspositionTable.wellFormed (store t key d v ty bm) ∧
  maxSize (store t key d v ty bm) = maxSize t.
Proof.
  intros Hmax [Hnd Hsize].
  unfold TranspositionTable.wellFormed, TranspositionTable.size in *.
  unfold store.
  set (t1 := if bool_decide (maxSize t <= Z.of_nat (length (table t)))
             then cleanup t else t).
  assert (NoDup (map fst (table t1)) ∧ Z.of_nat (length (table t1)) < maxSize t ∧
          maxSize t1 = maxSize t) as (Hnd1 & Hsize1 & Hmax1).
  { unfold t1. case_bool_decide as Hfull; [|split_and!; [done|lia|done]].
    destruct (cleanup_length t Hnd) as (Hlen & Hnd').
    split; [done|]. split; [|done]. rewrite Hlen.
    assert (1 <= 3 * Z.of_nat (length (table t)) / 10).
    { apply Z.div_le_lower_bound; lia. }
    assert (3 * Z.of_nat (length (table t)) / 10 <= Z.of_nat (length (table t))).
    { apply Z.div_le_upper_bound; lia. }
    lia. }
  match goal with |- context [if ?b then _ else _] => destruct b end.
  - cbn [table maxSize]. split; [|done]. split; [by apply mapSet_NoDup|].
    rewrite mapSet_length, Hmax1. case_decide; lia.
  - split; [|done]. split; [done|]. lia.
Qed.

Lemma store_keeps_the_size_bound_witness :
  let t := store (store (store (store (create 4) "a" 1 (ofZ 0) EXACT None)
                                "b" 9 (ofZ 0) EXACT None)
                         "c" 2 (ofZ 0) EXACT None)
                 "d" 3 (ofZ 0) EXACT None in
  let small := store (store (store (create 3) "a" 1 (ofZ 0) EXACT None)
                                "b" 9 (ofZ 0) EXACT None)
                     "c" 2 (ofZ 0) EXACT None in
  TranspositionTable.size t = 4 ∧
  TranspositionTable.wellFormed (store t "e" 1 (ofZ 0) EXACT None) ∧
  map fst (table (store t "e" 1 (ofZ 0) EXACT None)) = ["b"; "c"; "d"; "e"]%string ∧
  TranspositionTable.size (store small "d" 3 (ofZ 0) EXACT None) = 4.
Proof.
  intros t small. split; [vm_compute; reflexivity|].
  split; [|split; vm_compute; reflexivity].
  apply (store_keeps_the_size_bound t "e" 1 (ofZ 0) EXACT None).
  - vm_compute. discriminate.
  - split.
    + apply (bool_decide_unpack _). vm_compute. exact I.
    + vm_compute. discriminate.
Defined.

(** ** The transposition table: what a lookup leaves alone *)

(** [lookup] changes nothing but the access time and the age of the entry
    it returns and the two counters: the keys, their order and the depth,
    value, type and best move of every entry are as before, and a lookup
    that answers [null] changes nothing at all. *)
Theorem lookup_frame t key minDepth alpha beta :
  let r := (lookup t key minDepth alpha beta).1 in
  let t' := (lookup t key minDepth alpha beta).2 in
  map fst (table t') = map fst (table t) ∧
  maxSize t' = maxSize t ∧ stores t' = stores t ∧
  (r = Null → t' = t) ∧
  (r ≠ Null → hits t' = hits t + 1 ∧ accessCount t' = accessCount t + 1) ∧
  (∀ k e, mapGet k (table t) = Some e →
     ∃ e', mapGet k (table t') = Some e' ∧
           depth e' = depth e ∧ value e' = value e ∧
           type e' = type e ∧ bestMove e' = bestMove e ∧
           (k ≠ key → e' = e)) ∧
  (∀ k, mapGet k (table t) = None → mapGet k (table t') = None).
Proof.
  intros r t'. subst r t'. unfold lookup.
  destruct (mapGet key (table t)) as [entry|] eqn:Hentry.
  2:{ cbn [fst snd]. split_and!; try done. intros k e He. exists e. done. }
  case_bool_decide as Hdepth.
  { cbn [fst snd]. split_and!; try done. intros k e He. exists e. done. }
  set (entry' := mkEntry (depth entry) (value entry) (type entry) (bestMove entry)
                         (accessCount t) 0).
  set (t1 := mkTable (maxSize t) (mapSet key entry' (table t)) (accessCount t + 1)
                     (hits t + 1) (stores t)).
  assert (∀ res : LookupResult, res ≠ Null →
    let r := (res, t1).1 in let t' := (res, t1).2 in
    map fst (table t') = map fst (table t) ∧
    maxSize t' = maxSize t ∧ stores t' = stores t ∧
    (r = Null → t' = t) ∧
    (r ≠ Null → hits t' = hits t + 1 ∧ accessCount t' = accessCount t + 1) ∧
    (∀ k e, mapGet k (table t) = Some e →
       ∃ e', mapGet k (table t') = Some e' ∧
             depth e' = depth e ∧ value e' = value e ∧
             type e' = type e ∧ bestMove e' = bestMove e ∧
             (k ≠ key → e' = e)) ∧
    (∀ k, mapGet k (table t) = None → mapGet k (table t') = None)) as Hall.
  { intros res Hres. cbn [fst snd]. unfold t1. cbn [table maxSize stores hits accessCount].
    split_and!; try done.
    - rewrite mapSet_keys. rewrite decide_True; [done|].
      destruct (decide (key ∈ map fst (table t))) as [|Hn]; [done|].
      apply mapGet_None in Hn. congruence.
    - intros k e He. destruct (decide (k = key)) as [->|Hne].
      + exists entry'. rewrite mapGet_mapSet_eq. assert (e = entry) as -> by congruence.
        done.
      + exists e. rewrite mapGet_mapSet_ne by done. done.
    - intros k Hk. rewrite mapGet_mapSet_ne; [done|]. intros ->. congruence. }
  cbv zeta in Hall.
  repeat (match goal with |- context [if ?b then _ else _] => destruct b end);
    by apply Hall.
Qed.

(** ** The transposition table: prefetch, has and getBestMove *)

Section Prefetch.
Variable isDarkSquare : Z → Z → bool.

Local Abbreviation has := (TranspositionTable.has isDarkSquare).
Local Abbreviation prefetch := (TranspositionTable.prefetch isDarkSquare).
Local Abbreviation getBestMoveOf := (TranspositionTable.getBestMove isDarkSquare).

Lemma store_absent_key t key d v ty bm :
  mapGet key (table t) = None →
  mapGet key (table (store t key d v ty bm))
    = Some (mkEntry d v ty bm
              (accessCount (if bool_decide (maxSize t <= Z.of_nat (length (table t)))
                            then cleanup t else t)) 0).
Proof.
  intros Hnone. unfold store.
  set (t1 := if bool_decide (maxSize t <= Z.of_nat (length (table t)))
             then cleanup t else t).
  assert (mapGet key (table t1) = None) as Hnone1.
  { unfold t1. case_bool_decide; [|done].
    destruct (mapGet key (table (cleanup t))) as [e|] eqn:He; [|done].
    apply cleanup_get in He as (e0 & He0 & _). congruence. }
  rewrite Hnone1. cbn [table]. by rewrite mapGet_mapSet_eq.
Qed.

(** After [prefetch] the position is in the table.  A position that was
    there already keeps its entry, and the table is untouched; a new one
    gets an exact entry of depth 0 and value 0 without a best move, so
    every later [store] for the position at a depth above 0, or exact at
    depth 0, replaces it. *)
Theorem prefetch_reserves_an_entry t position depth :
  let key := generateKey isDarkSquare position in
  let t' := prefetch t position depth in
  has t' position = true ∧
  (has t position = true → t' = t) ∧
  (has t position = false →
     getBestMoveOf t' position = None ∧
     ∃ e, mapGet key (table t') = Some e ∧
          TT.depth e = 0 ∧ value e = ofZ 0 ∧ type e = EXACT ∧
          ∀ d v ty bm, 0 < d ∨ (d = 0 ∧ ty = EXACT) →
            ∃ e', mapGet key (table (store t' key d v ty bm)) = Some e' ∧
                  TT.depth e' = d ∧ value e' = v ∧ type e' = ty ∧ bestMove e' = bm).
Proof.
  intros key t'. subst t'.
  unfold TranspositionTable.has, TranspositionTable.prefetch,
    TranspositionTable.getBestMove. fold key.
  destruct (mapGet key (table t)) as [e|] eqn:He.
  - rewrite (bool_decide_eq_true_2 (is_Some (Some e))) by done. cbn [negb].
    rewrite He. split_and!; [by apply bool_decide_eq_true_2|done|done].
  - rewrite (bool_decide_eq_false_2 (is_Some None)) by (by intros [? ?]). cbn [negb].
    pose proof (store_absent_key t key 0 (ofZ 0) EXACT None He) as Hget.
    rewrite Hget. split_and!; [by apply bool_decide_eq_true_2|done|].
    intros _. split; [done|]. eexists. split; [done|]. split_and!; try done.
    intros d v ty bm Hd.
    apply (store_get _ key d v ty bm). intros e0. rewrite Hget. intros [= <-].
    cbn [TT.depth]. destruct Hd as [?|[-> ->]]; [by left|by right].
Qed.

End Prefetch.

(** ** The evaluation cache *)

Lemma mapDelete_head {V} (k : string) (v : V) (m : list (string * V)) :
  NoDup (map fst ((k, v) :: m)) → mapDelete k ((k, v) :: m) = m.
Proof.
  cbn [map fst]. intros [Hnotin _]%NoDup_cons. unfold mapDelete.
  rewrite filter_cons_False by (cbn [fst]; intros H; by apply H).
  apply filter_all. intros [k' v'] Hin Heq. cbn [fst] in Heq. subst k'.
  apply Hnotin. apply list_elem_of_fmap. by exists (k, v').
Qed.

(** [store] then [lookup] gives the value back.  With room for at least
    one entry the cache never holds more than [maxSize]: a [store] into a
    full cache first gives up the oldest key, also when the key stored is
    already in the cache; every other key keeps its value. *)
Theorem evaluationCache_store c key value :
  1 <= EvaluationCache.maxSize c →
  EvaluationCache.wellFormed c →
  let c' := EvaluationCache.store c key value in
  EvaluationCache.wellFormed c' ∧
  EvaluationCache.maxSize c' = EvaluationCache.maxSize c ∧
  EvaluationCache.lookup c' key = Some value ∧
  (∀ k, k ≠ key →
     EvaluationCache.lookup c' k =
     if EvaluationCache.isFull c && bool_decide (EvaluationCache.firstKey c = Some k)
     then None else EvaluationCache.lookup c k).
Proof.
  intros Hmax [Hnd Hsize] c'. subst c'.
  unfold EvaluationCache.wellFormed, EvaluationCache.size, EvaluationCache.store,
    EvaluationCache.lookup, EvaluationCache.isFull, EvaluationCache.firstKey in *.
  cbn [EvaluationCache.cache EvaluationCache.maxSize].
  case_bool_decide as Hfull.
  - destruct (EvaluationCache.cache c) as [|[first v0] rest] eqn:Hcache.
    { simpl in Hfull. lia. }
    cbn [head fmap option_fmap option_map fst].
    rewrite mapDelete_head by done.
    cbn [map fst] in Hnd. apply NoDup_cons in Hnd as [Hnotin Hnd].
    split_and!.
    + by apply mapSet_NoDup.
    + rewrite mapSet_length. cbn [length] in Hsize. case_decide; lia.
    + done.
    + by rewrite mapGet_mapSet_eq.
    + intros k Hk. rewrite mapGet_mapSet_ne by done. cbn [andb mapGet].
      destruct (decide (first = k)) as [->|Hne].
      * rewrite (bool_decide_eq_true_2 (Some k = Some k)) by done.
        apply mapGet_None. done.
      * rewrite (bool_decide_eq_false_2 (Some first = Some k)) by congruence.
        by rewrite (bool_decide_eq_false_2 (first = k)).
  - split_and!.
    + by apply mapSet_NoDup.
    + rewrite mapSet_length. case_decide; lia.
    + done.
    + by rewrite mapGet_mapSet_eq.
    + intros k Hk. rewrite mapGet_mapSet_ne by done. done.
Qed.

Lemma evaluationCache_store_witness :
  let c := EvaluationCache.store
             (EvaluationCache.store (EvaluationCache.create 2) "a" 1%Q) "b" 2%Q in
  let c' := EvaluationCache.store c "b" 3%Q in
  EvaluationCache.isFull c = true ∧
  EvaluationCache.wellFormed c' ∧
  EvaluationCache.lookup c' "b" = Some 3%Q ∧
  EvaluationCache.lookup c' "a" = None ∧
  EvaluationCache.size c' = 1.
Proof.
  intros c c'.
  assert (1 <= EvaluationCache.maxSize c) as Hmax by (vm_compute; discriminate).
  assert (EvaluationCache.wellFormed c) as Hwf.
  { split; [apply (bool_decide_unpack _); vm_compute; exact I|vm_compute; discriminate]. }
  destruct (evaluationCache_store c "b" 3%Q Hmax Hwf) as (Hwf' & _ & Hget & Hother).
  split; [vm_compute; reflexivity|]. split; [exact Hwf'|]. split; [exact Hget|].
  split; [|vm_compute; reflexivity].
  unfold c'. rewrite (Hother "a"); [vm_compute; reflexivity|discriminate].
Defined.

(** ** Killer moves *)

Lemma isSameMove_quiet m1 m2 :
  captures m1 = [] → captures m2 = [] →
  isSameMove m1 (Some m2) = true → m1 = m2.
Proof.
  destruct m1, m2. simpl. intros -> ->.
  rewrite andb_true_iff, !bool_decide_eq_true. by intros [-> ->].
Qed.

Lemma isSameMove_refl m : isSameMove m (Some m) = true.
Proof. unfold isSameMove. by rewrite !bool_decide_eq_true_2. Qed.

Lemma freshKillerMoves_ok : killersOk freshKillerMoves.
Proof.
  unfold killersOk, freshKillerMoves. apply Forall_replicate.
  unfold killerRowOk. simpl. split_and!; done.
Qed.

(** [updateKillerMoves] keeps the table in shape (100 rows stay 100 rows,
    no capture is stored, the two slots of a row never hold the same
    move) and touches the row of [ply] only.  A quiet move at a ply of the
    table is in the first slot afterwards; a move that was there already
    leaves the row as it is, another one pushes the old first slot to the
    second.  A capture, or a ply past the table, changes nothing. *)
Theorem updateKillerMoves_keeps_the_table move ply killerMoves :
  killersOk killerMoves →
  let updated := updateKillerMoves move ply killerMoves in
  killersOk updated ∧
  length updated = length killerMoves ∧
  (∀ p, p ≠ ply → updated !! p = killerMoves !! p) ∧
  (captures move ≠ [] ∨ (length killerMoves ≤ ply)%nat → updated = killerMoves) ∧
  (captures move = [] →
   ∀ first second, killerMoves !! ply = Some (first, second) →
     updated !! ply =
       Some (Some move, if decide (first = Some move) then second else first)).
Proof.
  intros Hok updated. subst updated. unfold updateKillerMoves.
  destruct (killerMoves !! ply) as [[first second]|] eqn:Hrow.
  2:{ split_and!; try done. }
  assert (killerRowOk (first, second)) as Hrowok.
  { unfold killersOk in Hok. rewrite Forall_lookup in Hok. by eapply Hok. }
  destruct Hrowok as (Hc1 & Hc2 & Hnone & Hdiff). cbn [fst snd] in *.
  case_bool_decide as Hcap; cbn [negb].
  - destruct (isSameMove move first) eqn:Hsame.
    + assert (first = Some move) as Hfirst.
      { destruct first as [m|]; [|done]. f_equal. symmetry.
        apply isSameMove_quiet; [done|by apply Hc1|done]. }
      split_and!; try done.
      intros _ f s [= <- <-]. rewrite Hrow, Hfirst. by rewrite decide_True.
    + assert (first ≠ Some move) as Hfirst.
      { intros ->. by rewrite isSameMove_refl in Hsame. }
      split_and!.
      * unfold killersOk. apply Forall_insert; [done|].
        unfold killerRowOk. cbn [fst snd]. split_and!.
        -- by intros m [= <-].
        -- done.
        -- done.
        -- by intros m [= <-].
      * by rewrite length_insert.
      * intros p Hp. by rewrite list_lookup_insert_ne.
      * intros [?|Hlen]; [done|]. apply lookup_lt_Some in Hrow. lia.
      * intros _ f s [= <- <-]. rewrite list_lookup_insert_eq
          by (by eapply lookup_lt_Some).
        by rewrite decide_False.
  - split_and!; try done.
Qed.

Lemma updateKillerMoves_keeps_the_table_witness :
  let a := mkMove (mkPos 6 1) (mkPos 5 2) [] in
  let b := mkMove (mkPos 6 3) (mkPos 5 4) [] in
  let table := updateKillerMoves b 3 (updateKillerMoves a 3 freshKillerMoves) in
  table !! 3%nat = Some (Some b, Some a) ∧
  killersOk (updateKillerMoves a 3 table) ∧
  updateKillerMoves a 3 table !! 3%nat = Some (Some a, Some b).
Proof.
  intros a b table.
  assert (killersOk table) as Hok.
  { apply (updateKillerMoves_keeps_the_table b 3).
    apply (updateKillerMoves_keeps_the_table a 3).
    apply freshKillerMoves_ok. }
  split; [vm_compute; reflexivity|].
  destruct (updateKillerMoves_keeps_the_table a 3 table Hok) as (Hok' & _ & _ & _ & Hrow).
  split; [exact Hok'|].
  rewrite (Hrow eq_refl (Some b) (Some a)); [|vm_compute; reflexivity].
  rewrite decide_False; [done|discriminate].
Defined.

(** ** Move keys *)

(** The decimal numeral of a row or column of the board is one digit. *)
Lemma pretty_digit z :
  0 <= z < 10 →
  ∃ c, pretty z = String c EmptyString ∧
       ∀ z', 0 <= z' < 10 → pretty z' = String c EmptyString → z' = z.
Proof.
  intros Hz.
  assert (z = 0 ∨ z = 1 ∨ z = 2 ∨ z = 3 ∨ z = 4 ∨ z = 5 ∨ z = 6 ∨ z = 7 ∨
          z = 8 ∨ z = 9) as Hcases by lia.
  assert (∀ z', 0 <= z' < 10 →
            z' = 0 ∨ z' = 1 ∨ z' = 2 ∨ z' = 3 ∨ z' = 4 ∨ z' = 5 ∨ z' = 6 ∨
            z' = 7 ∨ z' = 8 ∨ z' = 9) as Hcases' by (intros; lia).
  repeat (destruct Hcases as [->|Hcases]); [..|subst z];
    (eexists; split; [vm_compute; reflexivity|];
     intros z' Hz' Hp; specialize (Hcases' z' Hz');
     repeat (destruct Hcases' as [->|Hcases']); [..|subst z'];
     first [reflexivity | vm_compute in Hp; discriminate]).
Qed.

Lemma validPos_digits p :
  validPos p = true → 0 <= row p < 10 ∧ 0 <= col p < 10.
Proof.
  unfold validPos, isValidSquare, BOARD_SIZE.
  rewrite !andb_true_iff, !bool_decide_eq_true. lia.
Qed.

(** On the board the key of the history table and [isSameMove] tell moves
    apart in the same way: two moves have the same key exactly when they
    have the same source and the same destination, whatever they
    capture. *)
Theorem getMoveKey_agrees_with_isSameMove m1 m2 :
  validPos (from m1) = true → validPos (to m1) = true →
  validPos (from m2) = true → validPos (to m2) = true →
  (getMoveKey m1 = getMoveKey m2 ↔ isSameMove m1 (Some m2) = true).
Proof.
  intros [Hf1r Hf1c]%validPos_digits [Ht1r Ht1c]%validPos_digits
         [Hf2r Hf2c]%validPos_digits [Ht2r Ht2c]%validPos_digits.
  unfold isSameMove. rewrite andb_true_iff, !bool_decide_eq_true. split.
  - unfold getMoveKey.
    destruct (pretty_digit _ Hf1r) as (a & -> & Ha).
    destruct (pretty_digit _ Hf1c) as (b & -> & Hb).
    destruct (pretty_digit _ Ht1r) as (c & -> & Hc).
    destruct (pretty_digit _ Ht1c) as (d & -> & Hd).
    destruct (pretty_digit _ Hf2r) as (a' & Ha' & _).
    destruct (pretty_digit _ Hf2c) as (b' & Hb' & _).
    destruct (pretty_digit _ Ht2r) as (c' & Hc' & _).
    destruct (pretty_digit _ Ht2c) as (d' & Hd' & _).
    rewrite Ha', Hb', Hc', Hd'. cbn [String.append].
    intros [= -> -> -> ->].
    split; apply pos_eq; symmetry; auto.
  - intros [Hfrom Hto]. unfold getMoveKey. by rewrite Hfrom, Hto.
Qed.

Lemma getMoveKey_agrees_with_isSameMove_witness :
  getMoveKey evenTradeMove = getMoveKey (mkMove (mkPos 5 6) (mkPos 3 8) []) ∧
  getMoveKey evenTradeMove ≠ getMoveKey (mkMove (mkPos 5 6) (mkPos 4 7) []).
Proof.
  split.
  - apply (getMoveKey_agrees_with_isSameMove evenTradeMove
             (mkMove (mkPos 5 6) (mkPos 3 8) [])); reflexivity.
  - intros Heq.
    apply (getMoveKey_agrees_with_isSameMove evenTradeMove
             (mkMove (mkPos 5 6) (mkPos 4 7) [])) in Heq; try reflexivity.
    vm_compute in Heq. discriminate.
Defined.

(** ** The value of what a capture takes *)

Lemma foldl_gain_acc g caps :
  ∀ a, foldl (fun gain cap => gain + getPieceValue (pieceAt g cap)) a caps =
       a + foldl (fun gain cap => gain + getPieceValue (pieceAt g cap)) 0 caps.
Proof.
  induction caps as [|c caps IH]; intros a; cbn [foldl]; [lia|].
  rewrite (IH (a + _)), (IH (0 + _)). lia.
Qed.

Lemma captureGain_cons position from to c caps :
  captureGain position (mkMove from to (c :: caps)) =
  getPieceValue (pieceAt (pieces position) c)
  + captureGain position (mkMove from to caps).
Proof.
  unfold captureGain. cbn [captures foldl]. rewrite foldl_gain_acc. lia.
Qed.

Lemma countCaptureValue_captureGain position move :
  countCaptureValue position move = captureGain position move.
Proof.
  unfold countCaptureValue, captureGain. case_bool_decide as H; [|done].
  by rewrite H.
Qed.

Lemma getPieceValue_opponent piece player :
  isOpponentPiece piece player = true → 100 <= getPieceValue piece.
Proof. destruct piece, player; simpl; intros; try done; lia. Qed.

(** A capture of opponent pieces gains at least 100 for each. *)
Lemma captureGain_opponents position player move :
  (∀ s, s ∈ captures move →
        isOpponentPiece (pieceAt (pieces position) s) player = true) →
  100 * Z.of_nat (length (captures move)) <= captureGain position move.
Proof.
  destruct move as [f t caps]. cbn [captures].
  induction caps as [|c caps IH]; intros Hopp.
  - unfold captureGain. simpl. lia.
  - rewrite captureGain_cons. cbn [length].
    pose proof (getPieceValue_opponent _ _ (Hopp c ltac:(by left))).
    assert (100 * Z.of_nat (length caps) <= captureGain position (mkMove f t caps)).
    { apply IH. intros s Hs. apply Hopp. by right. }
    lia.
Qed.

Lemma getAvailableCaptures_gain position m :
  m ∈ getAvailableCaptures position → 100 <= captureGain position m.
Proof.
  intros Hm.
  pose proof (captureGain_opponents position (currentPlayer position) m
                (fun s => getAvailableCaptures_opponents _ _ s Hm)) as Hgain.
  apply getAvailableCaptures_spec in Hm as [Hm _].
  apply allCaptures_captures in Hm. destruct (captures m); [done|].
  cbn [length] in Hgain. lia.
Qed.

(** ** The safety checks on the moves of the side to move *)

(** The safety checks never object to a generated move.  They look for
    the opponent's reply in a position in which the mover is to move
    again, find none that takes the moved piece, and so:
    [staticExchangeEvaluation] is the value of the pieces taken and never
    negative, [isMoveReallySafe] and [canSafelyAdvance] answer true, and
    [isSafeCapture] answers true. *)
Theorem safety_checks_pass_generated_moves (isDarkSquare : Z → Z → bool) position m :
  m ∈ generateMoves isDarkSquare position →
  staticExchangeEvaluation position m = countCaptureValue position m ∧
  0 <= staticExchangeEvaluation position m ∧
  isMoveReallySafe position m = true ∧
  isSafeCapture position m = true ∧
  canSafelyAdvance position (from m) (to m) = true.
Proof.
  intros Hm.
  pose proof (generateMoves_from _ _ _ Hm) as Hown.
  pose proof (own_not_opponent _ _ Hown) as Hnot.
  pose proof (staticExchangeEvaluation_is_gain _ _ Hnot) as Hsee.
  assert (staticExchangeEvaluation position m = countCaptureValue position m) as Hval.
  { rewrite Hsee. unfold countCaptureValue, captureGain. by case_bool_decide. }
  split_and!.
  - done.
  - rewrite Hval, countCaptureValue_captureGain. apply captureGain_nonneg.
  - by apply isMoveReallySafe_own_piece.
  - unfold isSafeCapture. case_bool_decide as Hcap; [done|].
    apply bool_decide_eq_true. rewrite Hval, countCaptureValue_captureGain.
    assert (m ∈ getAvailableCaptures position) as Hin.
    { unfold generateMoves in Hm. case_bool_decide; [done|].
      apply normalMoves_elem in Hm as (_ & _ & ? & _). done. }
    pose proof (getAvailableCaptures_gain _ _ Hin). lia.
  - unfold canSafelyAdvance. by apply isMoveReallySafe_own_piece.
Qed.

Lemma safety_checks_pass_generated_moves_witness :
  evenTradeMove ∈ generateMoves darkOdd evenTradePosition ∧
  staticExchangeEvaluation evenTradePosition evenTradeMove = 100 ∧
  isMoveReallySafe evenTradePosition evenTradeMove = true ∧
  isSafeCapture evenTradePosition evenTradeMove = true.
Proof.
  assert (evenTradeMove ∈ generateMoves darkOdd evenTradePosition) as Hin.
  { apply (list_elem_of_lookup_2 _ 0%nat). vm_compute. reflexivity. }
  destruct (safety_checks_pass_generated_moves darkOdd _ _ Hin)
    as (Hsee & _ & Hsafe & Hcap & _).
  split; [exact Hin|]. split; [|split; [exact Hsafe|exact Hcap]].
  rewrite Hsee. vm_compute. reflexivity.
Defined.

(** The squares the landing loop collects, written as the squares of a
    ray. *)
Lemma landingSquares_ray n g d q :
  ∀ p, q ∈ landingSquares n g p d ↔
       ∃ k, 0 <= k < Z.of_nat n ∧ q = along p d k ∧
            ∀ i, 0 <= i <= k →
                 validPos (along p d i) = true ∧ pieceAt g (along p d i) = NONE.
Proof.
  induction n as [|n IH]; intros p; cbn [landingSquares].
  - rewrite elem_of_nil. split; [done|]. intros (k & ? & _). lia.
  - destruct (validPos p && bool_decide (pieceAt g p = NONE)) eqn:Hfree.
    + apply andb_true_iff in Hfree as [Hv Hnone%bool_decide_eq_true].
      rewrite elem_of_cons, IH. split.
      * intros [->|(k & Hk & -> & Hall)].
        -- exists 0. split; [lia|]. split; [by rewrite along_0|].
           intros i Hi. assert (i = 0) as -> by lia. by rewrite along_0.
        -- exists (k + 1). split; [lia|]. split; [by rewrite along_step|].
           intros i Hi. destruct (decide (i = 0)) as [->|Hne].
           ++ by rewrite along_0.
           ++ specialize (Hall (i - 1)). rewrite along_step in Hall.
              replace (i - 1 + 1) with i in Hall by lia. apply Hall. lia.
      * intros (k & Hk & -> & Hall). destruct (decide (k = 0)) as [->|Hne].
        -- left. by rewrite along_0.
        -- right. exists (k - 1). split; [lia|]. split.
           ++ rewrite along_step. f_equal. lia.
           ++ intros i Hi. rewrite along_step. apply Hall. lia.
    + rewrite elem_of_nil. split; [done|]. intros (k & Hk & _ & Hall).
      specialize (Hall 0). rewrite along_0 in Hall.
      destruct Hall as [Hv Hnone]; [lia|].
      rewrite Hv, Hnone, bool_decide_eq_true_2 in Hfree; done.
Qed.

(** For a piece of the side to move [findSafeSquares] filters nothing: it
    returns every empty square of the board next to a man, in all four
    directions, backwards too, and every square a king can slide to. *)
Theorem findSafeSquares_of_own_piece position r c sq :
  let g := pieces position in
  let piece := pieceAt g (mkPos r c) in
  validPos (mkPos r c) = true →
  isPieceOfCurrentPlayer piece (currentPlayer position) = true →
  (sq ∈ findSafeSquares position r c ↔
   ∃ d k, d ∈ KING_MOVES ∧ 1 <= k ∧ (isKingPiece piece = false → k = 1) ∧
          sq = along (mkPos r c) d k ∧
          ∀ i, 1 <= i <= k →
               validPos (along (mkPos r c) d i) = true ∧
               pieceAt g (along (mkPos r c) d i) = NONE).
Proof.
  intros g piece Hvalid Hown. unfold findSafeSquares. fold g piece.
  rewrite bool_decide_eq_false_2 by (by eapply own_piece).
  assert (∀ s, isMoveReallySafe position (mkMove (mkPos r c) s []) = true) as Hsafe.
  { intros s. apply isMoveReallySafe_own_piece. cbn [from].
    by apply own_not_opponent. }
  cbv zeta. rewrite list_elem_of_bind.
  destruct (isKingPiece piece) eqn:Hking.
  - split.
    + intros (d & Hsq & Hd). apply list_elem_of_filter in Hsq as [_ Hsq].
      apply landingSquares_ray in Hsq as (k & Hk & -> & Hall).
      exists d, (k + 1). split; [done|]. split; [lia|]. split; [done|].
      split; [by rewrite along_step|].
      intros i Hi. specialize (Hall (i - 1)). rewrite along_step in Hall.
      replace (i - 1 + 1) with i in Hall by lia. apply Hall. lia.
    + intros (d & k & Hd & Hk & _ & -> & Hall). exists d. split; [|done].
      apply list_elem_of_filter. split; [by apply Hsafe|].
      apply landingSquares_ray. exists (k - 1). split.
      * assert (k < BOARD_SIZE); [|unfold SCAN; lia].
        apply (along_valid_bound (mkPos r c) d k); [done|done| |lia].
        apply Hall. lia.
      * split; [rewrite along_step; f_equal; lia|].
        intros i Hi. rewrite along_step. apply Hall. lia.
  - split.
    + intros (d & Hsq & Hd).
      destruct (validPos (step (mkPos r c) d)
                && bool_decide (pieceAt g (step (mkPos r c) d) = NONE)) eqn:Hfree;
        [|by apply elem_of_nil in Hsq].
      rewrite Hsafe in Hsq. apply list_elem_of_singleton in Hsq as ->.
      apply andb_true_iff in Hfree as [Hv Hnone%bool_decide_eq_true].
      exists d, 1. split; [done|]. split; [lia|]. split; [done|].
      split; [by rewrite along_1|].
      intros i Hi. assert (i = 1) as -> by lia. by rewrite along_1.
    + intros (d & k & Hd & Hk & Hone & -> & Hall). rewrite Hone in * by done.
      exists d. split; [|done]. destruct (Hall 1) as [Hv Hnone]; [lia|].
      rewrite along_1 in *.
      rewrite Hv, Hnone, bool_decide_eq_true_2 by done. cbn [andb].
      rewrite Hsafe. by apply list_elem_of_singleton.
Qed.

Lemma findSafeSquares_of_own_piece_witness :
  mkPos 6 5 ∈ findSafeSquares twoMovesPosition 5 4 ∧
  mkPos 4 3 ∈ findSafeSquares twoMovesPosition 5 4.
Proof.
  split.
  - apply (findSafeSquares_of_own_piece twoMovesPosition 5 4 (mkPos 6 5));
      [reflexivity|reflexivity|].
    exists (mkDir 1 1), 1. split_and!; [|lia|done|reflexivity|].
    + unfold KING_MOVES. rewrite !elem_of_cons. tauto.
    + intros i Hi. assert (i = 1) as -> by lia. split; reflexivity.
  - apply (findSafeSquares_of_own_piece twoMovesPosition 5 4 (mkPos 4 3));
      [reflexivity|reflexivity|].
    exists (mkDir (-1) (-1)), 1. split_and!; [|lia|done|reflexivity|].
    + unfold KING_MOVES. rewrite !elem_of_cons. tauto.
    + intros i Hi. assert (i = 1) as -> by lia. split; reflexivity.
Defined.

(** ** Threats *)

Lemma threatValue_acc afterMove threats :
  ∀ a, foldl (fun threatValue threat =>
                threatValue + countCaptureValue afterMove threat) a threats =
       a + foldl (fun threatValue threat =>
                    threatValue + countCaptureValue afterMove threat) 0 threats.
Proof.
  induction threats as [|t threats IH]; intros a; cbn [foldl]; [lia|].
  rewrite (IH (a + _)), (IH (0 + _)). lia.
Qed.

Lemma threatValue_lower position threats :
  (∀ t, t ∈ threats → 100 <= countCaptureValue position t) →
  100 * Z.of_nat (length threats) <=
  foldl (fun threatValue threat => threatValue + countCaptureValue position threat)
        0 threats.
Proof.
  induction threats as [|t threats IH]; intros Hall; cbn [foldl length]; [lia|].
  rewrite threatValue_acc.
  pose proof (Hall t ltac:(by left)).
  assert (100 * Z.of_nat (length threats) <=
          foldl (fun threatValue threat =>
                   threatValue + countCaptureValue position threat) 0 threats).
  { apply IH. intros t' Ht'. apply Hall. by right. }
  lia.
Qed.

(** The three tests for a capture agree, and a move "creates a threat"
    exactly when it "gives check": the value [canThreaten] adds up is
    positive as soon as the side to move next has one capture, since every
    capture takes a piece worth at least 100. *)
Theorem canThreaten_is_givesCheck position move :
  canCapture position = hasCaptures position ∧
  inCheck position = hasCaptures position ∧
  givesCheck position move = hasCaptures (makeMove position move) ∧
  canThreaten position move = givesCheck position move.
Proof.
  split_and!; try reflexivity.
  unfold canThreaten, givesCheck, inCheck.
  set (afterMove := makeMove position move).
  pose proof (threatValue_lower afterMove (getAvailableCaptures afterMove)) as Hlow.
  destruct (getAvailableCaptures afterMove) as [|t threats] eqn:Hthreats.
  - cbn [foldl length]. rewrite !bool_decide_eq_false_2; [done|lia|lia].
  - rewrite !bool_decide_eq_true_2; [done|cbn [length]; lia|].
    cbn [length] in Hlow.
    assert (∀ t', t' ∈ t :: threats → 100 <= countCaptureValue afterMove t') as Hall.
    { intros t' Ht'. rewrite countCaptureValue_captureGain.
      apply getAvailableCaptures_gain. by rewrite Hthreats. }
    specialize (Hlow Hall). lia.
Qed.

(** ** Vulnerability *)

Lemma evaluateExchange_defended position r c :
  (countAttackers position r c
     (otherPlayer (pieceOwner (pieceAt (pieces position) (mkPos r c))))
   ≤ countDefenders position r c (pieceOwner (pieceAt (pieces position) (mkPos r c))))%nat →
  evaluateExchange position r c = 0.
Proof.
  intros Hle. unfold evaluateExchange. cbv zeta.
  case_bool_decide; [done|]. case_bool_decide; [done|].
  by rewrite bool_decide_eq_true_2.
Qed.

Lemma getPieceValue_range piece : 0 <= getPieceValue piece <= 450.
Proof. destruct piece; simpl; lia. Qed.

(** [evaluatePieceVulnerability] is 0 for an empty square and for a piece
    with at least as many defenders as attackers (the branch for an equal
    exchange never finds a loss); for a piece with fewer defenders than
    attackers it is the share [(attackers - defenders) / attackers] of the
    value of the piece, times 1.5 when nothing defends it, so it lies
    between 0 and 1.5 times the value. *)
Theorem evaluatePieceVulnerability_range position r c :
  let piece := pieceAt (pieces position) (mkPos r c) in
  let defenders := Z.of_nat (countDefenders position r c (pieceOwner piece)) in
  let attackers :=
    Z.of_nat (countAttackers position r c (otherPlayer (pieceOwner piece))) in
  let v := evaluatePieceVulnerability position r c in
  (piece = NONE ∨ attackers <= defenders → v = 0%Q) ∧
  (piece ≠ NONE → defenders < attackers →
     (v == inject_Z (getPieceValue piece) * inject_Z (attackers - defenders)
           / inject_Z attackers * (if bool_decide (defenders = 0%Z) then 1.5 else 1))%Q ∧
     (0 < v)%Q) ∧
  (0 <= v)%Q ∧ (v <= 1.5 * inject_Z (getPieceValue piece))%Q.
Proof.
  intros piece defenders attackers v.
  assert (0 <= defenders) as Hd0 by (unfold defenders; lia).
  assert (0 <= attackers) as Ha0 by (unfold attackers; lia).
  assert (piece = NONE ∨ attackers <= defenders → v = 0%Q) as Hzero.
  { intros Hcase. subst v. unfold evaluatePieceVulnerability. fold piece. cbv zeta.
    fold defenders attackers.
    case_bool_decide as Hp; [done|]. destruct Hcase as [?|Hle]; [done|].
    case_bool_decide as Ha; [done|].
    rewrite (bool_decide_eq_false_2 (defenders < attackers)) by lia.
    rewrite (bool_decide_eq_false_2 (defenders = 0)) by lia. cbn [andb].
    case_bool_decide as Heq; [|done].
    rewrite evaluateExchange_defended; [done|]. fold piece. lia. }
  assert (piece ≠ NONE → defenders < attackers →
     (v == inject_Z (getPieceValue piece) * inject_Z (attackers - defenders)
           / inject_Z attackers * (if bool_decide (defenders = 0%Z) then 1.5 else 1))%Q ∧
     (0 < v)%Q) as Hpos.
  { intros Hp Hlt.
    assert (0 < inject_Z attackers)%Q as Hapos.
    { change 0%Q with (inject_Z 0). rewrite <- Zlt_Qlt. lia. }
    assert (0 < inject_Z (attackers - defenders))%Q as Hdiff.
    { change 0%Q with (inject_Z 0). rewrite <- Zlt_Qlt. lia. }
    assert (0 < inject_Z (getPieceValue piece))%Q as Hval.
    { change 0%Q with (inject_Z 0). rewrite <- Zlt_Qlt. destruct piece; simpl; try lia.
      done. }
    assert (v == inject_Z (getPieceValue piece) * inject_Z (attackers - defenders)
           / inject_Z attackers * (if bool_decide (defenders = 0%Z) then 1.5 else 1))%Q
      as Heq.
    { subst v. unfold evaluatePieceVulnerability. fold piece. cbv zeta.
      fold defenders attackers.
      rewrite (bool_decide_eq_false_2 (piece = NONE)) by done.
      rewrite (bool_decide_eq_false_2 (attackers = 0)) by lia.
      rewrite (bool_decide_eq_true_2 (defenders < attackers)) by done.
      rewrite (bool_decide_eq_true_2 (0 < attackers)) by lia.
      rewrite andb_true_r, inject_Z_mult.
      case_bool_decide; field; intros H0; rewrite H0 in Hapos; by apply Qlt_irrefl in Hapos. }
    split; [done|]. rewrite Heq.
    assert (0 < inject_Z (getPieceValue piece) * inject_Z (attackers - defenders)
                / inject_Z attackers)%Q as Hq.
    { apply Qlt_shift_div_l; [done|]. rewrite Qmult_0_l.
      apply Qmult_lt_0_compat; done. }
    case_bool_decide; apply Qmult_lt_0_compat; done. }
  split; [done|]. split; [done|].
  destruct (decide (piece = NONE ∨ attackers <= defenders)) as [Hcase|Hcase].
  - rewrite (Hzero Hcase). split; [apply Qle_refl|].
    pose proof (getPieceValue_range piece) as [Hv _].
    apply Qmult_le_0_compat; [done|]. change 0%Q with (inject_Z 0).
    by rewrite <- Zle_Qle.
  - assert (piece ≠ NONE) as Hp by tauto.
    assert (defenders < attackers) as Hlt by lia.
    destruct (Hpos Hp Hlt) as [Heq Hvpos]. split; [by apply Qlt_le_weak|].
    rewrite Heq.
    assert (0 < inject_Z attackers)%Q as Hapos.
    { change 0%Q with (inject_Z 0). rewrite <- Zlt_Qlt. lia. }
    assert (0 <= inject_Z (getPieceValue piece))%Q as Hval.
    { change 0%Q with (inject_Z 0). rewrite <- Zle_Qle.
      apply getPieceValue_range. }
    assert (inject_Z (attackers - defenders) / inject_Z attackers <= 1)%Q as Hshare.
    { apply Qle_shift_div_r; [done|]. rewrite Qmult_1_l, <- Zle_Qle. lia. }
    assert (0 <= inject_Z (attackers - defenders) / inject_Z attackers)%Q as Hshare0.
    { apply Qle_shift_div_l; [done|]. rewrite Qmult_0_l.
      change 0%Q with (inject_Z 0). rewrite <- Zle_Qle. lia. }
    set (share := (inject_Z (attackers - defenders) / inject_Z attackers)%Q) in *.
    assert (inject_Z (getPieceValue piece) * inject_Z (attackers - defenders)
              / inject_Z attackers
            == inject_Z (getPieceValue piece) * share)%Q as ->.
    { unfold share. field. intros H0. rewrite H0 in Hapos.
      by apply Qlt_irrefl in Hapos. }
    assert (inject_Z (getPieceValue piece) * share
            <= inject_Z (getPieceValue piece))%Q as Hle1.
    { nra. }
    assert (0 <= inject_Z (getPieceValue piece) * share)%Q as Hge0.
    { by apply Qmult_le_0_compat. }
    case_bool_decide; lra.
Qed.

Lemma evaluatePieceVulnerability_range_witness :
  pieceAt (pieces hangingManPosition) (mkPos 3 8) = WHITE ∧
  countAttackers hangingManPosition 3 8 PBLACK = 1%nat ∧
  countDefenders hangingManPosition 3 8 PWHITE = 0%nat ∧
  (evaluatePieceVulnerability hangingManPosition 3 8 == 150)%Q ∧
  (0 < evaluatePieceVulnerability hangingManPosition 3 8)%Q.
Proof.
  split; [vm_compute; reflexivity|]. split; [vm_compute; reflexivity|].
  split; [vm_compute; reflexivity|].
  destruct (proj1 (proj2 (evaluatePieceVulnerability_range hangingManPosition 3 8)))
    as [Heq Hpos].
  - vm_compute. discriminate.
  - vm_compute. reflexivity.
  - split; [|exact Hpos]. rewrite Heq. vm_compute. reflexivity.
Defined.

(** ** The key of a position *)

Section Keys.
Variable isDarkSquare : Z → Z → bool.

Lemma pieceCode_char piece : ∃ c, pieceCode piece = String c EmptyString.
Proof. destruct piece; simpl; eauto. Qed.

Lemma pieceCode_inj p q : pieceCode p = pieceCode q → p = q.
Proof. destruct p, q; simpl; intros H; try done; discriminate. Qed.

Lemma playerCode_inj p q : playerCode p = playerCode q → p = q.
Proof. destruct p, q; simpl; intros H; try done; discriminate. Qed.

Lemma append_cons c (a b : string) : String c a +:+ b = String c (a +:+ b).
Proof. reflexivity. Qed.

Lemma append_nil (b : string) : "" +:+ b = b.
Proof. reflexivity. Qed.

Lemma string_app_assoc (a b c : string) : (a +:+ b) +:+ c = a +:+ (b +:+ c).
Proof.
  induction a as [|x a IH]; [by rewrite !append_nil|].
  by rewrite !append_cons, IH.
Qed.

Lemma string_app_empty_r (a : string) : a +:+ "" = a.
Proof.
  induction a as [|x a IH]; [done|]. by rewrite append_cons, IH.
Qed.

(** [generateKey], unfolded. *)
Lemma generateKey_eq position :
  generateKey isDarkSquare position =
  foldl (fun key sq =>
           if isDarkSquare (row sq) (col sq)
           then key +:+ pieceCode (pieceAt (pieces position) sq) else key)
        "" allSquares
  +:+ playerCode (currentPlayer position).
Proof.
  exact (eq_refl
    (foldl (fun key sq =>
              if isDarkSquare (row sq) (col sq)
              then key +:+ pieceCode (pieceAt (pieces position) sq) else key)
           "" allSquares
     +:+ playerCode (currentPlayer position))).
Qed.

Lemma keyFold_acc g l :
  ∀ acc,
    foldl (fun key sq =>
             if isDarkSquare (row sq) (col sq)
             then key +:+ pieceCode (pieceAt g sq) else key) acc l
    = acc +:+ foldl (fun key sq =>
                       if isDarkSquare (row sq) (col sq)
                       then key +:+ pieceCode (pieceAt g sq) else key) "" l.
Proof.
  induction l as [|sq l IH]; intros acc; cbn [foldl].
  - by rewrite string_app_empty_r.
  - rewrite (IH (if isDarkSquare _ _ then _ else _)).
    rewrite (IH (if isDarkSquare _ _ then "" +:+ _ else "")).
    destruct (isDarkSquare (row sq) (col sq)); [|done].
    by rewrite append_nil, string_app_assoc.
Qed.

Lemma keyFold_inj g1 g2 l s1 s2 :
  foldl (fun key sq =>
           if isDarkSquare (row sq) (col sq)
           then key +:+ pieceCode (pieceAt g1 sq) else key) "" l +:+ s1
  = foldl (fun key sq =>
             if isDarkSquare (row sq) (col sq)
             then key +:+ pieceCode (pieceAt g2 sq) else key) "" l +:+ s2 →
  (∀ sq, sq ∈ l → isDarkSquare (row sq) (col sq) = true →
         pieceAt g1 sq = pieceAt g2 sq) ∧ s1 = s2.
Proof.
  induction l as [|sq l IH]; cbn [foldl].
  - rewrite !append_nil. intros ->. split; [|done]. by intros sq ?%elem_of_nil.
  - rewrite (keyFold_acc g1), (keyFold_acc g2).
    destruct (isDarkSquare (row sq) (col sq)) eqn:Hdark.
    + rewrite !append_nil.
      destruct (pieceCode_char (pieceAt g1 sq)) as [c1 Hc1].
      destruct (pieceCode_char (pieceAt g2 sq)) as [c2 Hc2].
      rewrite !string_app_assoc, Hc1, Hc2, !append_cons, !append_nil.
      intros [= Hc Hrest]. apply IH in Hrest as [Hall ->]. split; [|done].
      intros sq' [->|Hin]%elem_of_cons Hd; [|by apply Hall].
      apply pieceCode_inj. by rewrite Hc1, Hc2, Hc.
    + rewrite !append_nil. intros [Hall ->]%IH. split; [|done].
      intros sq' [->|Hin]%elem_of_cons Hd; [congruence|by apply Hall].
Qed.

Lemma wfGrid_lookup g sq :
  wfGrid g → validPos sq = true →
  ∃ r, g !! Z.to_nat (row sq) = Some r ∧
       r !! Z.to_nat (col sq) = Some (pieceAt g sq).
Proof.
  intros Hwf Hv. pose proof (wfGrid_inGrid _ _ Hwf Hv) as (Hr & Hc & Hin).
  unfold pieceAt. rewrite !bool_decide_eq_true_2 by done. cbn [andb].
  destruct (g !! Z.to_nat (row sq)) as [r|]; [|done]. exists r. split; [done|].
  destruct (r !! Z.to_nat (col sq)) as [v|] eqn:Hv'; [done|].
  apply lookup_ge_None in Hv'. lia.
Qed.

(** Two 10x10 grids with the same piece on every square are the same. *)
Lemma wfGrid_ext g1 g2 :
  wfGrid g1 → wfGrid g2 →
  (∀ sq, validPos sq = true → pieceAt g1 sq = pieceAt g2 sq) → g1 = g2.
Proof.
  intros Hwf1 Hwf2 Hall. apply list_eq. intros i.
  destruct (decide (i < 10)%nat) as [Hi|Hi].
  2:{ destruct Hwf1 as [Hl1 _], Hwf2 as [Hl2 _]. unfold BOARD_SIZE in *.
      rewrite !lookup_ge_None_2; [done|lia|lia]. }
  assert (∀ j, (j < 10)%nat →
            validPos (mkPos (Z.of_nat i) (Z.of_nat j)) = true) as Hvalid.
  { intros j Hj. unfold validPos, isValidSquare, BOARD_SIZE. cbn [row col].
    rewrite !andb_true_iff, !bool_decide_eq_true. lia. }
  destruct (wfGrid_lookup g1 _ Hwf1 (Hvalid 0%nat ltac:(lia))) as (r1 & Hr1 & _).
  destruct (wfGrid_lookup g2 _ Hwf2 (Hvalid 0%nat ltac:(lia))) as (r2 & Hr2 & _).
  cbn [row col] in Hr1, Hr2. rewrite Nat2Z.id in Hr1, Hr2.
  rewrite Hr1, Hr2. f_equal. apply list_eq. intros j.
  destruct (decide (j < 10)%nat) as [Hj|Hj].
  - destruct (wfGrid_lookup g1 _ Hwf1 (Hvalid j Hj)) as (r1' & Hr1' & Hv1).
    destruct (wfGrid_lookup g2 _ Hwf2 (Hvalid j Hj)) as (r2' & Hr2' & Hv2).
    cbn [row col] in *. rewrite Nat2Z.id in *.
    assert (r1' = r1) as -> by congruence. assert (r2' = r2) as -> by congruence.
    rewrite Hv1, Hv2. f_equal. by apply Hall, Hvalid.
  - destruct Hwf1 as [_ Hrows1], Hwf2 as [_ Hrows2].
    rewrite Forall_lookup in Hrows1, Hrows2.
    specialize (Hrows1 _ _ Hr1). specialize (Hrows2 _ _ Hr2).
    unfold BOARD_SIZE in *. rewrite !lookup_ge_None_2; [done|lia|lia].
Qed.

Lemma evaluateFresh_history g player h1 h2 :
  evaluateFresh isDarkSquare (mkPosition g player h1)
  = evaluateFresh isDarkSquare (mkPosition g player h2).
Proof. reflexivity. Qed.

(** The key of the transposition table and of the evaluation cache tells
    positions of the game apart: two 10x10 positions with pieces on dark
    squares only have the same key only if they have the same pieces on
    every square and the same side to move, and then the evaluation gives
    them the same score, whatever their histories. *)
Theorem generateKey_identifies_the_position p1 p2 :
  wfGrid (pieces p1) → wfGrid (pieces p2) →
  piecesOnDark isDarkSquare (pieces p1) → piecesOnDark isDarkSquare (pieces p2) →
  generateKey isDarkSquare p1 = generateKey isDarkSquare p2 →
  pieces p1 = pieces p2 ∧ currentPlayer p1 = currentPlayer p2 ∧
  evaluateFresh isDarkSquare p1 = evaluateFresh isDarkSquare p2.
Proof.
  intros Hwf1 Hwf2 Hd1 Hd2 Hkey. rewrite !generateKey_eq in Hkey.
  apply (keyFold_inj (pieces p1) (pieces p2) allSquares) in Hkey
    as [Hdark Hplayer%playerCode_inj].
  assert (pieces p1 = pieces p2) as Hpieces.
  { apply wfGrid_ext; [done|done|]. intros sq Hsq%elem_of_allSquares.
    destruct (isDarkSquare (row sq) (col sq)) eqn:Hd; [by apply Hdark|].
    unfold piecesOnDark in Hd1, Hd2. rewrite Forall_forall in Hd1, Hd2.
    by rewrite Hd1, Hd2. }
  split; [done|]. split; [done|].
  destruct p1 as [g1 pl1 h1], p2 as [g2 pl2 h2]. cbn [pieces currentPlayer] in *.
  subst. apply evaluateFresh_history.
Qed.

End Keys.

Lemma generateKey_identifies_the_position_witness :
  let p1 := twoMovesPosition in
  let p2 := mkPosition (pieces twoMovesPosition) PWHITE ["earlier"%string] in
  generateKey darkOdd p1 = generateKey darkOdd p2 ∧
  evaluateFresh darkOdd p1 = evaluateFresh darkOdd p2.
Proof.
  intros p1 p2.
  assert (generateKey darkOdd p1 = generateKey darkOdd p2) as Hkey by reflexivity.
  split; [exact Hkey|].
  assert (wfGrid (pieces twoMovesPosition)) as Hwf.
  { split; [reflexivity|]. repeat constructor. }
  assert (piecesOnDark darkOdd (pieces twoMovesPosition)) as Hdark.
  { apply (bool_decide_unpack _). vm_compute. exact I. }
  exact (proj2 (proj2 (generateKey_identifies_the_position darkOdd p1 p2
                         Hwf Hwf Hdark Hdark Hkey))).
Defined.

(** ** The evaluation cache of the engine *)

(** Evaluating a position twice gives the same score, and the second call
    leaves the cache as the first left it; no other key of the cache is
    touched.  A position in which a side has no piece is scored 10000 or
    -10000 and is not cached. *)
Theorem evaluatePosition_is_cached (isDarkSquare : Z → Z → bool) evalCache position :
  let key := generateKey isDarkSquare position in
  let first := evaluatePosition isDarkSquare evalCache position in
  evaluatePosition isDarkSquare first.2 position = first ∧
  (∀ k, k ≠ key → first.2 !! k = evalCache !! k) ∧
  (evalCache !! key = None →
     first.1 = (evaluateFresh isDarkSquare position).1 ∧
     first.2 !! key =
       if (evaluateFresh isDarkSquare position).2 then Some first.1 else None).
Proof.
  intros key first. subst first. unfold evaluatePosition. fold key.
  destruct (evalCache !! key) as [cached|] eqn:Hcached.
  - cbn [fst snd]. rewrite Hcached. split_and!; done.
  - destruct (evaluateFresh isDarkSquare position) as [score stored] eqn:Hfresh.
    destruct stored; cbn [fst snd].
    + rewrite lookup_insert_eq. split_and!; [done| |done].
      intros k Hk. by rewrite lookup_insert_ne.
    + rewrite Hcached. split_and!; done.
Qed.

(** ** The limits of a search *)

Lemma COMPLEX_POSITION_MULTIPLIER_range level :
  (1 <= COMPLEX_POSITION_MULTIPLIER level <= 1.8)%Q.
Proof.
  unfold COMPLEX_POSITION_MULTIPLIER.
  repeat (destruct (bool_decide _)); lra.
Qed.

Lemma TIME_ALLOCATION_range level : 500 <= TIME_ALLOCATION level <= 15000.
Proof.
  unfold TIME_ALLOCATION. repeat (destruct (bool_decide _)); lia.
Qed.

Lemma MAX_DEPTH_range level : 4 <= MAX_DEPTH level <= 14.
Proof.
  unfold MAX_DEPTH. repeat (destruct (bool_decide _)); lia.
Qed.

Lemma allocateTime_range ai position moveNumber baseTime :
  0 <= baseTime →
  (inject_Z baseTime * 0.7 <= allocateTime ai position moveNumber baseTime
   <= inject_Z baseTime * 3)%Q.
Proof.
  intros Hbase. unfold allocateTime.
  assert (0 <= inject_Z baseTime)%Q as Hb.
  { change 0%Q with (inject_Z 0). by rewrite <- Zle_Qle. }
  pose proof (COMPLEX_POSITION_MULTIPLIER_range (level ai)) as Hm.
  set (b := inject_Z baseTime) in *.
  set (mult := COMPLEX_POSITION_MULTIPLIER (level ai)) in *.
  set (t1 := if bool_decide (moveNumber < 10) then (b * 0.7)%Q else b).
  assert (b * 0.7 <= t1)%Q as H1 by (unfold t1; destruct (bool_decide _); lra).
  set (t2 := if bool_decide (countTotalPieces position ≤ 10)%nat
             then (t1 * 1.5)%Q else t1).
  clearbody t1.
  assert (t1 <= t2)%Q as H2 by (unfold t2; destruct (bool_decide _); lra).
  clearbody t2.
  set (t3 := if bool_decide (getAvailableCaptures position = []) then t2 else _).
  assert (t2 <= t3)%Q as H3.
  { unfold t3. repeat (destruct (bool_decide _)); lra. }
  clearbody t3.
  assert (t3 <= t3 * mult)%Q as H4 by nra.
  destruct (Qle_bool (t3 * mult) (b * 3)) eqn:Hcap.
  - apply Qle_bool_iff in Hcap. split; [lra|done].
  - split; lra.
Qed.


(** ** The forced capture *)

Lemma sortInsertQ_ext {A} (c1 c2 : A → A → Q) x l :
  (∀ a b, Qle_bool (c1 a b) 0 = Qle_bool (c2 a b) 0) →
  sortInsertQ c1 x l = sortInsertQ c2 x l.
Proof.
  intros Hc. induction l as [|y l IH]; simpl; [done|].
  rewrite Hc, IH. done.
Qed.

Lemma sortByQ_ext {A} (c1 c2 : A → A → Q) l :
  (∀ a b, Qle_bool (c1 a b) 0 = Qle_bool (c2 a b) 0) →
  sortByQ c1 l = sortByQ c2 l.
Proof.
  intros Hc. unfold sortByQ. induction l as [|x l IH]; simpl; [done|].
  rewrite IH. by apply sortInsertQ_ext.
Qed.

Lemma Qle_bool_ext (x y : Q) : ((x <= 0)%Q ↔ (y <= 0)%Q) → Qle_bool x 0 = Qle_bool y 0.
Proof.
  intros H. destruct (Qle_bool x 0) eqn:Hx, (Qle_bool y 0) eqn:Hy; try done.
  - apply Qle_bool_iff, H, Qle_bool_iff in Hx. congruence.
  - apply Qle_bool_iff, H, Qle_bool_iff in Hy. congruence.
Qed.

Lemma sortByQ_descending {A} (value : A → Q) l :
  ascendingQ (fun a => (- value a)%Q) (sortByQ (fun a b => (value b - value a)%Q) l).
Proof.
  rewrite (sortByQ_ext _ (fun a b => (- value a - - value b)%Q)).
  - apply (sortByQ_ascending (fun a => (- value a)%Q)).
  - intros a b. apply Qle_bool_ext. split; intros; lra.
Qed.

Section Forced.
Variable isDarkSquare : Z → Z → bool.

(** [quickTacticalScan] finds a forced move exactly when one capture of
    the list is worth more than every other capture by over 100 points
    of [evaluateCaptureSequence] (in particular when the list has a
    single capture), and that capture is the move it returns. *)
Theorem quickTacticalScan_spec position moves m :
  let value := evaluateCaptureSequence isDarkSquare position in
  quickTacticalScan isDarkSquare position moves = Some m ↔
  ∃ others,
    filter (fun m => captures m ≠ []) moves ≡ₚ m :: others ∧
    ∀ m', m' ∈ others → (value m' + 100 < value m)%Q.
Proof.
  intros value. unfold quickTacticalScan. fold value.
  set (caps := filter (fun m => captures m ≠ []) moves).
  pose proof (sortByQ_perm (fun a b => (value b - value a)%Q) caps) as Hperm.
  pose proof (sortByQ_descending value caps) as Hsorted.
  destruct (sortByQ _ caps) as [|best [|second rest]].
  - split; [done|]. intros (others & Hp & _).
    rewrite <- Hperm in Hp. by apply Permutation_nil_cons in Hp.
  - split.
    + intros [= <-]. exists []. split; [by rewrite <- Hperm|].
      by intros ? ?%elem_of_nil.
    + intros (others & Hp & _). rewrite <- Hperm in Hp.
      apply Permutation_length in Hp as Hlen.
      destruct others; [|done].
      apply Permutation_singleton_l in Hp. congruence.
  - unfold ascendingQ in Hsorted.
    apply StronglySorted_inv in Hsorted as [Htail Hbest].
    apply StronglySorted_inv in Htail as [_ Hsecond].
    rewrite Forall_forall in Hbest. rewrite Forall_forall in Hsecond.
    destruct (Qle_bool (value best) (value second + 100)) eqn:Hcmp; cbn [negb].
    + split; [done|]. intros (others & Hp & Hall).
      apply Qle_bool_iff in Hcmp. rewrite <- Hperm in Hp.
      assert (m ∈ best :: second :: rest) as Hm by (rewrite Hp; by left).
      assert (best ∈ m :: others) as Hb by (rewrite <- Hp; by left).
      assert (value m <= value best)%Q as Hmb.
      { apply elem_of_cons in Hm as [->|Hm]; [lra|].
        specialize (Hbest m Hm). simpl in Hbest. lra. }
      apply elem_of_cons in Hb as [->|Hb].
      * apply Permutation_cons_inv in Hp.
        assert (second ∈ others) as Hs by (rewrite <- Hp; by left).
        specialize (Hall second Hs). lra.
      * specialize (Hall best Hb). lra.
    + assert (value second + 100 < value best)%Q as Hgap.
      { apply Qnot_le_lt. intros Hle%Qle_bool_iff. congruence. }
      split.
      * intros [= <-]. exists (second :: rest). split; [by rewrite <- Hperm|].
        intros m' [->|Hm']%elem_of_cons; [done|].
        specialize (Hsecond m' Hm'). simpl in Hsecond. lra.
      * intros (others & Hp & Hall). f_equal.
        rewrite <- Hperm in Hp.
        assert (best ∈ m :: others) as Hb by (rewrite <- Hp; by left).
        apply elem_of_cons in Hb as [->|Hb]; [done|].
        assert (m ∈ best :: second :: rest) as Hm by (rewrite Hp; by left).
        specialize (Hall best Hb).
        apply elem_of_cons in Hm as [->|Hm]; [done|].
        specialize (Hbest m Hm). simpl in Hbest. lra.
Qed.

End Forced.
